(** * xsimd: batch constants, gather helpers and the AVX2 integer kernels

    A shallow embedding of
      - include/xsimd/types/xsimd_batch_constant.hpp
      - include/xsimd/types/xsimd_gather_utils.hpp
      - include/xsimd/types/xsimd_batch.hpp
      - include/xsimd/arch/xsimd_avx2.hpp
    A 256-bit register is an integer read through lanes of 8, 16, 32 or 64
    bits; every lane stores a bit pattern, and the element type decides
    whether the pattern is read as a signed or an unsigned number. *)

From Stdlib Require Import Floats String ZArith List Lia Bool.
From Equations Require Import Equations.
Import ListNotations.
Local Open Scope Z_scope.

(** ** Fixed-width integers *)

Module Word.

(** Conversion to an unsigned [w]-bit integer: reduction modulo [2^w]. *)
Definition wrap (w x : Z) : Z := x mod 2 ^ w.

(** Two's complement reading of the low [w] bits of [x]. *)
Definition sint (w x : Z) : Z :=
  let u := wrap w x in
  if u <? 2 ^ (w - 1) then u else u - 2 ^ w.

(** The all-ones pattern of [w] bits. *)
Definition all_ones (w : Z) : Z := 2 ^ w - 1.

End Word.
Export Word.

(** ** Element types *)

Inductive int_type : Set :=
| int8_t | uint8_t | int16_t | uint16_t
| int32_t | uint32_t | int64_t | uint64_t.

Definition sizeof (T : int_type) : Z :=
  match T with
  | int8_t | uint8_t => 1
  | int16_t | uint16_t => 2
  | int32_t | uint32_t => 4
  | int64_t | uint64_t => 8
  end.

Definition is_signed (T : int_type) : bool :=
  match T with
  | int8_t | int16_t | int32_t | int64_t => true
  | _ => false
  end.

Definition bits (T : int_type) : Z := 8 * sizeof T.

(** [std::make_signed] and [std::make_unsigned]. *)
Definition make_signed (T : int_type) : int_type :=
  match T with
  | int8_t | uint8_t => int8_t
  | int16_t | uint16_t => int16_t
  | int32_t | uint32_t => int32_t
  | int64_t | uint64_t => int64_t
  end.

Definition make_unsigned (T : int_type) : int_type :=
  match T with
  | int8_t | uint8_t => uint8_t
  | int16_t | uint16_t => uint16_t
  | int32_t | uint32_t => uint32_t
  | int64_t | uint64_t => uint64_t
  end.

(** [static_cast<T>(x)]: the value of type [T] congruent to [x] modulo
    [2^bits T]; also the number a lane pattern denotes at type [T]. *)
Definition static_cast (T : int_type) (x : Z) : Z :=
  if is_signed T then sint (bits T) x else wrap (bits T) x.

(** [std::size_t] is a 64-bit unsigned integer. *)
Definition size_t_mul (a b : Z) : Z := wrap 64 (a * b).

(** ** The 256-bit register *)

Module M256.

(** Lane [i] of width [w] of register [r]: bits [w*i .. w*i + w - 1]. *)
Definition lane (w : Z) (i : nat) (r : Z) : Z :=
  (r / 2 ^ (w * Z.of_nat i)) mod 2 ^ w.

(** Little-endian packing of lanes, each truncated to [w] bits. *)
Fixpoint of_lanes (w : Z) (l : list Z) : Z :=
  match l with
  | [] => 0
  | x :: t => wrap w x + 2 ^ w * of_lanes w t
  end.

Definition nlanes (w : Z) : nat := Z.to_nat (256 / w).

(** The register whose lane [i] is [f i], as in the [FOR j := 0 to n-1]
    loops of the instruction reference. *)
Definition build (w : Z) (f : nat -> Z) : Z :=
  of_lanes w (map f (seq 0 (nlanes w))).

Definition lanes (w : Z) (r : Z) : list Z :=
  map (fun i => lane w i r) (seq 0 (nlanes w)).

End M256.
Export M256.

(** ** AVX2 instructions

    The intrinsics the kernels call, after the operation sections of the
    Intel Intrinsics Guide.  Registers are read lane by lane; [build]
    truncates every produced lane to its width. *)

Module Intrin.

Definition _mm256_setzero_si256 : Z := 0.

Definition set1 (w a : Z) : Z := build w (fun _ => a).
Definition _mm256_set1_epi8 := set1 8.
Definition _mm256_set1_epi16 := set1 16.
Definition _mm256_set1_epi32 := set1 32.
Definition _mm256_set1_epi64x := set1 64.

Definition _mm256_and_si256 (a b : Z) : Z := Z.land a b.
Definition _mm256_or_si256 (a b : Z) : Z := Z.lor a b.
Definition _mm256_xor_si256 (a b : Z) : Z := Z.lxor a b.
(** [(NOT a) AND b]. *)
Definition _mm256_andnot_si256 (a b : Z) : Z := Z.land (Z.lnot a) b.
Definition _mm_and_si128 (a b : Z) : Z := Z.land a b.

(** Signed compare: all ones where [a > b], zero elsewhere. *)
Definition cmpgt (w a b : Z) : Z :=
  build w (fun i =>
    if sint w (lane w i a) >? sint w (lane w i b) then all_ones w else 0).
Definition _mm256_cmpgt_epi8 := cmpgt 8.
Definition _mm256_cmpgt_epi16 := cmpgt 16.
Definition _mm256_cmpgt_epi32 := cmpgt 32.
Definition _mm256_cmpgt_epi64 := cmpgt 64.

Definition cmpeq (w a b : Z) : Z :=
  build w (fun i => if lane w i a =? lane w i b then all_ones w else 0).
Definition _mm256_cmpeq_epi8 := cmpeq 8.
Definition _mm256_cmpeq_epi16 := cmpeq 16.
Definition _mm256_cmpeq_epi32 := cmpeq 32.
Definition _mm256_cmpeq_epi64 := cmpeq 64.

(** Shift right by the immediate [imm8[7:0]], shifting in sign bits; a
    count above [w - 1] leaves only sign bits. *)
Definition srai (w a imm8 : Z) : Z :=
  let count := imm8 mod 256 in
  build w (fun i =>
    let x := sint w (lane w i a) in
    if count >? w - 1 then (if x <? 0 then all_ones w else 0)
    else Z.shiftr x count).
Definition _mm256_srai_epi16 := srai 16.
Definition _mm256_srai_epi32 := srai 32.

(** Shift right by the immediate, shifting in zeros; a count above
    [w - 1] gives zero. *)
Definition srli (w a imm8 : Z) : Z :=
  let count := imm8 mod 256 in
  build w (fun i =>
    if count >? w - 1 then 0 else Z.shiftr (lane w i a) count).
Definition _mm256_srli_epi16 := srli 16.
Definition _mm256_srli_epi32 := srli 32.
Definition _mm256_srli_epi64 := srli 64.

(** Low half of the lane-wise product. *)
Definition mullo (w a b : Z) : Z :=
  build w (fun i => lane w i a * lane w i b).
Definition _mm256_mullo_epi16 := mullo 16.
Definition _mm256_mullo_epi32 := mullo 32.

Definition _mm256_add_epi64 (a b : Z) : Z :=
  build 64 (fun j => lane 64 j a + lane 64 j b).

(** Unsigned 32x32->64 product of the low dword of every qword. *)
Definition _mm256_mul_epu32 (a b : Z) : Z :=
  build 64 (fun j => lane 32 (2 * j) a * lane 32 (2 * j) b).

(** Dword shuffle inside each 128-bit half: destination dword [k] of a
    half takes the source dword picked by bits [2k+1:2k] of [imm8]. *)
Definition _mm256_shuffle_epi32 (a imm8 : Z) : Z :=
  build 32 (fun i =>
    let half := (4 * (i / 4))%nat in
    let sel := Z.land (Z.shiftr imm8 (2 * Z.of_nat (i mod 4))) 3 in
    lane 32 (half + Z.to_nat sel) a).

(** Horizontal add of adjacent dword pairs: in each 128-bit half the two
    low results come from [a], the two high ones from [b]. *)
Definition _mm256_hadd_epi32 (a b : Z) : Z :=
  build 32 (fun i =>
    let half := (4 * (i / 4))%nat in
    match (i mod 4)%nat with
    | 0%nat => lane 32 (half + 1) a + lane 32 half a
    | 1%nat => lane 32 (half + 3) a + lane 32 (half + 2) a
    | 2%nat => lane 32 (half + 1) b + lane 32 half b
    | _ => lane 32 (half + 3) b + lane 32 (half + 2) b
    end).

(** Byte blend under a run-time mask: byte [j] comes from [b] when the
    top bit of mask byte [j] is set, from [a] otherwise. *)
Definition _mm256_blendv_epi8 (a b mask : Z) : Z :=
  build 8 (fun j =>
    if Z.testbit (lane 8 j mask) 7 then lane 8 j b else lane 8 j a).

(** Dword blend under an immediate: dword [j] comes from [b] when bit
    [j] of [imm8] is set, from [a] otherwise. *)
Definition _mm256_blend_epi32 (a b imm8 : Z) : Z :=
  build 32 (fun j =>
    if Z.testbit imm8 (Z.of_nat j) then lane 32 j b else lane 32 j a).

(** Gathers.  [mem] maps a signed byte displacement from the base
    pointer to the element stored there; the index is sign-extended to
    64 bits and multiplied by [scale] in 64-bit address arithmetic. *)
Definition _mm256_i32gather_epi32 (mem : Z -> Z) (vindex scale : Z) : Z :=
  build 32 (fun i => mem (sint 64 (sint 32 (lane 32 i vindex) * scale))).

Definition _mm256_i64gather_epi64 (mem : Z -> Z) (vindex scale : Z) : Z :=
  build 64 (fun i => mem (sint 64 (sint 64 (lane 64 i vindex) * scale))).


(** *** Further instructions *)

(** Lane-wise sum and difference, truncated to the lane. *)
Definition add_epi (w a b : Z) : Z :=
  build w (fun i => lane w i a + lane w i b).
Definition _mm256_add_epi8 := add_epi 8.
Definition _mm256_add_epi16 := add_epi 16.
Definition _mm256_add_epi32 := add_epi 32.

Definition sub_epi (w a b : Z) : Z :=
  build w (fun i => lane w i a - lane w i b).
Definition _mm256_sub_epi8 := sub_epi 8.
Definition _mm256_sub_epi16 := sub_epi 16.
Definition _mm256_sub_epi32 := sub_epi 32.
Definition _mm256_sub_epi64 := sub_epi 64.

(** Absolute value of the signed lane, stored unsigned. *)
Definition abs_epi (w a : Z) : Z :=
  build w (fun i => Z.abs (sint w (lane w i a))).
Definition _mm256_abs_epi8 := abs_epi 8.
Definition _mm256_abs_epi16 := abs_epi 16.
Definition _mm256_abs_epi32 := abs_epi 32.

(** Shift left by the immediate [imm8[7:0]], shifting in zeros; a count
    above [w - 1] gives zero. *)
Definition slli (w a imm8 : Z) : Z :=
  let count := imm8 mod 256 in
  build w (fun i =>
    if count >? w - 1 then 0 else Z.shiftl (lane w i a) count).
Definition _mm256_slli_epi16 := slli 16.
Definition _mm256_slli_epi32 := slli 32.
Definition _mm256_slli_epi64 := slli 64.

(** Shifts by the count held in the same lane of [count], read unsigned;
    a count from [w] on gives zero, or only sign bits for [srav]. *)
Definition sllv (w a count : Z) : Z :=
  build w (fun i =>
    if lane w i count <? w then Z.shiftl (lane w i a) (lane w i count) else 0).
Definition _mm256_sllv_epi32 := sllv 32.
Definition _mm256_sllv_epi64 := sllv 64.

Definition srlv (w a count : Z) : Z :=
  build w (fun i =>
    if lane w i count <? w then Z.shiftr (lane w i a) (lane w i count) else 0).
Definition _mm256_srlv_epi32 := srlv 32.
Definition _mm256_srlv_epi64 := srlv 64.

Definition srav (w a count : Z) : Z :=
  build w (fun i =>
    let x := sint w (lane w i a) in
    if lane w i count <? w then Z.shiftr x (lane w i count)
    else if x <? 0 then all_ones w else 0).
Definition _mm256_srav_epi32 := srav 32.

(** Lane-wise maximum and minimum, signed ([epi]) and unsigned ([epu]). *)
Definition max_epi (w a b : Z) : Z :=
  build w (fun i => Z.max (sint w (lane w i a)) (sint w (lane w i b))).
Definition max_epu (w a b : Z) : Z :=
  build w (fun i => Z.max (lane w i a) (lane w i b)).
Definition min_epi (w a b : Z) : Z :=
  build w (fun i => Z.min (sint w (lane w i a)) (sint w (lane w i b))).
Definition min_epu (w a b : Z) : Z :=
  build w (fun i => Z.min (lane w i a) (lane w i b)).
Definition _mm256_max_epi8 := max_epi 8.
Definition _mm256_max_epi16 := max_epi 16.
Definition _mm256_max_epi32 := max_epi 32.
Definition _mm256_max_epu8 := max_epu 8.
Definition _mm256_max_epu16 := max_epu 16.
Definition _mm256_max_epu32 := max_epu 32.
Definition _mm256_min_epi8 := min_epi 8.
Definition _mm256_min_epi16 := min_epi 16.
Definition _mm256_min_epi32 := min_epi 32.
Definition _mm256_min_epu8 := min_epu 8.
Definition _mm256_min_epu16 := min_epu 16.
Definition _mm256_min_epu32 := min_epu 32.

(** Saturation to the signed and to the unsigned range of [w] bits. *)
Definition saturate_signed (w x : Z) : Z :=
  Z.max (- 2 ^ (w - 1)) (Z.min (2 ^ (w - 1) - 1) x).
Definition saturate_unsigned (w x : Z) : Z :=
  Z.max 0 (Z.min (2 ^ w - 1) x).

Definition adds_epi (w a b : Z) : Z :=
  build w (fun i => saturate_signed w (sint w (lane w i a) + sint w (lane w i b))).
Definition adds_epu (w a b : Z) : Z :=
  build w (fun i => saturate_unsigned w (lane w i a + lane w i b)).
Definition subs_epi (w a b : Z) : Z :=
  build w (fun i => saturate_signed w (sint w (lane w i a) - sint w (lane w i b))).
Definition subs_epu (w a b : Z) : Z :=
  build w (fun i => saturate_unsigned w (lane w i a - lane w i b)).
Definition _mm256_adds_epi8 := adds_epi 8.
Definition _mm256_adds_epi16 := adds_epi 16.
Definition _mm256_adds_epu8 := adds_epu 8.
Definition _mm256_adds_epu16 := adds_epu 16.
Definition _mm256_subs_epi8 := subs_epi 8.
Definition _mm256_subs_epi16 := subs_epi 16.
Definition _mm256_subs_epu8 := subs_epu 8.
Definition _mm256_subs_epu16 := subs_epu 16.

(** The 128-bit half picked by [imm8[0]], and the low half. *)
Definition _mm256_extracti128_si256 (a imm8 : Z) : Z :=
  lane 128 (Z.to_nat (imm8 mod 2)) a.
Definition _mm256_castsi256_si128 (a : Z) : Z := lane 128 0 a.

(** 128-bit registers: the register whose [128 / w] lanes are [f i]. *)
Definition build128 (w : Z) (f : nat -> Z) : Z :=
  of_lanes w (map f (seq 0 (Z.to_nat (128 / w)))).
Definition _mm_add_epi32 (a b : Z) : Z :=
  build128 32 (fun i => lane 32 i a + lane 32 i b).
Definition _mm_add_epi64 (a b : Z) : Z :=
  build128 64 (fun i => lane 64 i a + lane 64 i b).
(** The low lane, as an [int] and as a 64-bit integer. *)
Definition _mm_cvtsi128_si32 (a : Z) : Z := sint 32 (lane 32 0 a).
Definition _mm_cvtsi128_si64 (a : Z) : Z := sint 64 (lane 64 0 a).

(** [_MM_SHUFFLE(z, y, x, w)]. *)
Definition _MM_SHUFFLE (z y x w : Z) : Z :=
  Z.lor (Z.lor (Z.lor (Z.shiftl z 6) (Z.shiftl y 4)) (Z.shiftl x 2)) w.

(** Floating-point registers are read through the bit patterns of their
    lanes; the instructions below only move lanes.  Destination qword
    [k] takes the source qword picked by bits [2k+1:2k] of [imm8]. *)
Definition _mm256_permute4x64_pd (a imm8 : Z) : Z :=
  build 64 (fun k =>
    lane 64 (Z.to_nat (Z.land (Z.shiftr imm8 (2 * Z.of_nat k)) 3)) a).

(** Qword [k] comes from [b] when bit [k] of [imm8] is set. *)
Definition _mm256_blend_pd (a b imm8 : Z) : Z :=
  build 64 (fun k =>
    if Z.testbit imm8 (Z.of_nat k) then lane 64 k b else lane 64 k a).

(** Interleave the low (the high) qwords of each 128-bit half. *)
Definition _mm256_unpacklo_pd (a b : Z) : Z :=
  build 64 (fun k =>
    let half := (2 * (k / 2))%nat in
    if Nat.even k then lane 64 half a else lane 64 half b).
Definition _mm256_unpackhi_pd (a b : Z) : Z :=
  build 64 (fun k =>
    let half := (2 * (k / 2))%nat in
    if Nat.even k then lane 64 (half + 1) a else lane 64 (half + 1) b).

(** In each 128-bit half the two low dwords come from [a], the two high
    ones from [b], each picked by two bits of [imm8]. *)
Definition _mm256_shuffle_ps (a b imm8 : Z) : Z :=
  build 32 (fun i =>
    let half := (4 * (i / 4))%nat in
    let sel := Z.to_nat (Z.land (Z.shiftr imm8 (2 * Z.of_nat (i mod 4))) 3) in
    if (i mod 4 <? 2)%nat then lane 32 (half + sel) a
    else lane 32 (half + sel) b).

Definition _mm256_castps_pd (a : Z) : Z := a.
Definition _mm256_castpd_ps (a : Z) : Z := a.

End Intrin.
Export Intrin.

(** ** Register storage *)

(** Modelled from the spec: the register declaration of
    xsimd_avx2_register.hpp is missing; the native register of the tier
    is 32 bytes wide for every integer element type. *)
Definition sizeof_simd_register : Z := 32.

(** [batch<T, A>::size] and [batch_bool<T, A>::size]:
    [sizeof(types::simd_register<T, A>) / sizeof(T)]. *)
Definition batch_size (T : int_type) : nat :=
  Z.to_nat (sizeof_simd_register / sizeof T).

(** ** Kernels of the ancestor tiers

    [xsimd_avx2.hpp] forwards to kernels of the [avx] and generic tiers
    that live in other headers.  They are given here by their contract. *)

Module Avx.

(** Modelled from the spec: [kernel::set] is missing; a batch created
    from an explicit lane list holds value [k] in lane [k]. *)
Definition set (T : int_type) (values : list Z) : Z :=
  build (bits T) (fun i => nth i values 0).

(** Modelled from the spec: [kernel::set] for [batch_bool] is missing;
    a boolean lane is stored as an all-ones or all-zeros pattern. *)
Definition set_bool (T : int_type) (values : list bool) : Z :=
  build (bits T) (fun i => if nth i values false then all_ones (bits T) else 0).

(** Modelled from the spec: [kernel::broadcast] is missing; creation
    by broadcast puts the value in every lane. *)
Definition broadcast (T : int_type) (val : Z) : Z := set1 (bits T) val.

(** Modelled from the spec: [kernel::store_aligned] is missing; a
    store writes the [size] elements contiguously, lane [i] at index [i]. *)
Definition store_aligned (T : int_type) (self : Z) : list Z :=
  map (fun i => static_cast T (lane (bits T) i self)) (seq 0 (batch_size T)).

(** Modelled from the spec: [kernel::load_aligned] is missing; a load
    reads [size] contiguous elements, index [i] into lane [i]. *)
Definition load_aligned (T : int_type) (mem : nat -> Z) : Z :=
  build (bits T) mem.

(** Modelled from the spec: [kernel::store] for [batch_bool] is
    missing; a lane is conceptually true or false, all-zeros being
    false, and is written as one [bool] byte. *)
Definition store (T : int_type) (self : Z) : list Z :=
  map (fun i => if lane (bits T) i self =? 0 then 0 else 1) (seq 0 (batch_size T)).

(** Modelled from the spec: [xsimd::bitwise_cast] is missing; a
    reinterpretation keeps the register as it is. *)
Definition bitwise_cast (self : Z) : Z := self.

(** Modelled from the spec: [detail::fwd_to_sse] is missing; it runs a
    128-bit kernel on the low and on the high half of two registers and
    joins the results. *)
Definition fwd_to_sse (f : Z -> Z -> Z) (self other : Z) : Z :=
  let lo x := x mod 2 ^ 128 in
  let hi x := (x / 2 ^ 128) mod 2 ^ 128 in
  (f (lo self) (lo other)) mod 2 ^ 128
  + 2 ^ 128 * ((f (hi self) (hi other)) mod 2 ^ 128).

(** Modelled from the spec: the [avx] tier's [bitwise_rshift] is
    missing; right shift is arithmetic on signed types, logical on
    unsigned ones. *)
Definition bitwise_rshift (T : int_type) (self other : Z) : Z :=
  build (bits T) (fun i =>
    Z.shiftr (static_cast T (lane (bits T) i self)) other).

(** Modelled from the spec: the [avx] tier's [mul] is missing; [mul]
    is lane-wise with two's-complement wraparound. *)
Definition mul (T : int_type) (self other : Z) : Z :=
  build (bits T) (fun i => lane (bits T) i self * lane (bits T) i other).

(** Modelled from the spec: the [avx] tier's [eq] and [gt] are
    missing; comparisons are lane-wise, produce a boolean batch, and
    [gt] follows the signedness of [T]. *)
Definition eq (T : int_type) (self other : Z) : Z :=
  build (bits T) (fun i =>
    if lane (bits T) i self =? lane (bits T) i other
    then all_ones (bits T) else 0).

Definition gt (T : int_type) (self other : Z) : Z :=
  build (bits T) (fun i =>
    if static_cast T (lane (bits T) i self) >? static_cast T (lane (bits T) i other)
    then all_ones (bits T) else 0).

(** Modelled from the spec: the [avx] tier's [select] is missing;
    [select(cond, a, b)] is the lane-wise ternary [cond[i] ? a[i] : b[i]]. *)
Definition select (T : int_type) (cond true_br false_br : Z) : Z :=
  build (bits T) (fun i =>
    if lane (bits T) i cond =? 0 then lane (bits T) i false_br
    else lane (bits T) i true_br).

End Avx.

(** The SSE4.2 kernel reached through [fwd_to_sse]. *)
Module Sse4_2.
(** Modelled from the spec: the [sse4_2] tier's [bitwise_and] is
    missing; bitwise operations are lane-wise on the whole register. *)
Definition bitwise_and (self other : Z) : Z := _mm_and_si128 self other.
End Sse4_2.

(** ** xsimd_batch_constant.hpp *)

Module BatchConstant.

(** [detail::get_at_index]: the one-element overload returns its head
    whatever the index. *)
Fixpoint get_at_index {T : Type} (i : nat) (head : T) (tail : list T) : T :=
  match tail with
  | [] => head
  | t :: ts =>
      match i with
      | O => head
      | S i' => get_at_index i' t ts
      end
  end.

(** [int] is a 32-bit two's complement integer; [x << 1] keeps the low
    32 bits of the doubled value, as the x86 compilers evaluate it. *)
Definition int_shl1 (x : Z) : Z := sint 32 (Z.shiftl x 1).

(** [static_cast<int>(bool)]. *)
Definition int_of_bool (b : bool) : Z := if b then 1 else 0.

Equations? mask_helper (acc : Z) (masks : list Z) : Z by wf (length masks) lt :=
  mask_helper acc [] := acc;
  mask_helper acc (mask :: masks) :=
    mask_helper (Z.lor acc mask) (map int_shl1 masks).
Proof. rewrite length_map. simpl. lia. Qed.

(** [batch_bool_constant<batch_type, Values...>]; an empty pack has no
    [get] overload to call. *)
Module batch_bool_constant.
Definition get (Values : list bool) (i : nat) : option bool :=
  match Values with
  | [] => None
  | head :: tail => Some (get_at_index i head tail)
  end.

Definition mask (Values : list bool) : Z :=
  mask_helper 0 (map int_of_bool Values).
End batch_bool_constant.

(** [batch_constant<batch_type, Values...>]. *)
Module batch_constant.
Definition get (Values : list Z) (i : nat) : option Z :=
  match Values with
  | [] => None
  | head :: tail => Some (get_at_index i head tail)
  end.
End batch_constant.

(** A constant expression converts to a template argument of type [T]
    only when [T] can hold its value; the conversion may not narrow. *)
Definition fits (T : int_type) (x : Z) : bool :=
  if is_signed T
  then (- 2 ^ (bits T - 1) <=? x) && (x <? 2 ^ (bits T - 1))
  else (0 <=? x) && (x <? 2 ^ bits T).

(** [make_batch_constant<batch_type, G>()]: the pack
    [G::get(Is, sizeof...(Is))...] over the indices below the batch
    size, passed as template arguments of the batch's value type.  When
    one of the values does not fit the value type the argument is a
    narrowing error and there is no constant: [None]. *)
Definition make_batch_constant (T : int_type) (G : nat -> nat -> Z)
  : option (list Z) :=
  let Values := map (fun i => G i (batch_size T)) (seq 0 (batch_size T)) in
  if forallb (fits T) Values then Some Values else None.

Definition make_batch_bool_constant (T : int_type) (G : nat -> nat -> bool) : list bool :=
  map (fun i => G i (batch_size T)) (seq 0 (batch_size T)).

End BatchConstant.

(** ** Calls that may stop on an assertion *)

Inductive outcome (A : Type) : Type :=
| Done (a : A)
| AssertionFailure (msg : string).
Arguments Done {A} a.
Arguments AssertionFailure {A} msg.

Definition bind {A B : Type} (c : outcome A) (k : A -> outcome B) : outcome B :=
  match c with
  | Done a => k a
  | AssertionFailure msg => AssertionFailure msg
  end.

Notation "x <- c ;; k" := (bind c (fun x => k))
  (at level 61, c at next level, right associativity).

(** ** xsimd_batch.hpp: constructors *)

Module Ctor.

(** [std::initializer_list<A>]: [begin()] is a pointer, read here as
    the view of memory from that address on, and [size()] the number of
    elements written between the braces. *)
Record initializer_list (A : Type) : Type :=
  { il_begin : nat -> A; il_size : nat }.
Arguments il_begin {A} _ _.
Arguments il_size {A} _.

(** The list [{ x0, ..., xk }], followed in memory by [past]. *)
Definition braces {A : Type} (l : list A) (past : nat -> A) : initializer_list A :=
  {| il_begin := fun i => nth i l (past (i - List.length l)%nat);
     il_size := List.length l |}.

(** [batch(T val)]. *)
Definition batch_of_value (T : int_type) (val : Z) : Z := Avx.broadcast T val.

(** [batch(T const* data, detail::index_sequence<Is...>)]. *)
Definition batch_of_pointer (T : int_type) (data : nat -> Z) : Z :=
  Avx.set T (map data (seq 0 (batch_size T))).

(** [batch(std::initializer_list<T> data)]: the delegated constructor
    runs first, the assertion in the body after it. *)
Definition batch_of_initializer_list (T : int_type) (data : initializer_list Z)
  : outcome Z :=
  let this := batch_of_pointer T (il_begin data) in
  if Nat.eqb (il_size data) (batch_size T) then Done this
  else AssertionFailure "consistent initialization".

(** [batch_bool(bool const* data, detail::index_sequence<Is...>)]. *)
Definition batch_bool_of_pointer (T : int_type) (data : nat -> bool) : Z :=
  Avx.set_bool T (map data (seq 0 (batch_size T))).

(** [batch_bool(std::initializer_list<bool> data)]: the body is empty. *)
Definition batch_bool_of_initializer_list (T : int_type) (data : initializer_list bool)
  : outcome Z :=
  Done (batch_bool_of_pointer T (il_begin data)).

(** [operator batch_type()] of a [batch_constant] and
    [operator batch_bool()] of a [batch_bool_constant]:
    [return { Values... }].  The pack has [size] values by the
    [static_assert], so nothing past its end is read. *)
Definition batch_of_constant (T : int_type) (Values : list Z) : outcome Z :=
  batch_of_initializer_list T (braces Values (fun _ => 0)).

Definition batch_bool_of_constant (T : int_type) (Values : list bool) : outcome Z :=
  batch_bool_of_initializer_list T (braces Values (fun _ => false)).

End Ctor.
Export Ctor.

(** ** xsimd_avx2.hpp: the kernels

    A [batch<T, avx2>] and a [batch_bool<T, avx2>] are their register.
    [switch (sizeof(T))] becomes a match on [sizeof T]; a [default] branch
    forwards to the [avx] tier. *)

Module Avx2.

Definition bitwise_and (self other : Z) : Z := _mm256_and_si256 self other.
Definition bitwise_andnot (self other : Z) : Z := _mm256_andnot_si256 self other.
Definition bitwise_not (self : Z) : Z :=
  _mm256_xor_si256 self (_mm256_set1_epi32 (-1)).
Definition bitwise_or (self other : Z) : Z := _mm256_or_si256 self other.
Definition bitwise_xor (self other : Z) : Z := _mm256_xor_si256 self other.

(** [bitwise_rshift(batch<T, A> const&, int32_t, requires_arch<avx2>)]. *)
Definition bitwise_rshift (T : int_type) (self other : Z) : Z :=
  if is_signed T then
    match sizeof T with
    | 1 =>
        let sign_mask :=
          _mm256_set1_epi16 (Z.land (Z.shiftr 0xFF00 other) 0x00FF) in
        let cmp_is_negative := _mm256_cmpgt_epi8 _mm256_setzero_si256 self in
        let res := _mm256_srai_epi16 self other in
        _mm256_or_si256
          (Avx.fwd_to_sse (fun s o => Sse4_2.bitwise_and s o)
             sign_mask cmp_is_negative)
          (_mm256_andnot_si256 sign_mask res)
    | 2 => _mm256_srai_epi16 self other
    | 4 => _mm256_srai_epi32 self other
    | _ => Avx.bitwise_rshift T self other
    end
  else
    match sizeof T with
    | 2 => _mm256_srli_epi16 self other
    | 4 => _mm256_srli_epi32 self other
    | 8 => _mm256_srli_epi64 self other
    | _ => Avx.bitwise_rshift T self other
    end.

Definition eq (T : int_type) (self other : Z) : Z :=
  match sizeof T with
  | 1 => _mm256_cmpeq_epi8 self other
  | 2 => _mm256_cmpeq_epi16 self other
  | 4 => _mm256_cmpeq_epi32 self other
  | 8 => _mm256_cmpeq_epi64 self other
  | _ => Avx.eq T self other
  end.

Definition gt (T : int_type) (self other : Z) : Z :=
  if is_signed T then
    match sizeof T with
    | 1 => _mm256_cmpgt_epi8 self other
    | 2 => _mm256_cmpgt_epi16 self other
    | 4 => _mm256_cmpgt_epi32 self other
    | 8 => _mm256_cmpgt_epi64 self other
    | _ => Avx.gt T self other
    end
  else Avx.gt T self other.

Definition mul (T : int_type) (self other : Z) : Z :=
  match sizeof T with
  | 2 => _mm256_mullo_epi16 self other
  | 4 => _mm256_mullo_epi32 self other
  | 8 =>
      let bswap := _mm256_shuffle_epi32 other 0xB1 in
      let prodlh := _mm256_mullo_epi32 self bswap in
      let zero := _mm256_setzero_si256 in
      let prodlh2 := _mm256_hadd_epi32 prodlh zero in
      let prodlh3 := _mm256_shuffle_epi32 prodlh2 0x73 in
      let prodll := _mm256_mul_epu32 self other in
      _mm256_add_epi64 prodll prodlh3
  | _ => Avx.mul T self other
  end.

(** [select] under a run-time mask. *)
Definition select (T : int_type) (cond true_br false_br : Z) : Z :=
  match sizeof T with
  | 1 => _mm256_blendv_epi8 false_br true_br cond
  | 2 => _mm256_blendv_epi8 false_br true_br cond
  | 4 => _mm256_blendv_epi8 false_br true_br cond
  | 8 => _mm256_blendv_epi8 false_br true_br cond
  | _ => Avx.select T cond true_br false_br
  end.

Section SelectConstant.

(** [detail::interleave] is defined in another header; the kernel is
    read for any such function. *)
Variable interleave : Z -> Z.

(** [select] under a [batch_bool_constant<batch<T, A>, Values...>]. *)
Definition select_constant (T : int_type) (Values : list bool)
           (true_br false_br : Z) : outcome Z :=
  let mask := BatchConstant.batch_bool_constant.mask Values in
  match sizeof T with
  | 4 => Done (_mm256_blend_epi32 false_br true_br mask)
  | 8 =>
      let imask := interleave mask in
      Done (_mm256_blend_epi32 false_br true_br imask)
  | _ =>
      cond <- batch_bool_of_constant T Values ;;
      Done (select T cond true_br false_br)
  end.

End SelectConstant.

Module detail.

(** [select_scale<required_scale, head, tail...>::scale]. *)
Fixpoint select_scale (required_scale head : Z) (tail : list Z) : Z :=
  match tail with
  | [] => head
  | head' :: tail' =>
      if required_scale mod head =? 0 then head
      else select_scale required_scale head' tail'
  end.

(** [prescaler<required_scale, scales...>]: the two constants; the
    instantiation exists only when the [static_assert] holds. *)
Record prescaler : Set := { scale : Z; prescale : Z }.

Definition make_prescaler (required_scale : Z) (scales : list Z)
  : option prescaler :=
  match scales with
  | [] => None
  | head :: tail =>
      let scale := select_scale required_scale head tail in
      let prescale := required_scale / scale in
      if required_scale mod scale =? 0
      then Some {| scale := scale; prescale := prescale |}
      else None
  end.

(** [prescaler::run]: [prescale * offset] is the batch product with
    [prescale] converted by [batch(T val)]. *)
Definition run (p : prescaler) (T : int_type) (offset : Z) : Z :=
  if prescale p =? 1 then offset
  else mul T (batch_of_value T (prescale p)) offset.

(** [gather_impl<scale>] for integer elements: 32-bit elements take
    [batch<int32_t>] offsets, 64-bit ones [batch<int64_t>] offsets;
    no overload takes another offset type. *)
Definition gather_impl (scale : Z) (O : int_type) (mem : Z -> Z) (offset : Z)
  : option Z :=
  match O with
  | int32_t => Some (_mm256_i32gather_epi32 mem offset scale)
  | int64_t => Some (_mm256_i64gather_epi64 mem offset scale)
  | _ => None
  end.

End detail.

(** [gather<scale>(mem, offset, avx2)], [O] the offsets' value type. *)
Definition gather (scale : Z) (O : int_type) (mem : Z -> Z) (offset : Z)
  : option Z :=
  let offset_batch := offset in
  match detail.make_prescaler scale [8; 4; 2; 1] with
  | Some prescale =>
      detail.gather_impl (detail.scale prescale) O mem
        (detail.run prescale O offset_batch)
  | None => None
  end.


(** *** The other kernels of the header

    The kernels of the [avx] tier that the [default] branches forward to
    live in another header; the kernels below are read for any such
    functions. *)

Section ParentTier.

Variable avx_abs : int_type -> Z -> Z.
Variables avx_add avx_sub : int_type -> Z -> Z -> Z.
Variables avx_lshift avx_lshift_batch avx_rshift_batch : int_type -> Z -> Z -> Z.
Variable avx_hadd : int_type -> Z -> Z.
Variables avx_max avx_min avx_sadd avx_ssub : int_type -> Z -> Z -> Z.

Definition abs (T : int_type) (self : Z) : Z :=
  if is_signed T then
    match sizeof T with
    | 1 => _mm256_abs_epi8 self
    | 2 => _mm256_abs_epi16 self
    | 4 => _mm256_abs_epi32 self
    | _ => avx_abs T self
    end
  else self.

Definition add (T : int_type) (self other : Z) : Z :=
  match sizeof T with
  | 1 => _mm256_add_epi8 self other
  | 2 => _mm256_add_epi16 self other
  | 4 => _mm256_add_epi32 self other
  | 8 => _mm256_add_epi64 self other
  | _ => avx_add T self other
  end.

Definition sub (T : int_type) (self other : Z) : Z :=
  match sizeof T with
  | 1 => _mm256_sub_epi8 self other
  | 2 => _mm256_sub_epi16 self other
  | 4 => _mm256_sub_epi32 self other
  | 8 => _mm256_sub_epi64 self other
  | _ => avx_sub T self other
  end.

(** [bitwise_lshift(batch<T, A> const&, int32_t, requires_arch<avx2>)]. *)
Definition bitwise_lshift (T : int_type) (self other : Z) : Z :=
  match sizeof T with
  | 2 => _mm256_slli_epi16 self other
  | 4 => _mm256_slli_epi32 self other
  | 8 => _mm256_slli_epi64 self other
  | _ => avx_lshift T self other
  end.

(** [bitwise_lshift(batch<T, A> const&, batch<T, A> const&, requires_arch<avx2>)]. *)
Definition bitwise_lshift_batch (T : int_type) (self other : Z) : Z :=
  match sizeof T with
  | 4 => _mm256_sllv_epi32 self other
  | 8 => _mm256_sllv_epi64 self other
  | _ => avx_lshift_batch T self other
  end.

(** [bitwise_rshift(batch<T, A> const&, batch<T, A> const&, requires_arch<avx2>)]. *)
Definition bitwise_rshift_batch (T : int_type) (self other : Z) : Z :=
  if is_signed T then
    match sizeof T with
    | 4 => _mm256_srav_epi32 self other
    | _ => avx_rshift_batch T self other
    end
  else
    match sizeof T with
    | 4 => _mm256_srlv_epi32 self other
    | 8 => _mm256_srlv_epi64 self other
    | _ => avx_rshift_batch T self other
    end.

(** [hadd]: the scalar result is converted to [T] on return.  The
    8-byte case is read on [__x86_64__]; the other branch copies the
    same low 64 bits. *)
Definition hadd (T : int_type) (self : Z) : Z :=
  match sizeof T with
  | 4 =>
      let tmp1 := _mm256_hadd_epi32 self self in
      let tmp2 := _mm256_hadd_epi32 tmp1 tmp1 in
      let tmp3 := _mm256_extracti128_si256 tmp2 1 in
      let tmp4 := _mm_add_epi32 (_mm256_castsi256_si128 tmp2) tmp3 in
      static_cast T (_mm_cvtsi128_si32 tmp4)
  | 8 =>
      let tmp1 := _mm256_shuffle_epi32 self 0x0E in
      let tmp2 := _mm256_add_epi64 self tmp1 in
      let tmp3 := _mm256_extracti128_si256 tmp2 1 in
      let res := _mm_add_epi64 (_mm256_castsi256_si128 tmp2) tmp3 in
      static_cast T (_mm_cvtsi128_si64 res)
  | _ => avx_hadd T self
  end.

Definition max (T : int_type) (self other : Z) : Z :=
  if is_signed T then
    match sizeof T with
    | 1 => _mm256_max_epi8 self other
    | 2 => _mm256_max_epi16 self other
    | 4 => _mm256_max_epi32 self other
    | _ => avx_max T self other
    end
  else
    match sizeof T with
    | 1 => _mm256_max_epu8 self other
    | 2 => _mm256_max_epu16 self other
    | 4 => _mm256_max_epu32 self other
    | _ => avx_max T self other
    end.

Definition min (T : int_type) (self other : Z) : Z :=
  if is_signed T then
    match sizeof T with
    | 1 => _mm256_min_epi8 self other
    | 2 => _mm256_min_epi16 self other
    | 4 => _mm256_min_epi32 self other
    | _ => avx_min T self other
    end
  else
    match sizeof T with
    | 1 => _mm256_min_epu8 self other
    | 2 => _mm256_min_epu16 self other
    | 4 => _mm256_min_epu32 self other
    | _ => avx_min T self other
    end.

Definition sadd (T : int_type) (self other : Z) : Z :=
  if is_signed T then
    match sizeof T with
    | 1 => _mm256_adds_epi8 self other
    | 2 => _mm256_adds_epi16 self other
    | _ => avx_sadd T self other
    end
  else
    match sizeof T with
    | 1 => _mm256_adds_epu8 self other
    | 2 => _mm256_adds_epu16 self other
    | _ => avx_sadd T self other
    end.

Definition ssub (T : int_type) (self other : Z) : Z :=
  if is_signed T then
    match sizeof T with
    | 1 => _mm256_subs_epi8 self other
    | 2 => _mm256_subs_epi16 self other
    | _ => avx_ssub T self other
    end
  else
    match sizeof T with
    | 1 => _mm256_subs_epu8 self other
    | 2 => _mm256_subs_epu16 self other
    | _ => avx_ssub T self other
    end.

End ParentTier.

(** [complex_low] and [complex_high] of a [batch<std::complex<double>>],
    given by its [real()] and [imag()] registers. *)
Definition complex_low (real imag : Z) : Z :=
  let tmp0 := _mm256_permute4x64_pd real (_MM_SHUFFLE 3 1 1 0) in
  let tmp1 := _mm256_permute4x64_pd imag (_MM_SHUFFLE 1 2 0 0) in
  _mm256_blend_pd tmp0 tmp1 10.

Definition complex_high (real imag : Z) : Z :=
  let tmp0 := _mm256_permute4x64_pd real (_MM_SHUFFLE 3 3 1 2) in
  let tmp1 := _mm256_permute4x64_pd imag (_MM_SHUFFLE 3 2 2 0) in
  _mm256_blend_pd tmp0 tmp1 10.

(** [load_complex] for [float] and for [double]: the pair
    [{ real, imag }]. *)
Definition load_complex_float (hi lo : Z) : Z * Z :=
  let real :=
    _mm256_castpd_ps
      (_mm256_permute4x64_pd
         (_mm256_castps_pd (_mm256_shuffle_ps hi lo (_MM_SHUFFLE 2 0 2 0)))
         (_MM_SHUFFLE 3 1 2 0)) in
  let imag :=
    _mm256_castpd_ps
      (_mm256_permute4x64_pd
         (_mm256_castps_pd (_mm256_shuffle_ps hi lo (_MM_SHUFFLE 3 1 3 1)))
         (_MM_SHUFFLE 3 1 2 0)) in
  (real, imag).

Definition load_complex_double (hi lo : Z) : Z * Z :=
  let real :=
    _mm256_permute4x64_pd (_mm256_unpacklo_pd hi lo) (_MM_SHUFFLE 3 1 2 0) in
  let imag :=
    _mm256_permute4x64_pd (_mm256_unpackhi_pd hi lo) (_MM_SHUFFLE 3 1 2 0) in
  (real, imag).

End Avx2.

(** Kernels of the generic tier that the operators of [batch] call. *)
Module Generic.

(** Modelled from the spec: [kernel::neq] is missing; the comparison
    derivatives are expressed through the primitives, [a != b] being
    [!(a == b)] lane-wise. *)
Definition neq (T : int_type) (self other : Z) : Z :=
  Avx2.bitwise_not (Avx2.eq T self other).

(** Modelled from the spec: [kernel::lt] is missing; [lt] is derived
    from [gt] with the operands exchanged. *)
Definition lt (T : int_type) (self other : Z) : Z :=
  Avx2.gt T other self.

End Generic.

(** ** xsimd_batch.hpp: [batch<T, A>] *)

(** The memory behind a pointer to the first cell of an array.  The
    kernels read [size] cells of an array of [size] cells, so the cells
    past the array are never looked at. *)
Definition pointer_to (buffer : list Z) : nat -> Z := fun i => nth i buffer 0.

Module Batch.

Definition size (T : int_type) : nat := batch_size T.

Definition store_aligned (T : int_type) (self : Z) : list Z :=
  Avx.store_aligned T self.

Definition load_aligned (T : int_type) (mem : nat -> Z) : Z :=
  Avx.load_aligned T mem.

(** [get(i)]: store to a buffer of [size] elements, read [buffer[i]];
    no element exists at an index from [size] on. *)
Definition get (T : int_type) (self : Z) (i : nat) : option Z :=
  let buffer := store_aligned T self in
  nth_error buffer i.

(** [operator*=] and the friend [operator*], [batch(self) *= other]. *)
Definition operator_mul_assign (T : int_type) (this other : Z) : Z :=
  Avx2.mul T this other.
Definition operator_mul (T : int_type) (self other : Z) : Z :=
  operator_mul_assign T self other.

(** [operator>>=(int32_t)] and the friend [operator>>]. *)
Definition operator_rshift_assign (T : int_type) (this other : Z) : Z :=
  Avx2.bitwise_rshift T this other.
Definition operator_rshift (T : int_type) (self other : Z) : Z :=
  operator_rshift_assign T self other.

Definition operator_eq (T : int_type) (self other : Z) : Z :=
  Avx2.eq T self other.
Definition operator_ne (T : int_type) (self other : Z) : Z :=
  Generic.neq T self other.
Definition operator_gt (T : int_type) (self other : Z) : Z :=
  Avx2.gt T self other.
Definition operator_lt (T : int_type) (self other : Z) : Z :=
  Generic.lt T self other.


(** *** Sums, differences and steps *)

Section ParentTier.

Variables avx_add avx_sub : int_type -> Z -> Z -> Z.

(** [operator+=], [operator-=] and the friends [operator+], [operator-]. *)
Definition operator_add_assign (T : int_type) (this other : Z) : Z :=
  Avx2.add avx_add T this other.
Definition operator_add (T : int_type) (self other : Z) : Z :=
  operator_add_assign T self other.
Definition operator_sub_assign (T : int_type) (this other : Z) : Z :=
  Avx2.sub avx_sub T this other.
Definition operator_sub (T : int_type) (self other : Z) : Z :=
  operator_sub_assign T self other.

(** [operator++()] and [operator--()]: [operator+=(1)], [operator-=(1)],
    the [1] converted by [batch(T val)]. *)
Definition operator_pre_inc (T : int_type) (this : Z) : Z :=
  operator_add_assign T this (batch_of_value T 1).
Definition operator_pre_dec (T : int_type) (this : Z) : Z :=
  operator_sub_assign T this (batch_of_value T 1).

(** [operator++(int)] and [operator--(int)]: the returned copy, then the
    new value of [*this]. *)
Definition operator_post_inc (T : int_type) (this : Z) : Z * Z :=
  let copy := this in
  let this := operator_add_assign T this (batch_of_value T 1) in
  (copy, this).
Definition operator_post_dec (T : int_type) (this : Z) : Z * Z :=
  let copy := this in
  let this := operator_sub_assign T this (batch_of_value T 1) in
  (copy, this).

End ParentTier.

(** [operator&=], [operator|=], [operator^=], [operator~]. *)
Definition operator_and (T : int_type) (self other : Z) : Z :=
  Avx2.bitwise_and self other.
Definition operator_or (T : int_type) (self other : Z) : Z :=
  Avx2.bitwise_or self other.
Definition operator_xor (T : int_type) (self other : Z) : Z :=
  Avx2.bitwise_xor self other.
Definition operator_not (T : int_type) (self : Z) : Z :=
  Avx2.bitwise_not self.

(** [operator!]: [kernel::eq] of this batch and [batch(0)]. *)
Definition operator_lnot (T : int_type) (self : Z) : Z :=
  Avx2.eq T self (batch_of_value T 0).

End Batch.

(** ** xsimd_batch.hpp: [batch_bool<T, A>]

    A [bool] array is an array of bytes; [mem[i] ? 1 : 0] reads any
    non-zero byte as true. *)

Module BatchBool.

Definition size (T : int_type) : nat := batch_size T.

Definition store_aligned (T : int_type) (self : Z) : list Z :=
  Avx.store T self.

Definition store_unaligned (T : int_type) (self : Z) : list Z :=
  store_aligned T self.

Definition load_aligned (T : int_type) (mem : nat -> Z) : Z :=
  let ref := batch_of_value T 0 in
  let buffer :=
    map (fun i => if mem i =? 0 then 0 else 1) (seq 0 (size T)) in
  Batch.operator_ne T ref (Batch.load_aligned T (pointer_to buffer)).

Definition load_unaligned (T : int_type) (mem : nat -> Z) : Z :=
  load_aligned T mem.

Definition get (T : int_type) (self : Z) (i : nat) : option bool :=
  let buffer := store_aligned T self in
  option_map (fun byte => negb (byte =? 0)) (nth_error buffer i).

(** The invariant of the type: every lane is all zeros or all ones. *)
Definition valid (T : int_type) (self : Z) : Prop :=
  forall i, (i < size T)%nat ->
    lane (bits T) i self = 0 \/ lane (bits T) i self = all_ones (bits T).


(** [make_register]: every step drops one index and repeats [u]; with
    no index left all the arguments go to [kernel::set]. *)
Fixpoint make_register (T : int_type) (Is : nat) (u : bool) (v : list bool) : Z :=
  match Is with
  | O => Avx.set_bool T (u :: v)
  | S Is' => make_register T Is' u (u :: v)
  end.

(** [batch_bool(bool val)], over [make_index_sequence<size - 1>]. *)
Definition of_bool (T : int_type) (val : bool) : Z :=
  make_register T (size T - 1) val [].

(** [operator~], [operator&], [operator|], [operator&&], [operator||]. *)
Definition operator_not (T : int_type) (self : Z) : Z :=
  Avx2.bitwise_not self.
Definition operator_and (T : int_type) (self other : Z) : Z :=
  Avx2.bitwise_and self other.
Definition operator_or (T : int_type) (self other : Z) : Z :=
  Avx2.bitwise_or self other.
Definition operator_land (T : int_type) (self other : Z) : Z :=
  operator_and T self other.
Definition operator_lor (T : int_type) (self other : Z) : Z :=
  operator_or T self other.

End BatchBool.

(** ** xsimd_gather_utils.hpp *)

Module GatherUtils.

Definition ramp_generator (index size : nat) : Z := Z.of_nat index.

(** [stride_offset<batch_type>], [stride] a [std::size_t]. *)
Module stride_offset.

Definition get (stride : Z) (i : nat) : Z := size_t_mul stride (Z.of_nat i).

(** [operator batch_type()]: [(batch_type)ramp * (value_type)stride];
    [None] when the ramp constant does not exist. *)
Definition to_batch (T : int_type) (stride : Z) : option (outcome Z) :=
  match BatchConstant.make_batch_constant T ramp_generator with
  | Some ramp =>
      Some (ramp_batch <- batch_of_constant T ramp ;;
            Done (Batch.operator_mul T ramp_batch
                    (batch_of_value T (static_cast T stride))))
  | None => None
  end.

End stride_offset.

(** [first_n_true<batch_type>], [n] a [std::size_t]. *)
Module first_n_true.

(** Modelled from the spec: [as_integer_t] (xsimd_utils.hpp) is
    missing; the helpers build signed-safe index batches, and the code's
    own comment has the comparison done "using signed integers": the
    signed integer type of the width of [T]. *)
Definition as_integer (T : int_type) : int_type := make_signed T.

(** [operator batch_bool_type()]; [None] when the ramp constant does
    not exist. *)
Definition to_batch_bool (T : int_type) (n : Z) : option (outcome Z) :=
  let int_batch := as_integer T in
  match BatchConstant.make_batch_constant int_batch ramp_generator with
  | Some ramp =>
      Some (ramp_batch <- batch_of_constant int_batch ramp ;;
            Done (Batch.operator_lt int_batch ramp_batch
                    (batch_of_value int_batch n)))
  | None => None
  end.

Definition get (n : Z) (i : nat) : bool := Z.of_nat i <? n.

End first_n_true.

(** [detail::allow_signed_conversion<batch_type>], holding [b]. *)
Module allow_signed_conversion.

(** [operator signed_batch()]. *)
Definition to_signed_batch (T : int_type) (b : Z) : Z := Avx.bitwise_cast b.

(** [get(i)]: [static_cast<unsigned_t>(b.get(i))]. *)
Definition get (T : int_type) (b : Z) (i : nat) : option Z :=
  option_map (static_cast (make_unsigned T)) (Batch.get T b i).

End allow_signed_conversion.

End GatherUtils.

(** ** xsimd_batch.hpp: [batch<std::complex<T>, A>]

    The real kernels for floating-point batches live in other headers;
    the complex batch is read over any scalar arithmetic, applied lane by
    lane. *)

Module ComplexBatch.
Section Over.

Variable R : Type.
Variables add sub mul : R -> R -> R.

(** Modelled from the spec: the floating-point [add], [sub] and
    [mul] kernels are missing; they are lane-wise. *)
Definition lanewise (op : R -> R -> R) (x y : list R) : list R :=
  map (fun p => op (fst p) (snd p)) (combine x y).

Record batch : Type := { m_real : list R; m_imag : list R }.

Definition real (self : batch) : list R := m_real self.
Definition imag (self : batch) : list R := m_imag self.

(** [operator*=]: both parts are computed before either member is
    assigned. *)
Definition operator_mul_assign (this other : batch) : batch :=
  let new_real :=
    lanewise sub (lanewise mul (real this) (real other))
                 (lanewise mul (imag this) (imag other)) in
  let new_imag :=
    lanewise add (lanewise mul (real this) (imag other))
                 (lanewise mul (imag this) (real other)) in
  let this := {| m_real := new_real; m_imag := m_imag this |} in
  let this := {| m_real := m_real this; m_imag := new_imag |} in
  this.

(** The friend [operator*]: [batch(self) *= other]. *)
Definition operator_mul (self other : batch) : batch :=
  operator_mul_assign self other.

End Over.
End ComplexBatch.

(** ** Vocabulary of the statements *)

(** The sum over the lanes of [v_i ? 2^i : 0]. *)
Definition packed_sum (Values : list bool) : Z :=
  fold_right Z.add 0
    (map (fun i => if nth i Values false then 2 ^ Z.of_nat i else 0)
         (seq 0 (List.length Values))).

(** The same sum, lowest lane outermost. *)
Fixpoint horner (Values : list bool) : Z :=
  match Values with
  | [] => 0
  | v :: t => 2 * horner t + Z.b2z v
  end.

(** Bit [n] of the union of a pack whose entry [j] still has to be
    shifted left [j] times. *)
Fixpoint bit_at (l : list Z) (n : Z) : bool :=
  match l with
  | [] => false
  | m :: ms => Z.testbit m n || bit_at ms (n - 1)
  end.

(** The numbers a type [T] can hold. *)
Definition representable (T : int_type) (x : Z) : Prop :=
  if is_signed T then - 2 ^ (bits T - 1) <= x < 2 ^ (bits T - 1)
  else 0 <= x < 2 ^ bits T.

(** What [detail::interleave] has to do with the mask of four 8-byte
    lanes: repeat every bit, so that a lane selects both of its dwords. *)
Definition doubles_bits (interleave : Z -> Z) : Prop :=
  forall m i, 0 <= m < 16 -> 0 <= i < 4 ->
    Z.testbit (interleave m) (2 * i) = Z.testbit m i
    /\ Z.testbit (interleave m) (2 * i + 1) = Z.testbit m i.

(** One function that repeats the four low bits. *)
Definition repeat_bits (m : Z) : Z :=
  fold_right Z.lor 0
    (map (fun i => if Z.testbit m i then Z.shiftl 3 (2 * i) else 0) [0; 1; 2; 3]).

(** The integers from [0] up to [n - 1]. *)
Definition below (n : nat) : list Z := map Z.of_nat (seq 0 n).

Definition iota8 : list Z := [0; 1; 2; 3; 4; 5; 6; 7].


(** The number that lane [i] of a register holds at type [T]. *)
Definition lane_value (T : int_type) (r : Z) (i : nat) : Z :=
  static_cast T (lane (bits T) i r).

(** Lane [i] of a boolean batch holds [b]: all ones for [true], all
    zeros for [false]. *)
Definition bool_lane (T : int_type) (r : Z) (i : nat) (b : bool) : Prop :=
  lane (bits T) i r = if b then all_ones (bits T) else 0.

(** The sum of the lanes of a batch, as numbers of type [T]. *)
Definition lanes_sum (T : int_type) (self : Z) : Z :=
  fold_right Z.add 0 (map (lane_value T self) (seq 0 (batch_size T))).

(** The smallest and the largest number of type [T], and the nearest
    number of type [T]. *)
Definition min_value (T : int_type) : Z :=
  if is_signed T then - 2 ^ (bits T - 1) else 0.
Definition max_value (T : int_type) : Z :=
  if is_signed T then 2 ^ (bits T - 1) - 1 else 2 ^ bits T - 1.
Definition clamp (T : int_type) (x : Z) : Z :=
  Z.max (min_value T) (Z.min (max_value T) x).

(** The first entry of a list of scales that divides [s]. *)
Fixpoint first_divisor (s : Z) (scales : list Z) : option Z :=
  match scales with
  | [] => None
  | d :: t => if s mod d =? 0 then Some d else first_divisor s t
  end.

(** Element [k] of the complex numbers held interleaved in [hi] then
    [lo], lanes of [w] bits, [n] lanes to a register. *)
Definition interleaved (w : Z) (n : nat) (hi lo : Z) (k : nat) : Z :=
  if (k <? n)%nat then lane w k hi else lane w (k - n) lo.

(** * Proofs *)

(** ** Fixed-width integers *)

Lemma pow2_pos w : 0 <= w -> 0 < 2 ^ w.
Proof. intros. apply Z.pow_pos_nonneg; lia. Qed.

Lemma wrap_range w x : 0 <= w -> 0 <= wrap w x < 2 ^ w.
Proof. intros. unfold wrap. apply Z.mod_pos_bound. now apply pow2_pos. Qed.

Lemma wrap_small w x : 0 <= x < 2 ^ w -> wrap w x = x.
Proof. intros. unfold wrap. now apply Z.mod_small. Qed.

Lemma wrap_wrap w x : 0 <= w -> wrap w (wrap w x) = wrap w x.
Proof. intros. apply wrap_small. now apply wrap_range. Qed.

Lemma testbit_wrap w x n :
  0 <= w -> Z.testbit (wrap w x) n = (n <? w) && Z.testbit x n.
Proof.
  intros Hw. unfold wrap. destruct (Z.ltb_spec n w).
  - now rewrite Z.mod_pow2_bits_low.
  - now rewrite Z.mod_pow2_bits_high by lia.
Qed.

Lemma sint_cases w x :
  0 < w ->
  (sint w x = wrap w x /\ 0 <= wrap w x < 2 ^ (w - 1)) \/
  (sint w x = wrap w x - 2 ^ w /\ 2 ^ (w - 1) <= wrap w x < 2 ^ w).
Proof.
  intros Hw. unfold sint. pose proof (wrap_range w x ltac:(lia)).
  destruct (Z.ltb_spec (wrap w x) (2 ^ (w - 1))); [left | right]; lia.
Qed.

Lemma pow2_double w : 0 < w -> 2 ^ w = 2 * 2 ^ (w - 1).
Proof.
  intros. replace w with (Z.succ (w - 1)) at 1 by lia.
  rewrite Z.pow_succ_r by lia. reflexivity.
Qed.

Lemma sint_range w x : 0 < w -> - 2 ^ (w - 1) <= sint w x < 2 ^ (w - 1).
Proof.
  intros Hw. pose proof (pow2_double w Hw). pose proof (pow2_pos (w - 1) ltac:(lia)).
  destruct (sint_cases w x Hw) as [[-> ?] | [-> ?]]; lia.
Qed.

Lemma wrap_sint w x : 0 < w -> wrap w (sint w x) = wrap w x.
Proof.
  intros Hw. destruct (sint_cases w x Hw) as [[-> ?] | [-> ?]].
  - apply wrap_wrap; lia.
  - unfold wrap. replace (x mod 2 ^ w - 2 ^ w) with (x mod 2 ^ w + (-1) * 2 ^ w) by lia.
    rewrite Z.mod_add by (pose proof (pow2_pos w); lia).
    apply Z.mod_mod. pose proof (pow2_pos w); lia.
Qed.

Lemma sint_small w x : 0 < w -> - 2 ^ (w - 1) <= x < 2 ^ (w - 1) -> sint w x = x.
Proof.
  intros Hw Hx. pose proof (pow2_double w Hw).
  unfold sint, wrap. destruct (Z.ltb_spec 0 (x + 1)).
  - rewrite Z.mod_small by lia. destruct (Z.ltb_spec x (2 ^ (w - 1))); lia.
  - replace (x mod 2 ^ w) with (x + 2 ^ w).
    + destruct (Z.ltb_spec (x + 2 ^ w) (2 ^ (w - 1))); lia.
    + symmetry. rewrite <- (Z.mod_add x 1 (2 ^ w)) by lia.
      rewrite Z.mul_1_l. apply Z.mod_small. lia.
Qed.

(** The sign bit decides the half of the range. *)
Lemma testbit_top w u :
  0 < w -> 0 <= u < 2 ^ w -> Z.testbit u (w - 1) = (2 ^ (w - 1) <=? u).
Proof.
  intros Hw Hu. pose proof (pow2_double w Hw). pose proof (pow2_pos (w - 1) ltac:(lia)).
  destruct (Z.leb_spec (2 ^ (w - 1)) u).
  - apply Z.testbit_true; [lia|].
    assert (u / 2 ^ (w - 1) = 1) as ->; [|reflexivity].
    symmetry. apply Z.div_unique with (r := u - 2 ^ (w - 1)); lia.
  - apply Z.testbit_false; [lia|].
    rewrite Z.div_small by lia. reflexivity.
Qed.

Lemma testbit_sint w x n :
  0 < w -> 0 <= n ->
  Z.testbit (sint w x) n = Z.testbit x (Z.min n (w - 1)).
Proof.
  intros Hw Hn. pose proof (pow2_double w Hw). pose proof (pow2_pos (w - 1) ltac:(lia)).
  assert (Htop : Z.testbit x (w - 1) = (2 ^ (w - 1) <=? wrap w x)).
  { rewrite <- testbit_top by (auto using wrap_range with zarith).
    rewrite testbit_wrap by lia.
    destruct (Z.ltb_spec (w - 1) w); [reflexivity | lia]. }
  destruct (Z.ltb_spec n w) as [Hlt | Hge].
  - rewrite Z.min_l by lia.
    transitivity (Z.testbit (wrap w (sint w x)) n).
    + rewrite testbit_wrap by lia. destruct (Z.ltb_spec n w); [reflexivity | lia].
    + rewrite wrap_sint, testbit_wrap by lia. destruct (Z.ltb_spec n w); [reflexivity | lia].
  - rewrite Z.min_r by lia. rewrite Htop.
    destruct (sint_cases w x Hw) as [[-> ?] | [-> ?]].
    + destruct (Z.leb_spec (2 ^ (w - 1)) (wrap w x)); [lia|].
      destruct (Z.eq_dec (wrap w x) 0) as [-> | ?]; [apply Z.testbit_0_l|].
      apply Z.bits_above_log2; [lia|].
      apply Z.log2_lt_pow2; [lia|]. 
      apply Z.lt_le_trans with (2 ^ (w - 1)); [lia|]. apply Z.pow_le_mono_r; lia.
    + destruct (Z.leb_spec (2 ^ (w - 1)) (wrap w x)); [|lia].
      apply Z.bits_above_log2_neg; [lia|].
      destruct (Z.eq_dec (Z.pred (- (wrap w x - 2 ^ w))) 0) as [-> | ?]; [simpl; lia|].
      apply Z.log2_lt_pow2; [lia|].
      apply Z.lt_le_trans with (2 ^ (w - 1)); [lia|]. apply Z.pow_le_mono_r; lia.
Qed.

(** ** Lanes *)

Lemma lane_range w i r : 0 <= w -> 0 <= lane w i r < 2 ^ w.
Proof. intros. unfold lane. apply Z.mod_pos_bound. now apply pow2_pos. Qed.

Lemma testbit_lane w i r n :
  0 < w -> 0 <= n ->
  Z.testbit (lane w i r) n = (n <? w) && Z.testbit r (w * Z.of_nat i + n).
Proof.
  intros Hw Hn. unfold lane. fold (wrap w (r / 2 ^ (w * Z.of_nat i))).
  rewrite testbit_wrap by lia.
  rewrite Z.div_pow2_bits by lia.
  now rewrite (Z.add_comm n).
Qed.

Lemma lane_ext w i r r' :
  0 < w ->
  (forall n, 0 <= n < w ->
     Z.testbit r (w * Z.of_nat i + n) = Z.testbit r' (w * Z.of_nat i + n)) ->
  lane w i r = lane w i r'.
Proof.
  intros Hw H. apply Z.bits_inj'. intros n Hn.
  rewrite !testbit_lane by lia.
  destruct (Z.ltb_spec n w); [|reflexivity]. simpl. apply H. lia.
Qed.

Lemma of_lanes_range w l :
  0 < w -> 0 <= of_lanes w l < 2 ^ (w * Z.of_nat (List.length l)).
Proof.
  intros Hw. induction l as [|x t IH]; simpl List.length.
  - simpl. rewrite Z.mul_0_r. simpl. lia.
  - cbn [of_lanes]. pose proof (wrap_range w x ltac:(lia)).
    replace (w * Z.of_nat (S (List.length t))) with (w + w * Z.of_nat (List.length t)) by lia.
    rewrite Z.pow_add_r by lia. pose proof (pow2_pos w ltac:(lia)). nia.
Qed.

Lemma lane_of_lanes w l i :
  0 < w -> lane w i (of_lanes w l) = wrap w (nth i l 0).
Proof.
  intros Hw. pose proof (pow2_pos w ltac:(lia)) as Hp.
  revert i. induction l as [|x t IH]; intros i.
  - destruct i; simpl; unfold lane, wrap; rewrite Z.div_0_l, Z.mod_0_l by
      (try apply Z.pow_nonzero; lia); reflexivity.
  - cbn [of_lanes]. destruct i as [|i].
    + unfold lane. simpl Z.of_nat. rewrite Z.mul_0_r, Z.pow_0_r, Z.div_1_r.
      cbn [nth]. rewrite Z.mul_comm, Z.mod_add by lia.
      apply wrap_wrap. lia.
    + cbn [nth]. rewrite <- IH. unfold lane.
      replace (w * Z.of_nat (S i)) with (w + w * Z.of_nat i) by lia.
      rewrite Z.pow_add_r, <- Z.div_div by (try apply Z.pow_pos_nonneg; lia).
      f_equal. f_equal.
      rewrite Z.add_comm, Z.mul_comm, Z.div_add_l by lia.
      rewrite Z.div_small by (apply wrap_range; lia). lia.
Qed.

Lemma lane_build w f i :
  0 < w -> (i < nlanes w)%nat -> lane w i (build w f) = wrap w (f i).
Proof.
  intros Hw Hi. unfold build. rewrite lane_of_lanes by lia.
  f_equal. rewrite nth_indep with (d' := f 0%nat) by now rewrite length_map, length_seq.
  rewrite map_nth, seq_nth by lia. reflexivity.
Qed.

(** A lane of twice the width is the pair of the two lanes it covers. *)
Lemma lane_pair w j r :
  0 < w ->
  lane (2 * w) j r = lane w (2 * j) r + 2 ^ w * lane w (2 * j + 1) r.
Proof.
  intros Hw. unfold lane. pose proof (pow2_pos w ltac:(lia)).
  replace (w * Z.of_nat (2 * j + 1)) with (2 * w * Z.of_nat j + w) by lia.
  replace (w * Z.of_nat (2 * j)) with (2 * w * Z.of_nat j) by lia.
  set (q := r / 2 ^ (2 * w * Z.of_nat j)).
  rewrite Z.pow_add_r, <- Z.div_div by (try apply Z.pow_pos_nonneg; lia).
  fold q. replace (2 * w) with (w + w) by lia.
  rewrite Z.pow_add_r by lia.
  apply Z.rem_mul_r; lia.
Qed.

(** ** The packed mask of a boolean constant *)

Import BatchConstant.



Lemma packed_sum_horner Values : packed_sum Values = horner Values.
Proof.
  unfold packed_sum. induction Values as [|v t IH]; [reflexivity|].
  cbn [List.length seq map fold_right horner nth].
  rewrite <- seq_shift, map_map.
  rewrite <- IH. clear IH.
  generalize (seq 0 (List.length t)) as l. intros l.
  assert (fold_right Z.add 0
            (map (fun i => if nth i t false then 2 ^ Z.of_nat (S i) else 0) l)
          = 2 * fold_right Z.add 0
            (map (fun i => if nth i t false then 2 ^ Z.of_nat i else 0) l)) as ->.
  { induction l as [|i l IHl]; [reflexivity|].
    cbn [map fold_right]. rewrite IHl.
    rewrite Nat2Z.inj_succ, Z.pow_succ_r by lia.
    destruct (nth i t false); lia. }
  change (Z.of_nat 0) with 0. rewrite Z.pow_0_r.
  destruct v; cbn [Z.b2z]; lia.
Qed.

Lemma horner_range Values : 0 <= horner Values < 2 ^ Z.of_nat (List.length Values).
Proof.
  induction Values as [|v t IH]; [simpl; lia|].
  cbn [horner List.length]. rewrite Nat2Z.inj_succ, Z.pow_succ_r by lia.
  destruct v; simpl Z.b2z; lia.
Qed.

Lemma testbit_horner Values n :
  0 <= n -> Z.testbit (horner Values) n = nth (Z.to_nat n) Values false.
Proof.
  revert n. induction Values as [|v t IH]; intros n Hn.
  - simpl. rewrite Z.testbit_0_l. now destruct (Z.to_nat n).
  - cbn [horner]. destruct (Z.eq_dec n 0) as [-> | Hnz].
    + now rewrite Z.testbit_0_r.
    + replace n with (Z.succ (n - 1)) at 1 by lia.
      rewrite Z.testbit_succ_r by lia. rewrite IH by lia.
      replace (Z.to_nat n) with (S (Z.to_nat (n - 1))) by lia. reflexivity.
Qed.


Lemma testbit_int_shl1 x n :
  n < 32 -> Z.testbit (int_shl1 x) n = Z.testbit x (n - 1).
Proof.
  intros Hn. unfold int_shl1. destruct (Z.ltb_spec n 0).
  - now rewrite !Z.testbit_neg_r by lia.
  - rewrite testbit_sint by lia. rewrite Z.min_l by lia.
    now rewrite Z.shiftl_spec by lia.
Qed.

Lemma bit_at_shl1 l n : n < 32 -> bit_at (map int_shl1 l) n = bit_at l (n - 1).
Proof.
  revert n. induction l as [|m ms IH]; intros n Hn; [reflexivity|].
  cbn [map bit_at]. rewrite testbit_int_shl1 by lia. now rewrite IH by lia.
Qed.

Lemma mask_helper_bits l : forall acc n,
  0 <= n < 32 ->
  Z.testbit (mask_helper acc l) n = Z.testbit acc n || bit_at l n.
Proof.
  remember (List.length l) as k eqn:Hk. revert l Hk.
  induction k as [|k IH]; intros l Hk acc n Hn.
  - destruct l; [|discriminate]. simp mask_helper. simpl. now rewrite orb_false_r.
  - destruct l as [|m ms]; [discriminate|]. simp mask_helper.
    rewrite IH by (try rewrite length_map; simpl in Hk; lia).
    rewrite Z.lor_spec, bit_at_shl1 by lia. cbn [bit_at].
    now rewrite orb_assoc.
Qed.

Lemma bit_at_bools Values n :
  0 <= n -> bit_at (map int_of_bool Values) n = nth (Z.to_nat n) Values false.
Proof.
  revert n. induction Values as [|v t IH]; intros n Hn.
  - simpl. now destruct (Z.to_nat n).
  - cbn [map bit_at]. destruct (Z.eq_dec n 0) as [-> | Hnz].
    + simpl Z.to_nat. cbn [nth]. 
      assert (bit_at (map int_of_bool t) (0 - 1) = false) as ->.
      { clear. generalize (0 - 1) (eq_refl : (0 - 1 <? 0) = true).
        induction t as [|v t IH]; intros z Hz; [reflexivity|].
        cbn [map bit_at]. apply Z.ltb_lt in Hz.
        rewrite Z.testbit_neg_r by lia. apply IH. apply Z.ltb_lt. lia. }
      destruct v; reflexivity.
    + rewrite IH by lia.
      replace (Z.to_nat n) with (S (Z.to_nat (n - 1))) by lia. cbn [nth].
      assert (Z.testbit (int_of_bool v) n = false) as ->; [|reflexivity].
      destruct v; simpl; [|apply Z.testbit_0_l].
      apply Z.bits_above_log2; simpl; lia.
Qed.

Lemma testbit_mask Values n :
  0 <= n < 32 ->
  Z.testbit (batch_bool_constant.mask Values) n = nth (Z.to_nat n) Values false.
Proof.
  intros Hn. unfold batch_bool_constant.mask.
  rewrite mask_helper_bits by lia. rewrite Z.testbit_0_l. simpl.
  apply bit_at_bools. lia.
Qed.

(** Values of type [int] are fixed points of the signed reading. *)
Lemma sint_lor w a b : 0 < w -> sint w (Z.lor a b) = Z.lor (sint w a) (sint w b).
Proof.
  intros Hw. apply Z.bits_inj'. intros n Hn.
  now rewrite Z.lor_spec, !testbit_sint, Z.lor_spec by lia.
Qed.

Lemma sint_idem w x : 0 < w -> sint w (sint w x) = sint w x.
Proof. intros. apply sint_small; [lia|]. now apply sint_range. Qed.

Lemma mask_helper_int l : forall acc,
  sint 32 acc = acc -> Forall (fun m => sint 32 m = m) l ->
  sint 32 (mask_helper acc l) = mask_helper acc l.
Proof.
  remember (List.length l) as k eqn:Hk. revert l Hk.
  induction k as [|k IH]; intros l Hk acc Hacc Hl.
  - destruct l; [|discriminate]. now simp mask_helper.
  - destruct l as [|m ms]; [discriminate|]. simp mask_helper.
    inversion Hl; subst. apply IH.
    + rewrite length_map. simpl in Hk. lia.
    + rewrite sint_lor by lia. congruence.
    + apply Forall_forall. intros y Hy. apply in_map_iff in Hy as [x [<- _]].
      unfold int_shl1. apply sint_idem. lia.
Qed.

Lemma sint_ext w x y :
  0 < w -> (forall n, 0 <= n < w -> Z.testbit x n = Z.testbit y n) ->
  sint w x = sint w y.
Proof.
  intros Hw H. apply Z.bits_inj'. intros n Hn.
  rewrite !testbit_sint by lia. apply H. lia.
Qed.

Lemma mask_is_int_of_sum Values :
  batch_bool_constant.mask Values = sint 32 (packed_sum Values).
Proof.
  rewrite packed_sum_horner.
  assert (Hint : sint 32 (batch_bool_constant.mask Values) = batch_bool_constant.mask Values).
  { apply mask_helper_int; [reflexivity|].
    apply Forall_forall. intros y Hy. apply in_map_iff in Hy as [[] [<- _]]; reflexivity. }
  rewrite <- Hint. apply sint_ext; [lia|]. intros n Hn.
  now rewrite testbit_mask, testbit_horner by lia.
Qed.

Lemma get_at_index_nth {T} (d : T) i head tail :
  (i < S (List.length tail))%nat -> get_at_index i head tail = nth i (head :: tail) d.
Proof.
  revert i head. induction tail as [|t ts IH]; intros i head Hi.
  - simpl in Hi. replace i with 0%nat by lia. reflexivity.
  - destruct i; [reflexivity|]. cbn [get_at_index]. rewrite IH by (simpl in Hi; lia).
    reflexivity.
Qed.

(** C1 (as amended).  For every [batch_bool_constant] over the lanes
    [Values], [mask()] is the 32-bit [int] congruent modulo [2^32] to the
    sum over the lanes of [v_i ? 2^i : 0]; it is that sum when there are
    at most 31 lanes; and with at most 32 lanes, bit [i] of [mask()] is
    [get(i)] for every lane index [i]. *)
Theorem mask_packs_lanes (Values : list bool) :
  batch_bool_constant.mask Values = sint 32 (packed_sum Values)
  /\ ((List.length Values <= 31)%nat ->
      batch_bool_constant.mask Values = packed_sum Values)
  /\ ((List.length Values <= 32)%nat ->
      forall i, (i < List.length Values)%nat ->
        batch_bool_constant.get Values i
        = Some (Z.testbit (batch_bool_constant.mask Values) (Z.of_nat i))).
Proof.
  split; [apply mask_is_int_of_sum|]. split.
  - intros Hlen. rewrite mask_is_int_of_sum. apply sint_small; [lia|].
    rewrite packed_sum_horner. pose proof (horner_range Values) as Hr.
    assert (2 ^ Z.of_nat (List.length Values) <= 2 ^ 31)
      by (apply Z.pow_le_mono_r; lia).
    simpl (32 - 1). lia.
  - intros Hlen i Hi. rewrite testbit_mask by lia. rewrite Nat2Z.id.
    destruct Values as [|head tail]; [simpl in Hi; lia|].
    unfold batch_bool_constant.get. f_equal.
    apply get_at_index_nth. simpl in Hi. lia.
Qed.

Lemma mask_packs_lanes_witness :
  batch_bool_constant.mask [true; false; true; true]
  = packed_sum [true; false; true; true]
  /\ batch_bool_constant.get [true; false; true; true] 2
     = Some (Z.testbit (batch_bool_constant.mask [true; false; true; true]) 2).
Proof.
  destruct (mask_packs_lanes [true; false; true; true]) as (_ & H31 & H32).
  split.
  - apply H31. simpl. lia.
  - apply (H32 ltac:(simpl; lia) 2%nat). simpl. lia.
Defined.

(** With 32 lanes, all true, [mask()] is the [int] [-1], not the sum
    [2^32 - 1]. *)
Lemma mask_overflows_int :
  batch_bool_constant.mask (repeat true 32) <> packed_sum (repeat true 32).
Proof. vm_compute. discriminate. Qed.


(** ** Lanes of the instruction results *)

Lemma nlanes_8 : nlanes 8 = 32%nat. Proof. reflexivity. Qed.
Lemma nlanes_16 : nlanes 16 = 16%nat. Proof. reflexivity. Qed.
Lemma nlanes_32 : nlanes 32 = 8%nat. Proof. reflexivity. Qed.
Lemma nlanes_64 : nlanes 64 = 4%nat. Proof. reflexivity. Qed.

Lemma wrap_lane w i r : 0 <= w -> wrap w (lane w i r) = lane w i r.
Proof. intros. apply wrap_small. now apply lane_range. Qed.

Lemma wrap_congr w x y k : 0 <= w -> x = y + k * 2 ^ w -> wrap w x = wrap w y.
Proof.
  intros Hw ->. unfold wrap. apply Z.mod_add. pose proof (pow2_pos w Hw). lia.
Qed.

Lemma wrap_mul w x y : 0 <= w -> wrap w (wrap w x * wrap w y) = wrap w (x * y).
Proof.
  intros. unfold wrap. symmetry. apply Z.mul_mod. pose proof (pow2_pos w); lia.
Qed.

Lemma lane_mullo w a b i :
  0 < w -> (i < nlanes w)%nat ->
  lane w i (mullo w a b) = wrap w (lane w i a * lane w i b).
Proof. intros. unfold mullo. now rewrite lane_build. Qed.

Lemma lane_shuffle_epi32 a imm8 i :
  (i < 8)%nat ->
  lane 32 i (_mm256_shuffle_epi32 a imm8) =
  lane 32 (4 * (i / 4)
           + Z.to_nat (Z.land (Z.shiftr imm8 (2 * Z.of_nat (i mod 4))) 3)) a.
Proof.
  intros. unfold _mm256_shuffle_epi32. rewrite lane_build by (rewrite ?nlanes_32; lia).
  apply wrap_lane. lia.
Qed.

Lemma lane_hadd_epi32 a b i :
  (i < 8)%nat ->
  lane 32 i (_mm256_hadd_epi32 a b) =
  wrap 32 (let half := (4 * (i / 4))%nat in
           match (i mod 4)%nat with
           | 0%nat => lane 32 (half + 1) a + lane 32 half a
           | 1%nat => lane 32 (half + 3) a + lane 32 (half + 2) a
           | 2%nat => lane 32 (half + 1) b + lane 32 half b
           | _ => lane 32 (half + 3) b + lane 32 (half + 2) b
           end).
Proof.
  intros. unfold _mm256_hadd_epi32. now rewrite lane_build by (rewrite ?nlanes_32; lia).
Qed.

Lemma lane_zero w i : lane w i 0 = 0.
Proof. unfold lane. now rewrite Zdiv_0_l, Zmod_0_l. Qed.

(** ** The 64-bit product built from 32-bit pieces *)

Lemma lane_bswap other j :
  (j < 4)%nat ->
  lane 32 (2 * j) (_mm256_shuffle_epi32 other 0xB1) = lane 32 (2 * j + 1) other
  /\ lane 32 (2 * j + 1) (_mm256_shuffle_epi32 other 0xB1) = lane 32 (2 * j) other.
Proof.
  intros Hj.
  do 4 (destruct j as [|j]; [split; rewrite lane_shuffle_epi32 by lia; reflexivity|]).
  lia.
Qed.

Lemma lane_prodlh3 p j :
  (j < 4)%nat ->
  let prodlh2 := _mm256_hadd_epi32 p _mm256_setzero_si256 in
  let prodlh3 := _mm256_shuffle_epi32 prodlh2 0x73 in
  lane 32 (2 * j) prodlh3 = 0
  /\ lane 32 (2 * j + 1) prodlh3 = wrap 32 (lane 32 (2 * j + 1) p + lane 32 (2 * j) p).
Proof.
  intros Hj. cbv zeta. unfold _mm256_setzero_si256.
  do 4 (destruct j as [|j];
        [split; rewrite lane_shuffle_epi32 by lia;
         (match goal with
          | |- lane 32 ?k _ = _ =>
              let k' := eval vm_compute in k in change k with k'
          end);
         rewrite lane_hadd_epi32 by lia; cbn [Nat.div Nat.modulo];
         rewrite ?lane_zero; reflexivity|]).
  lia.
Qed.

Lemma mul64_arith aL aH bL bH :
  wrap 64 (wrap 64 (aL * bL)
           + (0 + 2 ^ 32 * wrap 32 (wrap 32 (aH * bL) + wrap 32 (aL * bH))))
  = wrap 64 ((aL + 2 ^ 32 * aH) * (bL + 2 ^ 32 * bH)).
Proof.
  unfold wrap at 2 3 4 5. rewrite !Z.mod_eq by (apply Z.pow_nonzero; lia).
  generalize ((aH * bL - 2 ^ 32 * (aH * bL / 2 ^ 32) +
                (aL * bH - 2 ^ 32 * (aL * bH / 2 ^ 32))) / 2 ^ 32) as q3.
  generalize (aH * bL / 2 ^ 32) as q1. generalize (aL * bH / 2 ^ 32) as q2.
  generalize (aL * bL / 2 ^ 64) as q0. intros q0 q2 q1 q3.
  apply wrap_congr with (k := - (q0 + q1 + q2 + q3 + aH * bH)); [lia|].
  change (2 ^ 64) with (2 ^ 32 * 2 ^ 32). ring.
Qed.

Lemma lane_mul64 self other j :
  (j < 4)%nat ->
  let bswap := _mm256_shuffle_epi32 other 0xB1 in
  let prodlh := _mm256_mullo_epi32 self bswap in
  let zero := _mm256_setzero_si256 in
  let prodlh2 := _mm256_hadd_epi32 prodlh zero in
  let prodlh3 := _mm256_shuffle_epi32 prodlh2 0x73 in
  let prodll := _mm256_mul_epu32 self other in
  lane 64 j (_mm256_add_epi64 prodll prodlh3)
  = wrap 64 (lane 64 j self * lane 64 j other).
Proof.
  intros Hj. cbv zeta. unfold _mm256_add_epi64.
  rewrite lane_build by (rewrite ?nlanes_64; lia).
  change 64 with (2 * 32) at 3. rewrite lane_pair by lia.
  destruct (lane_prodlh3
              (_mm256_mullo_epi32 self (_mm256_shuffle_epi32 other 0xB1)) j Hj)
    as [-> ->].
  unfold _mm256_mullo_epi32.
  rewrite !lane_mullo by (rewrite ?nlanes_32; lia).
  destruct (lane_bswap other j Hj) as [-> ->].
  unfold _mm256_mul_epu32. rewrite lane_build by (rewrite ?nlanes_64; lia).
  change (lane 64 j) with (lane (2 * 32) j). rewrite !(lane_pair 32) by lia.
  apply mul64_arith.
Qed.

(** ** Batches *)

Lemma bits_pos T : 0 < bits T.
Proof. destruct T; reflexivity. Qed.

Lemma size_nlanes T : batch_size T = nlanes (bits T).
Proof. now destruct T. Qed.

Lemma size_lt T i : (i < batch_size T)%nat -> (i < nlanes (bits T))%nat.
Proof. now rewrite size_nlanes. Qed.

Lemma static_cast_wrap T x : static_cast T (wrap (bits T) x) = static_cast T x.
Proof.
  pose proof (bits_pos T). unfold static_cast, sint.
  rewrite wrap_wrap by lia. reflexivity.
Qed.

Lemma wrap_static_cast T x : wrap (bits T) (static_cast T x) = wrap (bits T) x.
Proof.
  pose proof (bits_pos T). unfold static_cast. destruct (is_signed T).
  - apply wrap_sint. lia.
  - apply wrap_wrap. lia.
Qed.

Lemma static_cast_congr T x y :
  wrap (bits T) x = wrap (bits T) y -> static_cast T x = static_cast T y.
Proof. intros H. rewrite <- (static_cast_wrap T x), H. apply static_cast_wrap. Qed.

Lemma static_cast_mul T x y :
  static_cast T (static_cast T x * static_cast T y) = static_cast T (x * y).
Proof.
  pose proof (bits_pos T). apply static_cast_congr.
  rewrite <- wrap_mul, !wrap_static_cast by lia. apply wrap_mul. lia.
Qed.

Lemma get_lane T self i :
  (i < Batch.size T)%nat ->
  Batch.get T self i = Some (static_cast T (lane (bits T) i self)).
Proof.
  intros Hi. unfold Batch.get, Batch.store_aligned, Avx.store_aligned.
  rewrite nth_error_map, nth_error_seq.
  unfold Batch.size in Hi. destruct (Nat.ltb_spec i (batch_size T)); [reflexivity | lia].
Qed.

Lemma get_past_end T self i :
  (Batch.size T <= i)%nat -> Batch.get T self i = None.
Proof.
  intros Hi. unfold Batch.get, Batch.store_aligned, Avx.store_aligned.
  apply nth_error_None. now rewrite length_map, length_seq.
Qed.

Lemma lane_batch_of_value T val i :
  (i < Batch.size T)%nat ->
  lane (bits T) i (batch_of_value T val) = wrap (bits T) val.
Proof.
  intros Hi. pose proof (bits_pos T). apply size_lt in Hi.
  unfold batch_of_value, Avx.broadcast, set1. now rewrite lane_build.
Qed.

Lemma lane_set T values i :
  (i < Batch.size T)%nat ->
  lane (bits T) i (Avx.set T values) = wrap (bits T) (nth i values 0).
Proof.
  intros Hi. pose proof (bits_pos T). apply size_lt in Hi.
  unfold Avx.set. now rewrite lane_build.
Qed.

Lemma lane_mul T self other i :
  (i < Batch.size T)%nat ->
  lane (bits T) i (Avx2.mul T self other)
  = wrap (bits T) (lane (bits T) i self * lane (bits T) i other).
Proof.
  intros Hi. apply size_lt in Hi. unfold Avx2.mul.
  destruct T; cbn [sizeof]; cbv match;
    try (unfold Avx.mul; now rewrite lane_build);
    try (apply lane_mullo; [reflexivity | exact Hi]);
    apply lane_mul64; exact Hi.
Qed.

Lemma get_mul T self other i :
  (i < Batch.size T)%nat ->
  Batch.get T (Batch.operator_mul T self other) i
  = Some (static_cast T (static_cast T (lane (bits T) i self)
                         * static_cast T (lane (bits T) i other))).
Proof.
  intros Hi. rewrite get_lane by exact Hi.
  unfold Batch.operator_mul, Batch.operator_mul_assign.
  rewrite lane_mul by exact Hi. now rewrite static_cast_wrap, static_cast_mul.
Qed.

(** C4.  For every pair of batches [x], [y] of an 8-byte integer type
    and every lane [i], lane [i] of [x * y] is the value of that type
    congruent to [x[i] * y[i]] modulo [2^64]: the 4-byte pieces of the
    kernel recombine to the low 64 bits of the product. *)
Theorem mul_int64_low_bits (T : int_type) (x y : Z) (i : nat) :
  sizeof T = 8 -> (i < Batch.size T)%nat ->
  exists xi yi r,
    Batch.get T x i = Some xi /\ Batch.get T y i = Some yi
    /\ Batch.get T (Batch.operator_mul T x y) i = Some r
    /\ r = static_cast T (xi * yi)
    /\ r mod 2 ^ 64 = (xi * yi) mod 2 ^ 64.
Proof.
  intros HT Hi.
  exists (static_cast T (lane (bits T) i x)), (static_cast T (lane (bits T) i y)).
  eexists. rewrite get_mul, !get_lane by exact Hi.
  repeat split.
  assert (bits T = 64) as Hb by (unfold bits; lia).
  pose proof (wrap_static_cast T) as Hw. unfold wrap in Hw. rewrite Hb in Hw.
  apply Hw.
Qed.

Lemma mul_int64_low_bits_witness :
  exists xi yi r,
    Batch.get int64_t (Avx.set int64_t [3; -5; 12345678901234; 1]) 2 = Some xi
    /\ Batch.get int64_t (Avx.set int64_t [-7; -9; 98765432109876; 1]) 2 = Some yi
    /\ Batch.get int64_t
         (Batch.operator_mul int64_t
            (Avx.set int64_t [3; -5; 12345678901234; 1])
            (Avx.set int64_t [-7; -9; 98765432109876; 1])) 2 = Some r
    /\ r = static_cast int64_t (xi * yi)
    /\ r mod 2 ^ 64 = (xi * yi) mod 2 ^ 64.
Proof.
  apply (mul_int64_low_bits int64_t); [reflexivity | vm_compute; lia].
Defined.

(** ** Gather prescaling *)

Import Avx2.detail.

Lemma make_prescaler_spec s :
  exists p,
    make_prescaler s [8; 4; 2; 1] = Some p
    /\ In (scale p) [8; 4; 2; 1]
    /\ (scale p | s)
    /\ (forall h, In h [8; 4; 2; 1] -> (h | s) -> h <= scale p)
    /\ prescale p = s / scale p
    /\ s = scale p * prescale p.
Proof.
  unfold make_prescaler. cbn [select_scale].
  assert (Hdiv : forall h, 0 < h -> s mod h = 0 -> s = h * (s / h)).
  { intros h Hh Hm. pose proof (Z.div_mod s h ltac:(lia)). lia. }
  assert (Hno : forall h, 0 < h -> s mod h <> 0 -> ~ (h | s)).
  { intros h Hh Hm Hd. apply Hm. apply Z.mod_divide; [lia | exact Hd]. }
  assert (Hyes : forall h, 0 < h -> s mod h = 0 -> (h | s)).
  { intros h Hh Hm. apply Z.mod_divide; [lia | exact Hm]. }
  destruct (Z.eqb_spec (s mod 8) 0) as [H8 | H8].
  { rewrite H8. cbn [Z.eqb]. eexists. split; [reflexivity|]. cbn [scale prescale].
    repeat split; auto with zarith.
    - simpl; auto.
    - intros h [<- | [<- | [<- | [<- | []]]]] _; lia. }
  destruct (Z.eqb_spec (s mod 4) 0) as [H4 | H4].
  { rewrite H4. cbn [Z.eqb]. eexists. split; [reflexivity|]. cbn [scale prescale].
    repeat split; auto with zarith.
    - simpl; auto.
    - intros h [<- | [<- | [<- | [<- | []]]]] Hd; try lia.
      exfalso. revert Hd. apply Hno; lia. }
  destruct (Z.eqb_spec (s mod 2) 0) as [H2 | H2].
  { rewrite H2. cbn [Z.eqb]. eexists. split; [reflexivity|]. cbn [scale prescale].
    repeat split; auto with zarith.
    - simpl; auto.
    - intros h [<- | [<- | [<- | [<- | []]]]] Hd; try lia;
      exfalso; revert Hd; apply Hno; lia. }
  rewrite Z.mod_1_r. cbn [Z.eqb]. eexists. split; [reflexivity|]. cbn [scale prescale].
  repeat split; auto with zarith.
  - simpl; auto.
  - intros h [<- | [<- | [<- | [<- | []]]]] Hd; try lia;
      exfalso; revert Hd; apply Hno; lia.
Qed.

Lemma lane_run p T offset i :
  (i < Batch.size T)%nat ->
  lane (bits T) i (run p T offset)
  = wrap (bits T) (prescale p * lane (bits T) i offset).
Proof.
  intros Hi. pose proof (bits_pos T). unfold run.
  destruct (Z.eqb_spec (prescale p) 1) as [-> | _].
  - rewrite Z.mul_1_l. symmetry. apply wrap_lane. lia.
  - rewrite lane_mul, lane_batch_of_value by exact Hi.
    rewrite <- (wrap_lane (bits T) i offset) at 1 by lia.
    apply wrap_mul. lia.
Qed.

(** C2.  For every gather scale [s] and every offset batch, the
    prescaler over [8, 4, 2, 1] exists; its hardware scale is the largest
    of the four that divides [s]; its factor is [s] divided by that
    scale; [run] leaves the offsets alone when the factor is 1 and
    multiplies the batch by the factor otherwise; [gather] hands exactly
    this pair to [gather_impl]; and in every lane
    [scale * adjusted_offset[i]] equals [s * offset[i]] modulo the width
    of the offset type. *)
Theorem gather_prescale (s : Z) (O : int_type) (mem : Z -> Z) (offset : Z) :
  exists p,
    make_prescaler s [8; 4; 2; 1] = Some p
    /\ In (scale p) [8; 4; 2; 1]
    /\ (scale p | s)
    /\ (forall h, In h [8; 4; 2; 1] -> (h | s) -> h <= scale p)
    /\ prescale p = s / scale p
    /\ (prescale p = 1 -> run p O offset = offset)
    /\ (prescale p <> 1 ->
        run p O offset = Avx2.mul O (batch_of_value O (prescale p)) offset)
    /\ Avx2.gather s O mem offset
       = gather_impl (scale p) O mem (run p O offset)
    /\ forall i xi,
         Batch.get O offset i = Some xi ->
         exists yi,
           Batch.get O (run p O offset) i = Some yi
           /\ yi = static_cast O (prescale p * xi)
           /\ static_cast O (scale p * yi) = static_cast O (s * xi).
Proof.
  destruct (make_prescaler_spec s) as (p & Hp & Hin & Hdiv & Hmax & Hpre & Hs).
  exists p. repeat split; auto.
  - intros H1. unfold run. now rewrite H1.
  - intros H1. unfold run. destruct (Z.eqb_spec (prescale p) 1); [contradiction | reflexivity].
  - unfold Avx2.gather. now rewrite Hp.
  - intros i xi Hget.
    destruct (Nat.lt_ge_cases i (Batch.size O)) as [Hi | Hi];
      [|rewrite get_past_end in Hget by exact Hi; discriminate].
    rewrite get_lane in Hget by exact Hi. injection Hget as <-.
    eexists. rewrite get_lane by exact Hi. split; [reflexivity|].
    rewrite lane_run by exact Hi. pose proof (bits_pos O). split.
    + apply static_cast_congr. rewrite wrap_wrap by lia.
      rewrite <- (wrap_mul (bits O) (prescale p) (static_cast O _)) by lia.
      rewrite wrap_static_cast. rewrite wrap_mul by lia. reflexivity.
    + apply static_cast_congr.
      rewrite <- (wrap_mul (bits O) (scale p)) by lia.
      rewrite wrap_static_cast, wrap_wrap by lia.
      rewrite <- (wrap_mul (bits O) s) by lia. rewrite wrap_static_cast.
      rewrite !wrap_mul by lia. f_equal.
      transitivity (scale p * prescale p * lane (bits O) i offset); [ring|].
      now rewrite <- Hs.
Qed.

Lemma gather_prescale_witness :
  exists p,
    make_prescaler 24 [8; 4; 2; 1] = Some p
    /\ (scale p | 24)
    /\ exists yi,
         Batch.get int32_t
           (run p int32_t (Avx.set int32_t [5; -7; 0; 0; 0; 0; 0; 0])) 1
         = Some yi
         /\ static_cast int32_t (scale p * yi) = static_cast int32_t (24 * -7).
Proof.
  destruct (gather_prescale 24 int32_t (fun _ => 0)
              (Avx.set int32_t [5; -7; 0; 0; 0; 0; 0; 0]))
    as (p & Hp & _ & Hdiv & _ & _ & _ & _ & _ & Hlanes).
  exists p. split; [exact Hp|]. split; [exact Hdiv|].
  destruct (Hlanes 1%nat (-7)) as (yi & Hy & _ & Hs); [vm_compute; reflexivity|].
  exists yi. split; assumption.
Defined.

(** ** Addressing helpers *)

Import GatherUtils.

Lemma wrap_wrap_le w w' x : 0 <= w <= w' -> wrap w (wrap w' x) = wrap w x.
Proof.
  intros H. apply Z.bits_inj'. intros n Hn.
  rewrite !testbit_wrap by lia.
  destruct (Z.ltb_spec n w), (Z.ltb_spec n w'); try reflexivity; lia.
Qed.

Lemma bits_le_64 T : 0 <= bits T <= 64.
Proof. destruct T; cbv; split; discriminate. Qed.

Lemma length_make_batch_constant T G Values :
  BatchConstant.make_batch_constant T G = Some Values ->
  List.length Values = batch_size T.
Proof.
  unfold BatchConstant.make_batch_constant. cbv zeta.
  destruct (forallb _ _); [|discriminate].
  intros [= <-]. now rewrite length_map, length_seq.
Qed.

(** The ramp [0, 1, ..., size - 1] fits every value type. *)
Lemma make_ramp T :
  BatchConstant.make_batch_constant T ramp_generator = Some (below (batch_size T)).
Proof. destruct T; vm_compute; reflexivity. Qed.

Lemma length_below n : List.length (below n) = n.
Proof. unfold below. now rewrite length_map, length_seq. Qed.

Lemma nth_below n i : (i < n)%nat -> nth i (below n) 0 = Z.of_nat i.
Proof.
  intros Hi. unfold below. change 0 with (Z.of_nat 0).
  rewrite map_nth, seq_nth by exact Hi. reflexivity.
Qed.

Lemma batch_of_constant_done T Values :
  List.length Values = batch_size T ->
  batch_of_constant T Values = Done (Avx.set T Values).
Proof.
  intros Hlen. unfold batch_of_constant, batch_of_initializer_list, braces.
  cbn [il_size il_begin]. rewrite Hlen, Nat.eqb_refl. f_equal.
  unfold batch_of_pointer. f_equal.
  rewrite <- Hlen. clear Hlen.
  apply nth_ext with (d := 0) (d' := 0).
  - now rewrite length_map, length_seq.
  - intros k Hk. rewrite length_map, length_seq in Hk.
    rewrite nth_indep with (d' := nth 0 Values (0 : Z))
      by (now rewrite length_map, length_seq).
    rewrite (map_nth (fun i => nth i Values _)), seq_nth by lia.
    apply nth_indep. lia.
Qed.

Lemma lane_ramp T i :
  (i < batch_size T)%nat ->
  lane (bits T) i (Avx.set T (below (batch_size T))) = Z.of_nat i.
Proof.
  intros Hi. rewrite lane_set by exact Hi.
  rewrite nth_below by exact Hi. apply wrap_small.
  assert (batch_size T <= 32)%nat by (destruct T; vm_compute; lia).
  assert (256 <= 2 ^ bits T) by (destruct T; cbv; discriminate).
  lia.
Qed.


Lemma static_cast_representable T x : representable T x -> static_cast T x = x.
Proof.
  unfold representable, static_cast. pose proof (bits_pos T).
  destruct (is_signed T); intros Hx.
  - now apply sint_small.
  - now apply wrap_small.
Qed.

Lemma stride_offset_lanes T stride i :
  (i < Batch.size T)%nat ->
  exists b,
    stride_offset.to_batch T stride = Some (Done b)
    /\ Batch.get T b i = Some (static_cast T (stride_offset.get stride i)).
Proof.
  intros Hi. unfold stride_offset.to_batch. rewrite make_ramp.
  rewrite batch_of_constant_done by apply length_below.
  cbn [bind]. eexists. split; [reflexivity|].
  rewrite get_mul by exact Hi. f_equal.
  rewrite static_cast_mul.
  rewrite lane_ramp, lane_batch_of_value by exact Hi.
  apply static_cast_congr. unfold stride_offset.get, size_t_mul.
  rewrite wrap_wrap_le by apply bits_le_64.
  pose proof (bits_pos T).
  rewrite <- wrap_mul, wrap_static_cast by lia.
  rewrite wrap_wrap, wrap_mul by lia. f_equal. ring.
Qed.

Lemma representable_size_t T x : representable T x -> 0 <= x -> wrap 64 x = x.
Proof.
  intros Hr Hx. apply wrap_small. split; [exact Hx|].
  unfold representable in Hr.
  destruct T; cbv [is_signed bits sizeof] in Hr; simpl in Hr; lia.
Qed.

Lemma all_ones_range w : 0 < w -> 0 < all_ones w < 2 ^ w.
Proof.
  intros Hw. unfold all_ones. pose proof (pow2_double w Hw).
  pose proof (pow2_pos (w - 1) ltac:(lia)). lia.
Qed.

Lemma wrap_all_ones w : 0 < w -> wrap w (all_ones w) = all_ones w.
Proof. intros. apply wrap_small. pose proof (all_ones_range w); lia. Qed.

Lemma wrap_mask_lane w (c : bool) :
  0 < w -> wrap w (if c then all_ones w else 0) = if c then all_ones w else 0.
Proof. intros. destruct c; [now apply wrap_all_ones | reflexivity]. Qed.

Lemma lane_cmpgt w a b i :
  0 < w -> (i < nlanes w)%nat ->
  lane w i (cmpgt w a b)
  = if sint w (lane w i a) >? sint w (lane w i b) then all_ones w else 0.
Proof. intros. unfold cmpgt. rewrite lane_build by assumption. now apply wrap_mask_lane. Qed.

Lemma lane_cmpeq w a b i :
  0 < w -> (i < nlanes w)%nat ->
  lane w i (cmpeq w a b)
  = if lane w i a =? lane w i b then all_ones w else 0.
Proof. intros. unfold cmpeq. rewrite lane_build by assumption. now apply wrap_mask_lane. Qed.

Lemma lane_gt T self other i :
  (i < Batch.size T)%nat ->
  lane (bits T) i (Avx2.gt T self other)
  = if static_cast T (lane (bits T) i self) >? static_cast T (lane (bits T) i other)
    then all_ones (bits T) else 0.
Proof.
  intros Hi. unfold Avx2.gt, static_cast.
  destruct T; cbn [is_signed sizeof]; cbv match;
    try (apply lane_cmpgt; [reflexivity | exact Hi]);
    unfold Avx.gt, static_cast; cbn [is_signed];
    (rewrite lane_build; [apply wrap_mask_lane; reflexivity | reflexivity | exact Hi]).
Qed.

Lemma lane_eq T self other i :
  (i < Batch.size T)%nat ->
  lane (bits T) i (Avx2.eq T self other)
  = if lane (bits T) i self =? lane (bits T) i other
    then all_ones (bits T) else 0.
Proof.
  intros Hi. unfold Avx2.eq.
  destruct T; cbn [sizeof]; cbv match; apply lane_cmpeq; (reflexivity || exact Hi).
Qed.

Lemma bool_get_lane T self i :
  (i < BatchBool.size T)%nat ->
  BatchBool.get T self i = Some (negb (lane (bits T) i self =? 0)).
Proof.
  intros Hi. unfold BatchBool.get, BatchBool.store_aligned, Avx.store.
  rewrite nth_error_map, nth_error_seq.
  unfold BatchBool.size in Hi. destruct (Nat.ltb_spec i (batch_size T)); [|lia].
  cbn [option_map Nat.add]. now destruct (lane (bits T) i self =? 0).
Qed.

Lemma bits_make_signed T : bits (make_signed T) = bits T.
Proof. now destruct T. Qed.

Lemma size_make_signed T : batch_size (make_signed T) = batch_size T.
Proof. now destruct T. Qed.

Lemma static_cast_make_signed T x : static_cast (make_signed T) x = sint (bits T) x.
Proof. now destruct T. Qed.

Lemma first_n_true_lanes T n i :
  (i < BatchBool.size T)%nat ->
  exists b,
    first_n_true.to_batch_bool T n = Some (Done b)
    /\ lane (bits T) i b
       = if Z.of_nat i <? static_cast (make_signed T) n
         then all_ones (bits T) else 0.
Proof.
  intros Hi. unfold first_n_true.to_batch_bool, first_n_true.as_integer.
  rewrite make_ramp.
  rewrite batch_of_constant_done by apply length_below.
  cbn [bind]. eexists. split; [reflexivity|].
  pose proof (bits_pos T) as Hw.
  unfold Batch.operator_lt, Generic.lt.
  rewrite <- (bits_make_signed T).
  assert (Hi' : (i < Batch.size (make_signed T))%nat)
    by (unfold Batch.size; rewrite size_make_signed; exact Hi).
  rewrite lane_gt by exact Hi'.
  rewrite lane_ramp, lane_batch_of_value by exact Hi'.
  rewrite static_cast_wrap.
  assert (batch_size T <= 32)%nat by (destruct T; vm_compute; lia).
  assert (128 <= 2 ^ (bits T - 1)) by (destruct T; cbv; discriminate).
  unfold BatchBool.size in Hi.
  rewrite (static_cast_make_signed T (Z.of_nat i)), bits_make_signed.
  rewrite (sint_small (bits T) (Z.of_nat i)) by lia.
  rewrite Z.gtb_ltb. reflexivity.
Qed.

(** C3 (as amended).  For every integer batch type and every lane
    index [i]: [stride_offset(stride)] converts to a batch whose lane [i]
    is [get(i)] brought to the value type, hence [get(i) = stride * i]
    itself whenever that product is representable in the value type; and
    [get(i)] of [first_n_true(n)] is [i < n] for every [n]. *)
Theorem addressing_helpers_agree (T : int_type) (i : nat) :
  (i < Batch.size T)%nat ->
  (forall stride, 0 <= stride < 2 ^ 64 ->
     exists b,
       stride_offset.to_batch T stride = Some (Done b)
       /\ Batch.get T b i = Some (static_cast T (stride_offset.get stride i))
       /\ (representable T (stride * Z.of_nat i) ->
           Batch.get T b i = Some (stride_offset.get stride i)
           /\ stride_offset.get stride i = stride * Z.of_nat i))
  /\ (forall n, first_n_true.get n i = (Z.of_nat i <? n)).
Proof.
  intros Hi. split.
  - intros stride Hs. destruct (stride_offset_lanes T stride i Hi) as (b & Hb & Hget).
    exists b. repeat split; auto.
    + rewrite Hget. unfold stride_offset.get, size_t_mul.
      rewrite (representable_size_t T) by (auto; lia).
      now rewrite static_cast_representable.
    + unfold stride_offset.get, size_t_mul.
      apply (representable_size_t T); auto; lia.
  - reflexivity.
Qed.

Lemma addressing_helpers_agree_witness :
  exists b,
    stride_offset.to_batch int32_t 12 = Some (Done b)
    /\ Batch.get int32_t b 3 = Some (stride_offset.get 12 3)
    /\ stride_offset.get 12 3 = 12 * 3.
Proof.
  destruct (addressing_helpers_agree int32_t 3) as [Hs _]; [vm_compute; lia|].
  destruct (Hs 12) as (b & Hb & _ & Hr); [lia|].
  exists b. split; [exact Hb|]. apply Hr. unfold representable. simpl. lia.
Defined.

(** With 16-bit lanes, stride 20000 gives lane 2 the value -25536 where
    [get(2)] is 40000, and [first_n_true(32768)] has lane 0 false where
    [get(0)] is true. *)
Lemma addressing_helpers_disagree :
  (exists b,
     stride_offset.to_batch int16_t 20000 = Some (Done b)
     /\ Batch.get int16_t b 2 = Some (-25536)
     /\ stride_offset.get 20000 2 = 40000
     /\ Batch.get int16_t b 2 <> Some (stride_offset.get 20000 2))
  /\ (exists b,
        first_n_true.to_batch_bool int16_t 32768 = Some (Done b)
        /\ BatchBool.get int16_t b 0 = Some false
        /\ first_n_true.get 32768 0 = true
        /\ BatchBool.get int16_t b 0 <> Some (first_n_true.get 32768 0)).
Proof.
  split; eexists; (split; [reflexivity|]);
    repeat split; vm_compute; (reflexivity || discriminate).
Qed.

(** ** Bitwise instructions, lane by lane *)

Lemma lane_land w i a b :
  0 < w -> lane w i (Z.land a b) = Z.land (lane w i a) (lane w i b).
Proof.
  intros Hw. apply Z.bits_inj'. intros n Hn.
  rewrite Z.land_spec, !testbit_lane, Z.land_spec by lia.
  destruct (n <? w); reflexivity.
Qed.

Lemma lane_lor w i a b :
  0 < w -> lane w i (Z.lor a b) = Z.lor (lane w i a) (lane w i b).
Proof.
  intros Hw. apply Z.bits_inj'. intros n Hn.
  rewrite Z.lor_spec, !testbit_lane, Z.lor_spec by lia.
  destruct (n <? w); reflexivity.
Qed.

Lemma lane_andnot w i a b :
  0 < w ->
  lane w i (_mm256_andnot_si256 a b) = Z.ldiff (lane w i b) (lane w i a).
Proof.
  intros Hw. unfold _mm256_andnot_si256. apply Z.bits_inj'. intros n Hn.
  rewrite Z.ldiff_spec, !testbit_lane, Z.land_spec, Z.lnot_spec by lia.
  destruct (n <? w); simpl; [apply andb_comm | reflexivity].
Qed.

Lemma lane_lxor w i a b :
  0 < w -> lane w i (Z.lxor a b) = Z.lxor (lane w i a) (lane w i b).
Proof.
  intros Hw. apply Z.bits_inj'. intros n Hn.
  rewrite Z.lxor_spec, !testbit_lane, Z.lxor_spec by lia.
  destruct (n <? w); reflexivity.
Qed.

Lemma lane_wrap_256 w i x :
  0 < w -> w * Z.of_nat (S i) <= 256 -> lane w i (wrap 256 x) = lane w i x.
Proof.
  intros Hw Hi. apply lane_ext; [lia|]. intros n Hn.
  rewrite testbit_wrap by lia.
  destruct (Z.ltb_spec (w * Z.of_nat i + n) 256); [reflexivity | lia].
Qed.

(** Bitwise operations commute with taking a lane. *)
Create Rewrite HintDb lane_bitwise.
#[local] Hint Rewrite lane_land lane_lor lane_lxor lane_andnot lane_wrap_256
  using lia : lane_bitwise.

Lemma lane_0_whole w r : lane w 0 r = wrap w r.
Proof. unfold lane, wrap. now rewrite Z.mul_0_r, Z.pow_0_r, Z.div_1_r. Qed.

Lemma land_range w a b : 0 <= w -> 0 <= a < 2 ^ w -> 0 <= b -> 0 <= Z.land a b < 2 ^ w.
Proof.
  intros Hw Ha Hb. split; [apply Z.land_nonneg; lia|].
  destruct (Z.eq_dec (Z.land a b) 0) as [-> | Hnz]; [now apply pow2_pos|].
  assert (0 <= Z.land a b) by (apply Z.land_nonneg; lia).
  apply Z.log2_lt_pow2; [lia|].
  destruct (Z.eq_dec a 0) as [-> | Ha0]; [now rewrite Z.land_0_l in Hnz|].
  apply Z.le_lt_trans with (Z.log2 a).
  - rewrite Z.land_comm.
    pose proof (Z.log2_land b a Hb ltac:(lia)). 
    pose proof (Z.le_min_r (Z.log2 b) (Z.log2 a)). lia.
  - apply Z.log2_lt_pow2; lia.
Qed.

Lemma fwd_to_sse_and a b :
  Avx.fwd_to_sse (fun s o => Sse4_2.bitwise_and s o) a b = wrap 256 (Z.land a b).
Proof.
  unfold Avx.fwd_to_sse, Sse4_2.bitwise_and, _mm_and_si128.
  rewrite <- (lane_0_whole 256). change 256 with (2 * 128) at 1.
  rewrite lane_pair by lia. rewrite !lane_land by lia.
  replace (lane 128 (2 * 0) a) with (a mod 2 ^ 128)
    by (symmetry; apply (lane_0_whole 128)).
  replace (lane 128 (2 * 0) b) with (b mod 2 ^ 128)
    by (symmetry; apply (lane_0_whole 128)).
  replace (lane 128 (2 * 0 + 1) a) with ((a / 2 ^ 128) mod 2 ^ 128)
    by (unfold lane; reflexivity).
  replace (lane 128 (2 * 0 + 1) b) with ((b / 2 ^ 128) mod 2 ^ 128)
    by (unfold lane; reflexivity).
  assert (H : forall x y,
            Z.land (x mod 2 ^ 128) (y mod 2 ^ 128) mod 2 ^ 128
            = Z.land (x mod 2 ^ 128) (y mod 2 ^ 128)).
  { intros x y. apply Z.mod_small.
    apply land_range; try lia; apply Z.mod_pos_bound; lia. }
  now rewrite !H.
Qed.

(** ** Right shifts *)

Lemma lane_srai w a k i :
  0 < w <= 64 -> 0 <= k < w -> (i < nlanes w)%nat ->
  lane w i (srai w a k) = wrap w (Z.shiftr (sint w (lane w i a)) k).
Proof.
  intros Hw Hk Hi. unfold srai. rewrite lane_build by lia.
  rewrite Z.mod_small by lia.
  destruct (Z.gtb_spec k (w - 1)); [lia | reflexivity].
Qed.

Lemma lane_srli w a k i :
  0 < w <= 64 -> 0 <= k < w -> (i < nlanes w)%nat ->
  lane w i (srli w a k) = wrap w (Z.shiftr (lane w i a) k).
Proof.
  intros Hw Hk Hi. unfold srli. rewrite lane_build by lia.
  rewrite Z.mod_small by lia.
  destruct (Z.gtb_spec k (w - 1)); [lia | reflexivity].
Qed.


Lemma testbit_build_at w f i b :
  0 < w -> (i < nlanes w)%nat -> 0 <= b < w ->
  Z.testbit (build w f) (w * Z.of_nat i + b) = Z.testbit (f i) b.
Proof.
  intros Hw Hi Hb.
  pose proof (testbit_lane w i (build w f) b Hw ltac:(lia)) as H.
  rewrite lane_build, testbit_wrap in H by lia.
  destruct (Z.ltb_spec b w); [|lia]. simpl in H. now rewrite <- H.
Qed.

Lemma sint_negative w x : 0 < w -> (sint w x <? 0) = Z.testbit x (w - 1).
Proof.
  intros Hw.
  transitivity (Z.testbit (wrap w x) (w - 1)).
  - rewrite testbit_top by (try apply wrap_range; lia).
    pose proof (pow2_pos (w - 1) ltac:(lia)).
    destruct (sint_cases w x Hw) as [[-> ?] | [-> ?]].
    + destruct (Z.ltb_spec (wrap w x) 0), (Z.leb_spec (2 ^ (w - 1)) (wrap w x));
        try reflexivity; lia.
    + destruct (Z.ltb_spec (wrap w x - 2 ^ w) 0),
        (Z.leb_spec (2 ^ (w - 1)) (wrap w x)); try reflexivity; lia.
  - rewrite testbit_wrap by lia. destruct (Z.ltb_spec (w - 1) w); [reflexivity | lia].
Qed.

Lemma testbit_sign_mask k c :
  0 <= k -> 0 <= c ->
  Z.testbit (Z.land (Z.shiftr 0xFF00 k) 0x00FF) c
  = (8 <=? c + k) && (c + k <? 16) && (c <? 8).
Proof.
  intros Hk Hc. rewrite Z.land_spec, Z.shiftr_spec by lia.
  change 0xFF00 with (Z.shiftl (Z.ones 8) 8). change 0x00FF with (Z.ones 8).
  rewrite Z.shiftl_spec, (Z.testbit_ones_nonneg 8 c) by lia.
  rewrite Z.testbit_ones by lia.
  destruct (Z.leb_spec 8 (c + k)), (Z.leb_spec 0 (c + k - 8)),
    (Z.ltb_spec (c + k) 16), (Z.ltb_spec (c + k - 8) 8); try reflexivity; lia.
Qed.

Lemma testbit_byte_mask (c : bool) b :
  0 <= b -> Z.testbit (if c then all_ones 8 else 0) b = c && (b <? 8).
Proof.
  intros Hb. destruct c; [|apply Z.testbit_0_l].
  change (all_ones 8) with (Z.ones 8). now rewrite Z.testbit_ones_nonneg by lia.
Qed.

Ltac decide_comparisons :=
  repeat match goal with
    | |- context [?a <? ?b] => destruct (Z.ltb_spec a b); try lia
    | |- context [?a <=? ?b] => destruct (Z.leb_spec a b); try lia
    end;
  cbn [andb orb negb];
  rewrite ?andb_true_r, ?andb_false_r, ?orb_false_r.

(** The synthesized arithmetic shift of signed bytes. *)
Lemma lane_rshift8 self k i :
  0 <= k < 8 -> (i < 32)%nat ->
  lane 8 i (Avx2.bitwise_rshift int8_t self k)
  = wrap 8 (Z.shiftr (sint 8 (lane 8 i self)) k).
Proof.
  intros Hk Hi. unfold Avx2.bitwise_rshift. cbn [is_signed sizeof]. cbv match.
  unfold _mm256_or_si256. rewrite fwd_to_sse_and.
  autorewrite with lane_bitwise.
  unfold _mm256_cmpgt_epi8, _mm256_setzero_si256.
  rewrite lane_cmpgt by (rewrite ?nlanes_8; lia). rewrite lane_zero.
  change (sint 8 0) with 0. rewrite Z.gtb_ltb, sint_negative by lia.
  apply Z.bits_inj'. intros b Hb.
  rewrite Z.lor_spec, Z.land_spec, Z.ldiff_spec, testbit_wrap by lia.
  rewrite testbit_byte_mask by lia.
  rewrite Z.shiftr_spec, testbit_sint by lia.
  rewrite !testbit_lane by lia.
  destruct (Z.ltb_spec b 8) as [Hb8 | Hb8]; [|reflexivity].
  change (8 - 1) with 7. change (7 <? 8) with true.
  cbn [andb]. rewrite andb_true_r.
  assert (Hmin : (Z.min (b + k) 7 <? 8) = true) by (apply Z.ltb_lt; lia).
  rewrite Hmin. cbn [andb].
  unfold _mm256_set1_epi16, set1, _mm256_srai_epi16, srai.
  rewrite (Z.mod_small k 256) by lia.
  destruct (Z.gtb_spec k (16 - 1)) as [? | _]; [lia|].
  destruct (Nat.Even_or_Odd i) as [[j ->] | [j ->]].
  - replace (8 * Z.of_nat (2 * j) + b) with (16 * Z.of_nat j + b) by lia.
    rewrite !testbit_build_at by (rewrite ?nlanes_16; lia).
    rewrite testbit_sign_mask, Z.shiftr_spec, testbit_sint, testbit_lane by lia.
    decide_comparisons; f_equal; lia.
  - replace (8 * Z.of_nat (2 * j + 1) + b) with (16 * Z.of_nat j + (8 + b)) by lia.
    rewrite !testbit_build_at by (rewrite ?nlanes_16; lia).
    rewrite testbit_sign_mask, Z.shiftr_spec, testbit_sint, testbit_lane by lia.
    decide_comparisons; f_equal; lia.
Qed.

Lemma lane_rshift T self k i :
  0 <= k < bits T -> (i < Batch.size T)%nat ->
  lane (bits T) i (Avx2.bitwise_rshift T self k)
  = wrap (bits T) (Z.shiftr (static_cast T (lane (bits T) i self)) k).
Proof.
  intros Hk Hi. destruct T.
  - apply lane_rshift8; [exact Hk | exact Hi].
  - unfold Avx2.bitwise_rshift, Avx.bitwise_rshift. cbn [is_signed sizeof]. cbv match.
    now rewrite lane_build.
  - apply lane_srai; [cbv; intuition discriminate | exact Hk | exact Hi].
  - unfold static_cast. cbn [is_signed]. rewrite wrap_lane by (cbv; discriminate).
    apply lane_srli; [cbv; intuition discriminate | exact Hk | exact Hi].
  - apply lane_srai; [cbv; intuition discriminate | exact Hk | exact Hi].
  - unfold static_cast. cbn [is_signed]. rewrite wrap_lane by (cbv; discriminate).
    apply lane_srli; [cbv; intuition discriminate | exact Hk | exact Hi].
  - unfold Avx2.bitwise_rshift, Avx.bitwise_rshift. cbn [is_signed sizeof]. cbv match.
    now rewrite lane_build.
  - unfold static_cast. cbn [is_signed]. rewrite wrap_lane by (cbv; discriminate).
    apply lane_srli; [cbv; intuition discriminate | exact Hk | exact Hi].
Qed.

Lemma representable_static_cast T x : representable T (static_cast T x).
Proof.
  pose proof (bits_pos T). unfold representable, static_cast.
  destruct (is_signed T); [apply sint_range | apply wrap_range]; lia.
Qed.

Lemma representable_shiftr T x k :
  0 <= k -> representable T x -> representable T (Z.shiftr x k).
Proof.
  intros Hk. rewrite Z.shiftr_div_pow2 by lia.
  pose proof (pow2_pos k Hk) as Hd. pose proof (bits_pos T) as Hw.
  pose proof (pow2_pos (bits T - 1) ltac:(lia)) as Hh.
  pose proof (pow2_pos (bits T) ltac:(lia)) as Hf.
  pose proof (Z.div_mod x (2 ^ k) ltac:(lia)) as Hdm.
  pose proof (Z.mod_pos_bound x (2 ^ k) Hd) as Hr.
  unfold representable. destruct (is_signed T); intros Hx; nia.
Qed.

Lemma get_rshift T self k i :
  0 <= k < bits T -> (i < Batch.size T)%nat ->
  Batch.get T (Batch.operator_rshift T self k) i
  = Some (static_cast T (lane (bits T) i self) / 2 ^ k).
Proof.
  intros Hk Hi. rewrite get_lane by exact Hi.
  unfold Batch.operator_rshift, Batch.operator_rshift_assign.
  rewrite lane_rshift by assumption. rewrite static_cast_wrap.
  rewrite static_cast_representable
    by (apply representable_shiftr; [lia | apply representable_static_cast]).
  now rewrite Z.shiftr_div_pow2 by lia.
Qed.

Lemma testbit_unsigned_high w x n :
  0 <= w -> w <= n -> Z.testbit (wrap w x) n = false.
Proof.
  intros Hw Hn. rewrite testbit_wrap by lia.
  destruct (Z.ltb_spec n w); [lia | reflexivity].
Qed.


(** C6.  For every integer type [T], every shift amount
    [0 <= k < bits T] and every lane [i], lane [i] of [self >> k] is the
    floor of [self[i] / 2^k]; its bits are those of [self[i]] moved down
    [k] places, with copies of the sign bit coming in at the top when [T]
    is signed and zeros when [T] is unsigned.  The 32-bit batch
    [[0,...,7]] shifted by 1 is [[0,0,1,1,2,2,3,3]], and the batch of the
    negated values gives [[0,-1,-1,-2,-2,-3,-3,-4]]. *)
Theorem rshift_arithmetic_or_logical :
  (forall (T : int_type) (self k : Z) (i : nat),
      0 <= k < bits T -> (i < Batch.size T)%nat ->
      exists xi,
        Batch.get T self i = Some xi
        /\ Batch.get T (Batch.operator_rshift T self k) i = Some (xi / 2 ^ k)
        /\ forall b, 0 <= b < bits T ->
             Z.testbit (xi / 2 ^ k) b
             = if is_signed T
               then Z.testbit xi (Z.min (b + k) (bits T - 1))
               else (b + k <? bits T) && Z.testbit xi (b + k))
  /\ (forall past, exists x,
        batch_of_initializer_list int32_t (braces iota8 past) = Done x
        /\ Batch.store_aligned int32_t (Batch.operator_rshift int32_t x 1)
           = [0; 0; 1; 1; 2; 2; 3; 3])
  /\ (forall past, exists x,
        batch_of_initializer_list int32_t (braces (map Z.opp iota8) past) = Done x
        /\ Batch.store_aligned int32_t (Batch.operator_rshift int32_t x 1)
           = [0; -1; -1; -2; -2; -3; -3; -4]).
Proof.
  split; [|split].
  - intros T self k i Hk Hi. eexists. split; [apply get_lane; exact Hi|].
    split; [apply get_rshift; assumption|].
    intros b Hb. pose proof (bits_pos T) as Hw.
    rewrite <- Z.shiftr_div_pow2, Z.shiftr_spec by lia.
    unfold static_cast. destruct (is_signed T).
    + rewrite !testbit_sint by lia. f_equal. lia.
    + destruct (Z.ltb_spec (b + k) (bits T)); [reflexivity|].
      apply testbit_unsigned_high; lia.
  - intros past. eexists. split; [reflexivity|]. vm_compute. reflexivity.
  - intros past. eexists. split; [reflexivity|]. vm_compute. reflexivity.
Qed.

Lemma rshift_arithmetic_or_logical_witness :
  exists xi,
    Batch.get int8_t (Avx.set int8_t [100; -100; 5; -77]) 1 = Some xi
    /\ Batch.get int8_t
         (Batch.operator_rshift int8_t (Avx.set int8_t [100; -100; 5; -77]) 3) 1
       = Some (xi / 2 ^ 3).
Proof.
  destruct (proj1 rshift_arithmetic_or_logical int8_t
              (Avx.set int8_t [100; -100; 5; -77]) 3 1%nat)
    as (xi & Hx & Hr & _); [cbv [bits sizeof]; lia | vm_compute; lia |].
  exists xi. split; assumption.
Defined.

(** ** Blends *)

Lemma testbit_all_ones w n : 0 <= w -> 0 <= n < w -> Z.testbit (all_ones w) n = true.
Proof.
  intros Hw Hn. unfold all_ones.
  replace (2 ^ w - 1) with (Z.ones w) by (rewrite Z.ones_equiv; lia).
  apply Z.ones_spec_low. lia.
Qed.

Lemma lane_blendv s i a b mask :
  1 <= s -> 8 * s * (Z.of_nat i + 1) <= 256 ->
  lane (8 * s) i mask = 0 \/ lane (8 * s) i mask = all_ones (8 * s) ->
  lane (8 * s) i (_mm256_blendv_epi8 a b mask)
  = if lane (8 * s) i mask =? 0 then lane (8 * s) i a else lane (8 * s) i b.
Proof.
  intros Hs Hi Hvalid.
  assert (Hsel : forall n, 0 <= n < 8 * s ->
    Z.testbit (_mm256_blendv_epi8 a b mask) (8 * s * Z.of_nat i + n)
    = Z.testbit (if lane (8 * s) i mask =? 0 then a else b) (8 * s * Z.of_nat i + n)).
  { intros n Hn.
    pose proof (Z.div_mod n 8 ltac:(lia)) as Hdm.
    pose proof (Z.mod_pos_bound n 8 ltac:(lia)) as Hr.
    assert (Hq : 0 <= n / 8 < s) by (split; [apply Z.div_pos; lia | apply Z.div_lt_upper_bound; lia]).
    set (j := Z.to_nat (s * Z.of_nat i + n / 8)).
    assert (Hj : Z.of_nat j = s * Z.of_nat i + n / 8) by (unfold j; nia).
    assert (Hj32 : (j < nlanes 8)%nat) by (rewrite nlanes_8; nia).
    replace (8 * s * Z.of_nat i + n) with (8 * Z.of_nat j + n mod 8) by lia.
    unfold _mm256_blendv_epi8. rewrite testbit_build_at by lia.
    assert (Htop : Z.testbit (lane 8 j mask) 7
                   = Z.testbit (lane (8 * s) i mask) (8 * (n / 8) + 7)).
    { rewrite !testbit_lane by lia.
      destruct (Z.ltb_spec 7 8); [|lia].
      destruct (Z.ltb_spec (8 * (n / 8) + 7) (8 * s)); [|lia].
      cbn [andb]. f_equal. lia. }
    rewrite Htop.
    destruct Hvalid as [H0 | H1].
    - rewrite H0, Z.testbit_0_l. change (0 =? 0) with true. cbv iota.
      rewrite testbit_lane by lia. destruct (Z.ltb_spec (n mod 8) 8); [|lia].
      reflexivity.
    - rewrite H1, testbit_all_ones by lia.
      pose proof (all_ones_range (8 * s) ltac:(lia)).
      destruct (Z.eqb_spec (all_ones (8 * s)) 0); [lia|].
      rewrite testbit_lane by lia. destruct (Z.ltb_spec (n mod 8) 8); [|lia].
      reflexivity. }
  destruct (lane (8 * s) i mask =? 0); apply lane_ext; try lia; exact Hsel.
Qed.

Lemma size_bound T i :
  (i < batch_size T)%nat -> 8 * sizeof T * (Z.of_nat i + 1) <= 256.
Proof.
  intros Hi. assert (Z.of_nat i + 1 <= Z.of_nat (batch_size T)) as H by lia.
  destruct T; cbn [sizeof];
    match type of H with _ <= Z.of_nat ?n =>
      let n' := eval vm_compute in n in change n with n' in H end; lia.
Qed.

Lemma lane_select T cond true_br false_br i :
  (i < Batch.size T)%nat ->
  lane (bits T) i cond = 0 \/ lane (bits T) i cond = all_ones (bits T) ->
  lane (bits T) i (Avx2.select T cond true_br false_br)
  = if lane (bits T) i cond =? 0 then lane (bits T) i false_br
    else lane (bits T) i true_br.
Proof.
  intros Hi Hvalid. pose proof (size_bound T i Hi) as Hb.
  assert (Avx2.select T cond true_br false_br
          = _mm256_blendv_epi8 false_br true_br cond) as -> by now destruct T.
  unfold bits in *. apply lane_blendv; [destruct T; cbv; discriminate | exact Hb | exact Hvalid].
Qed.

Lemma lane_blend_epi32 a b imm8 j :
  (j < 8)%nat ->
  lane 32 j (_mm256_blend_epi32 a b imm8)
  = if Z.testbit imm8 (Z.of_nat j) then lane 32 j b else lane 32 j a.
Proof.
  intros Hj. unfold _mm256_blend_epi32. rewrite lane_build by (rewrite ?nlanes_32; lia).
  destruct (Z.testbit imm8 (Z.of_nat j)); apply wrap_lane; lia.
Qed.

Lemma lane_set_bool T values i :
  (i < Batch.size T)%nat ->
  lane (bits T) i (Avx.set_bool T values)
  = if nth i values false then all_ones (bits T) else 0.
Proof.
  intros Hi. pose proof (bits_pos T). apply size_lt in Hi. unfold Avx.set_bool.
  rewrite lane_build by assumption. now apply wrap_mask_lane.
Qed.

Lemma batch_bool_of_constant_done T Values :
  List.length Values = batch_size T ->
  batch_bool_of_constant T Values = Done (Avx.set_bool T Values).
Proof.
  intros Hlen. unfold batch_bool_of_constant, batch_bool_of_initializer_list, braces.
  cbn [il_begin]. f_equal. unfold batch_bool_of_pointer. f_equal.
  rewrite <- Hlen. clear Hlen.
  apply nth_ext with (d := false) (d' := false).
  - now rewrite length_map, length_seq.
  - intros k Hk. rewrite length_map, length_seq in Hk.
    rewrite nth_indep with (d' := nth 0 Values false)
      by (now rewrite length_map, length_seq).
    rewrite (map_nth (fun i => nth i Values _)), seq_nth by lia.
    apply nth_indep. lia.
Qed.

Lemma constant_get_nth Values i :
  (i < List.length Values)%nat ->
  batch_bool_constant.get Values i = Some (nth i Values false).
Proof.
  intros Hi. destruct Values as [|head tail]; [simpl in Hi; lia|].
  unfold batch_bool_constant.get. f_equal. apply get_at_index_nth. simpl in Hi. lia.
Qed.

Lemma mask_range Values :
  (List.length Values <= 31)%nat ->
  0 <= batch_bool_constant.mask Values < 2 ^ Z.of_nat (List.length Values).
Proof.
  intros Hlen. rewrite mask_is_int_of_sum, packed_sum_horner.
  pose proof (horner_range Values) as Hr.
  assert (2 ^ Z.of_nat (List.length Values) <= 2 ^ 31) by (apply Z.pow_le_mono_r; lia).
  rewrite sint_small; [exact Hr | lia | simpl (32 - 1); lia].
Qed.


Lemma lane_select_constant interleave T Values true_br false_br i :
  doubles_bits interleave ->
  List.length Values = Batch.size T -> (i < Batch.size T)%nat ->
  exists r,
    Avx2.select_constant interleave T Values true_br false_br = Done r
    /\ lane (bits T) i r
       = if nth i Values false then lane (bits T) i true_br
         else lane (bits T) i false_br.
Proof.
  intros Hinter Hlen Hi. unfold Batch.size in *.
  assert (Hfallback :
    exists r,
      (cond <- batch_bool_of_constant T Values ;;
       Done (Avx2.select T cond true_br false_br)) = Done r
      /\ lane (bits T) i r
         = if nth i Values false then lane (bits T) i true_br
           else lane (bits T) i false_br).
  { rewrite batch_bool_of_constant_done by exact Hlen. cbn [bind].
    eexists. split; [reflexivity|].
    rewrite lane_select by
      (try exact Hi; rewrite lane_set_bool by exact Hi;
       destruct (nth i Values false); auto).
    rewrite lane_set_bool by exact Hi.
    pose proof (all_ones_range (bits T) (bits_pos T)).
    destruct (nth i Values false); [|reflexivity].
    destruct (Z.eqb_spec (all_ones (bits T)) 0); [lia | reflexivity]. }
  assert (H32 : forall imm,
    sizeof T = 4 ->
    Z.testbit imm (Z.of_nat i) = nth i Values false ->
    lane (bits T) i (_mm256_blend_epi32 false_br true_br imm)
    = if nth i Values false then lane (bits T) i true_br
      else lane (bits T) i false_br).
  { intros imm HT Himm. assert (bits T = 32) as -> by (unfold bits; lia).
    assert (i < 8)%nat by (destruct T; try discriminate HT; exact Hi).
    rewrite lane_blend_epi32 by assumption. now rewrite Himm. }
  unfold Avx2.select_constant.
  destruct T; cbn [sizeof]; cbv match; try exact Hfallback.
  - eexists. split; [reflexivity|]. apply H32; [reflexivity|].
    rewrite testbit_mask, Nat2Z.id by (change (batch_size int32_t) with 8%nat in Hi; lia).
    reflexivity.
  - eexists. split; [reflexivity|]. apply H32; [reflexivity|].
    rewrite testbit_mask, Nat2Z.id by (change (batch_size uint32_t) with 8%nat in Hi; lia).
    reflexivity.
  - change (batch_size int64_t) with 4%nat in *.
    eexists. split; [reflexivity|]. change (bits int64_t) with (2 * 32).
    rewrite !lane_pair, !lane_blend_epi32 by lia.
    destruct (Hinter (batch_bool_constant.mask Values) (Z.of_nat i)) as [He Ho];
      [pose proof (mask_range Values ltac:(lia)) as Hm; rewrite Hlen in Hm;
       exact Hm | lia |].
    replace (Z.of_nat (2 * i)) with (2 * Z.of_nat i) by lia.
    replace (Z.of_nat (2 * i + 1)) with (2 * Z.of_nat i + 1) by lia.
    rewrite He, Ho, testbit_mask, Nat2Z.id by lia.
    destruct (nth i Values false); reflexivity.
  - change (batch_size uint64_t) with 4%nat in *.
    eexists. split; [reflexivity|]. change (bits uint64_t) with (2 * 32).
    rewrite !lane_pair, !lane_blend_epi32 by lia.
    destruct (Hinter (batch_bool_constant.mask Values) (Z.of_nat i)) as [He Ho];
      [pose proof (mask_range Values ltac:(lia)) as Hm; rewrite Hlen in Hm;
       exact Hm | lia |].
    replace (Z.of_nat (2 * i)) with (2 * Z.of_nat i) by lia.
    replace (Z.of_nat (2 * i + 1)) with (2 * Z.of_nat i + 1) by lia.
    rewrite He, Ho, testbit_mask, Nat2Z.id by lia.
    destruct (nth i Values false); reflexivity.
Qed.

(** C7.  For every integer type [T], all batches [a], [b] and every
    lane [i]: under a run-time mask whose lanes are all zeros or all
    ones, and under a [batch_bool_constant] of [size] values,
    [select(cond, a, b).get(i)] is [cond.get(i) ? a.get(i) : b.get(i)].
    The constant kernel passes [mask()] to the dword blend for 4-byte
    lanes and [interleave(mask())] for 8-byte lanes, [interleave] being
    any function that repeats every bit of a four-lane mask. *)
Theorem select_law (interleave : Z -> Z) (T : int_type) (a b : Z) (i : nat) :
  doubles_bits interleave ->
  (i < Batch.size T)%nat ->
  (forall cond,
      BatchBool.valid T cond ->
      exists c,
        BatchBool.get T cond i = Some c
        /\ Batch.get T (Avx2.select T cond a b) i
           = if c then Batch.get T a i else Batch.get T b i)
  /\ (forall Values,
        List.length Values = Batch.size T ->
        exists c r,
          batch_bool_constant.get Values i = Some c
          /\ Avx2.select_constant interleave T Values a b = Done r
          /\ Batch.get T r i = if c then Batch.get T a i else Batch.get T b i).
Proof.
  intros Hinter Hi. split.
  - intros cond Hvalid. eexists. split; [apply bool_get_lane; exact Hi|].
    rewrite !get_lane by exact Hi.
    rewrite lane_select by (try exact Hi; apply Hvalid; exact Hi).
    destruct (lane (bits T) i cond =? 0); reflexivity.
  - intros Values Hlen.
    destruct (lane_select_constant interleave T Values a b i Hinter Hlen Hi)
      as (r & Hr & Hlane).
    exists (nth i Values false), r. split; [apply constant_get_nth; lia|].
    split; [exact Hr|].
    rewrite !get_lane by exact Hi. rewrite Hlane.
    destruct (nth i Values false); reflexivity.
Qed.

Lemma in_below n x : 0 <= x < Z.of_nat n -> In x (below n).
Proof.
  intros Hx. unfold below. apply in_map_iff. exists (Z.to_nat x).
  split; [lia|]. apply in_seq. lia.
Qed.

Lemma repeat_bits_doubles : doubles_bits repeat_bits.
Proof.
  intros m i Hm Hi.
  assert (H : forallb (fun m => forallb (fun i =>
              Bool.eqb (Z.testbit (repeat_bits m) (2 * i)) (Z.testbit m i)
              && Bool.eqb (Z.testbit (repeat_bits m) (2 * i + 1)) (Z.testbit m i))
              (below 4)) (below 16) = true) by (vm_compute; reflexivity).
  rewrite forallb_forall in H. specialize (H m (in_below 16 m Hm)).
  rewrite forallb_forall in H. specialize (H i (in_below 4 i Hi)).
  apply andb_true_iff in H as [H1 H2]. split; now apply eqb_prop.
Qed.

Lemma select_law_witness :
  (exists c,
     BatchBool.get int64_t (Avx.set_bool int64_t [true; false; true; false]) 1
     = Some c
     /\ Batch.get int64_t
          (Avx2.select int64_t (Avx.set_bool int64_t [true; false; true; false])
             (Avx.set int64_t [1; 2; 3; 4]) (Avx.set int64_t [-1; -2; -3; -4])) 1
        = if c then Batch.get int64_t (Avx.set int64_t [1; 2; 3; 4]) 1
          else Batch.get int64_t (Avx.set int64_t [-1; -2; -3; -4]) 1)
  /\ (exists c r,
        batch_bool_constant.get [true; false; true; false] 1 = Some c
        /\ Avx2.select_constant repeat_bits int64_t [true; false; true; false]
             (Avx.set int64_t [1; 2; 3; 4]) (Avx.set int64_t [-1; -2; -3; -4])
           = Done r
        /\ Batch.get int64_t r 1
           = if c then Batch.get int64_t (Avx.set int64_t [1; 2; 3; 4]) 1
             else Batch.get int64_t (Avx.set int64_t [-1; -2; -3; -4]) 1).
Proof.
  destruct (select_law repeat_bits int64_t
              (Avx.set int64_t [1; 2; 3; 4]) (Avx.set int64_t [-1; -2; -3; -4]) 1)
    as [Hrun Hconst]; [exact repeat_bits_doubles | vm_compute; lia |].
  split.
  - apply Hrun. intros i Hi.
    do 4 (destruct i as [|i]; [vm_compute; auto|]).
    vm_compute in Hi. lia.
  - apply Hconst. reflexivity.
Defined.

(** ** The signed view of an offset batch *)

Lemma static_cast_make_unsigned T x : static_cast (make_unsigned T) x = wrap (bits T) x.
Proof. now destruct T. Qed.

(** C9.  For every integer batch [b] wrapped by
    [allow_signed_conversion] and every lane [i]: [get(i)] is [b.get(i)]
    converted to the unsigned type, which is the bit pattern of lane [i];
    the signed batch is [b] itself, reinterpreted; and lane [i] of the
    signed batch and [get(i)] have the same [bits T] bits. *)
Theorem signed_view_same_bits (T : int_type) (b : Z) (i : nat) :
  (i < Batch.size T)%nat ->
  exists x u s,
    Batch.get T b i = Some x
    /\ allow_signed_conversion.get T b i = Some u
    /\ Batch.get (make_signed T) (allow_signed_conversion.to_signed_batch T b) i
       = Some s
    /\ allow_signed_conversion.to_signed_batch T b = b
    /\ u = static_cast (make_unsigned T) x
    /\ u = lane (bits T) i b
    /\ s = static_cast (make_signed T) u
    /\ forall n, 0 <= n < bits T -> Z.testbit u n = Z.testbit s n.
Proof.
  intros Hi. pose proof (bits_pos T) as Hw.
  assert (Hi' : (i < Batch.size (make_signed T))%nat)
    by (unfold Batch.size; rewrite size_make_signed; exact Hi).
  exists (static_cast T (lane (bits T) i b)), (lane (bits T) i b),
    (sint (bits T) (lane (bits T) i b)).
  unfold allow_signed_conversion.get, allow_signed_conversion.to_signed_batch,
    Avx.bitwise_cast.
  rewrite !get_lane by assumption. cbn [option_map].
  rewrite !static_cast_make_unsigned, static_cast_make_signed, bits_make_signed.
  rewrite wrap_static_cast, wrap_lane by lia.
  repeat split.
  - now rewrite static_cast_make_signed.
  - intros n Hn. rewrite testbit_sint by lia. f_equal. lia.
Qed.

Lemma signed_view_same_bits_witness :
  exists x u s,
    Batch.get int16_t (Avx.set int16_t [7; -3]) 1 = Some x
    /\ GatherUtils.allow_signed_conversion.get int16_t (Avx.set int16_t [7; -3]) 1
       = Some u
    /\ Batch.get int16_t
         (GatherUtils.allow_signed_conversion.to_signed_batch int16_t
            (Avx.set int16_t [7; -3])) 1 = Some s
    /\ u = 65533 /\ s = -3.
Proof.
  destruct (signed_view_same_bits int16_t (Avx.set int16_t [7; -3]) 1)
    as (x & u & s & Hx & Hu & Hs & _ & _ & Hlane & Hsu & _); [vm_compute; lia|].
  exists x, u, s. repeat split; try assumption.
  rewrite Hsu, Hlane. vm_compute. reflexivity.
Defined.

(** ** Storing and loading a boolean batch *)

Lemma set1_minus_one : _mm256_set1_epi32 (-1) = all_ones 256.
Proof. vm_compute. reflexivity. Qed.

Lemma lane_all_ones_256 w i :
  0 < w -> w * (Z.of_nat i + 1) <= 256 -> lane w i (all_ones 256) = all_ones w.
Proof.
  intros Hw Hi. apply Z.bits_inj'. intros n Hn.
  rewrite testbit_lane by lia.
  destruct (Z.ltb_spec n w).
  - rewrite !testbit_all_ones by lia. reflexivity.
  - unfold all_ones at 2. replace (2 ^ w - 1) with (Z.ones w) by (rewrite Z.ones_equiv; lia).
    rewrite Z.ones_spec_high by lia. reflexivity.
Qed.

Lemma lane_bitwise_not T self i :
  (i < Batch.size T)%nat ->
  lane (bits T) i (Avx2.bitwise_not self)
  = Z.lxor (lane (bits T) i self) (all_ones (bits T)).
Proof.
  intros Hi. pose proof (bits_pos T). unfold Avx2.bitwise_not, _mm256_xor_si256.
  rewrite set1_minus_one, lane_lxor by lia. f_equal.
  apply lane_all_ones_256; [lia|]. unfold bits. apply size_bound. exact Hi.
Qed.

Lemma lane_neq T self other i :
  (i < Batch.size T)%nat ->
  lane (bits T) i (Batch.operator_ne T self other)
  = if lane (bits T) i self =? lane (bits T) i other
    then 0 else all_ones (bits T).
Proof.
  intros Hi. unfold Batch.operator_ne, Generic.neq.
  rewrite lane_bitwise_not, lane_eq by exact Hi.
  destruct (lane (bits T) i self =? lane (bits T) i other).
  - apply Z.lxor_nilpotent.
  - apply Z.lxor_0_l.
Qed.

Lemma lane_load_aligned T mem i :
  (i < BatchBool.size T)%nat ->
  lane (bits T) i (BatchBool.load_aligned T mem)
  = if mem i =? 0 then 0 else all_ones (bits T).
Proof.
  intros Hi. pose proof (bits_pos T) as Hw. unfold BatchBool.load_aligned.
  rewrite lane_neq by exact Hi.
  rewrite lane_batch_of_value by exact Hi.
  unfold Batch.load_aligned, Avx.load_aligned.
  rewrite lane_build by (try lia; apply size_lt; exact Hi).
  unfold pointer_to.
  rewrite nth_indep with (d' := if mem 0%nat =? 0 then 0 else 1)
    by (now rewrite length_map, length_seq).
  rewrite (map_nth (fun i => if mem i =? 0 then 0 else 1)), seq_nth by exact Hi.
  cbn [Nat.add]. change (wrap (bits T) 0) with 0.
  assert (2 <= 2 ^ bits T).
  { pose proof (pow2_double (bits T) Hw). pose proof (pow2_pos (bits T - 1)). lia. }
  destruct (mem i =? 0).
  - reflexivity.
  - rewrite wrap_small by lia. reflexivity.
Qed.

Lemma nth_store T self i :
  (i < BatchBool.size T)%nat ->
  nth_error (BatchBool.store_aligned T self) i
  = Some (if lane (bits T) i self =? 0 then 0 else 1).
Proof.
  intros Hi. unfold BatchBool.store_aligned, Avx.store.
  rewrite nth_error_map, nth_error_seq.
  unfold BatchBool.size in Hi. destruct (Nat.ltb_spec i (batch_size T)); [reflexivity | lia].
Qed.

(** C10.  For every boolean batch [b] whose lanes are all zeros or all
    ones and every lane [i]: loading what [store_aligned] wrote gives
    back lane [i] of [b] and the same [get(i)], and the array holds
    [b.get(i)] at index [i].  For any [bool] array, [load_aligned] yields
    valid lanes, lane [i] being true exactly when byte [i] is non-zero. *)
Theorem batch_bool_store_load (T : int_type) (i : nat) :
  (i < BatchBool.size T)%nat ->
  (forall b,
      BatchBool.valid T b ->
      let stored := BatchBool.store_aligned T b in
      let loaded := BatchBool.load_aligned T (pointer_to stored) in
      lane (bits T) i loaded = lane (bits T) i b
      /\ BatchBool.get T loaded i = BatchBool.get T b i
      /\ exists c,
           BatchBool.get T b i = Some c
           /\ nth_error stored i = Some (if c then 1 else 0))
  /\ (forall mem,
        BatchBool.valid T (BatchBool.load_aligned T mem)
        /\ BatchBool.get T (BatchBool.load_aligned T mem) i
           = Some (negb (mem i =? 0))).
Proof.
  intros Hi. pose proof (all_ones_range (bits T) (bits_pos T)) as Hones. split.
  - intros b Hvalid stored loaded.
    assert (Hlane : lane (bits T) i loaded = lane (bits T) i b).
    { unfold loaded. rewrite lane_load_aligned by exact Hi.
      unfold pointer_to, stored.
      rewrite (nth_error_nth _ _ _ (nth_store T b i Hi)).
      destruct (Hvalid i Hi) as [-> | ->].
      - reflexivity.
      - destruct (Z.eqb_spec (all_ones (bits T)) 0); [lia | reflexivity]. }
    split; [exact Hlane|]. split.
    + rewrite !bool_get_lane by exact Hi. now rewrite Hlane.
    + eexists. split; [apply bool_get_lane; exact Hi|].
      unfold stored. rewrite nth_store by exact Hi.
      destruct (lane (bits T) i b =? 0); reflexivity.
  - intros mem. split.
    + intros k Hk. rewrite lane_load_aligned by exact Hk.
      destruct (mem k =? 0); auto.
    + rewrite bool_get_lane, lane_load_aligned by exact Hi.
      destruct (mem i =? 0); [reflexivity|].
      destruct (Z.eqb_spec (all_ones (bits T)) 0); [lia | reflexivity].
Qed.

Lemma batch_bool_store_load_witness :
  BatchBool.get int32_t
    (BatchBool.load_aligned int32_t
       (pointer_to (BatchBool.store_aligned int32_t
                      (Avx.set_bool int32_t [true; false; true; true])))) 2
  = BatchBool.get int32_t (Avx.set_bool int32_t [true; false; true; true]) 2.
Proof.
  destruct (batch_bool_store_load int32_t 2) as [Hround _]; [vm_compute; lia|].
  apply (Hround (Avx.set_bool int32_t [true; false; true; true])).
  intros i Hi.
  do 8 (destruct i as [|i]; [vm_compute; auto|]).
  vm_compute in Hi. lia.
Defined.

(** ** Complex multiplication *)

Section ComplexMul.

Variable R : Type.
Variables add sub mul : R -> R -> R.

Lemma nth_error_lanewise (op : R -> R -> R) x y i a b :
  nth_error x i = Some a -> nth_error y i = Some b ->
  nth_error (ComplexBatch.lanewise R op x y) i = Some (op a b).
Proof.
  unfold ComplexBatch.lanewise. revert y i.
  induction x as [|x0 x IH]; intros y i Hx Hy; [destruct i; discriminate|].
  destruct y as [|y0 y]; [destruct i; discriminate|].
  destruct i as [|i]; cbn in *.
  - now injection Hx as ->; injection Hy as ->.
  - now apply IH.
Qed.

End ComplexMul.

(** C8.  For all complex batches with parts [(a, b)] and [(c, d)],
    the product has real part [a*c - b*d] and imaginary part [a*d + b*c]
    in every lane, over any scalar arithmetic applied lane by lane; and
    in double precision
    [(real=[1,2], imag=[3,4]) * (real=[5,6], imag=[7,8])] is
    [(real=[-16,-20], imag=[22,40])]. *)
Theorem complex_mul_lanes :
  (forall (R : Type) (add sub mul : R -> R -> R)
          (x y : ComplexBatch.batch R) (i : nat) (a b c d : R),
      nth_error (ComplexBatch.real R x) i = Some a ->
      nth_error (ComplexBatch.imag R x) i = Some b ->
      nth_error (ComplexBatch.real R y) i = Some c ->
      nth_error (ComplexBatch.imag R y) i = Some d ->
      let z := ComplexBatch.operator_mul R add sub mul x y in
      nth_error (ComplexBatch.real R z) i = Some (sub (mul a c) (mul b d))
      /\ nth_error (ComplexBatch.imag R z) i = Some (add (mul a d) (mul b c)))
  /\ ComplexBatch.operator_mul float PrimFloat.add PrimFloat.sub PrimFloat.mul
       {| ComplexBatch.m_real := [1%float; 2%float];
          ComplexBatch.m_imag := [3%float; 4%float] |}
       {| ComplexBatch.m_real := [5%float; 6%float];
          ComplexBatch.m_imag := [7%float; 8%float] |}
     = {| ComplexBatch.m_real := [(-16)%float; (-20)%float];
          ComplexBatch.m_imag := [22%float; 40%float] |}.
Proof.
  split; [|vm_compute; reflexivity].
  intros R add sub mul x y i a b c d Ha Hb Hc Hd z.
  unfold z, ComplexBatch.operator_mul, ComplexBatch.operator_mul_assign.
  cbn [ComplexBatch.real ComplexBatch.imag ComplexBatch.m_real ComplexBatch.m_imag].
  split; repeat apply nth_error_lanewise; assumption.
Qed.

Lemma complex_mul_lanes_witness :
  let z := ComplexBatch.operator_mul float PrimFloat.add PrimFloat.sub PrimFloat.mul
             {| ComplexBatch.m_real := [1%float; 2%float];
                ComplexBatch.m_imag := [3%float; 4%float] |}
             {| ComplexBatch.m_real := [5%float; 6%float];
                ComplexBatch.m_imag := [7%float; 8%float] |} in
  nth_error (ComplexBatch.real float z) 1
  = Some (PrimFloat.sub (PrimFloat.mul 2 6) (PrimFloat.mul 4 8))
  /\ nth_error (ComplexBatch.imag float z) 1
     = Some (PrimFloat.add (PrimFloat.mul 2 8) (PrimFloat.mul 4 6)).
Proof.
  apply (proj1 complex_mul_lanes float PrimFloat.add PrimFloat.sub PrimFloat.mul
           {| ComplexBatch.m_real := [1%float; 2%float];
              ComplexBatch.m_imag := [3%float; 4%float] |}
           {| ComplexBatch.m_real := [5%float; 6%float];
              ComplexBatch.m_imag := [7%float; 8%float] |}
           1%nat 2%float 4%float 6%float 8%float); reflexivity.
Defined.

(** ** Construction from a lane list *)

(** C5 (what the two constructors do).  The constructor of [batch]
    from a lane list stops on the assertion whenever the list length
    differs from [size]; the constructor of [batch_bool] has no assertion
    and always builds a value: nine booleans for eight lanes lose the
    ninth, three booleans for four lanes are padded with whatever
    follows them in memory. *)
Theorem initializer_list_length :
  (forall T data,
      il_size data <> Batch.size T ->
      batch_of_initializer_list T data = AssertionFailure "consistent initialization")
  /\ (forall T data,
        batch_bool_of_initializer_list T data
        = Done (batch_bool_of_pointer T (il_begin data)))
  /\ (forall past,
        batch_bool_of_initializer_list int32_t
          (braces [true; false; true; false; true; false; true; false; true] past)
        = Done (Avx.set_bool int32_t
                  [true; false; true; false; true; false; true; false]))
  /\ (forall past,
        batch_bool_of_initializer_list int64_t (braces [true; true; true] past)
        = Done (Avx.set_bool int64_t [true; true; true; past 0%nat])).
Proof.
  split; [|split; [|split]].
  - intros T data Hsize. unfold batch_of_initializer_list.
    destruct (Nat.eqb_spec (il_size data) (batch_size T)); [contradiction | reflexivity].
  - reflexivity.
  - reflexivity.
  - reflexivity.
Qed.

Lemma initializer_list_length_witness :
  batch_of_initializer_list int32_t
    (braces [0; 1; 2; 3; 4; 5; 6; 7; 8] (fun _ => 0))
  = AssertionFailure "consistent initialization".
Proof.
  apply (proj1 initializer_list_length int32_t). vm_compute. discriminate.
Defined.

(** * Further properties of the kernels *)

(** ** Sums and differences *)

Lemma wrap_add w x y : 0 <= w -> wrap w (wrap w x + wrap w y) = wrap w (x + y).
Proof.
  intros. unfold wrap. symmetry. apply Z.add_mod. pose proof (pow2_pos w); lia.
Qed.

Lemma wrap_sub w x y : 0 <= w -> wrap w (wrap w x - wrap w y) = wrap w (x - y).
Proof.
  intros. unfold wrap. symmetry. apply Zminus_mod.
Qed.

Lemma static_cast_add T x y :
  static_cast T (static_cast T x + static_cast T y) = static_cast T (x + y).
Proof.
  pose proof (bits_pos T). apply static_cast_congr.
  rewrite <- wrap_add, !wrap_static_cast by lia. apply wrap_add. lia.
Qed.

Lemma static_cast_sub T x y :
  static_cast T (static_cast T x - static_cast T y) = static_cast T (x - y).
Proof.
  pose proof (bits_pos T). apply static_cast_congr.
  rewrite <- wrap_sub, !wrap_static_cast by lia. apply wrap_sub. lia.
Qed.

Lemma static_cast_add_sub T x y :
  static_cast T (static_cast T (x + y) - y) = static_cast T x.
Proof.
  pose proof (bits_pos T). apply static_cast_congr.
  rewrite <- (wrap_sub _ (static_cast T (x + y)) y), wrap_static_cast by lia.
  rewrite wrap_sub by lia. f_equal. ring.
Qed.

Lemma static_cast_sub_add T x y :
  static_cast T (static_cast T (x - y) + y) = static_cast T x.
Proof.
  pose proof (bits_pos T). apply static_cast_congr.
  rewrite <- (wrap_add _ (static_cast T (x - y)) y), wrap_static_cast by lia.
  rewrite wrap_add by lia. f_equal. ring.
Qed.

Lemma static_cast_idem T x : static_cast T (static_cast T x) = static_cast T x.
Proof. apply static_cast_congr, wrap_static_cast. Qed.

Lemma lane_add avx_add T self other i :
  (i < Batch.size T)%nat ->
  lane (bits T) i (Avx2.add avx_add T self other)
  = wrap (bits T) (lane (bits T) i self + lane (bits T) i other).
Proof.
  intros Hi. apply size_lt in Hi. unfold Avx2.add.
  destruct T; cbn [sizeof]; cbv match;
    unfold _mm256_add_epi8, _mm256_add_epi16, _mm256_add_epi32, _mm256_add_epi64,
      add_epi;
    (rewrite lane_build; [reflexivity | reflexivity | exact Hi]).
Qed.

Lemma lane_sub avx_sub T self other i :
  (i < Batch.size T)%nat ->
  lane (bits T) i (Avx2.sub avx_sub T self other)
  = wrap (bits T) (lane (bits T) i self - lane (bits T) i other).
Proof.
  intros Hi. apply size_lt in Hi. unfold Avx2.sub.
  destruct T; cbn [sizeof]; cbv match;
    unfold _mm256_sub_epi8, _mm256_sub_epi16, _mm256_sub_epi32, _mm256_sub_epi64,
      sub_epi;
    (rewrite lane_build; [reflexivity | reflexivity | exact Hi]).
Qed.

Lemma lane_value_representable T r i : representable T (lane_value T r i).
Proof. apply representable_static_cast. Qed.

Lemma lane_value_add avx_add T self other i :
  (i < Batch.size T)%nat ->
  lane_value T (Avx2.add avx_add T self other) i
  = static_cast T (lane_value T self i + lane_value T other i).
Proof.
  intros Hi. unfold lane_value.
  now rewrite lane_add, static_cast_wrap, static_cast_add by exact Hi.
Qed.

Lemma lane_value_sub avx_sub T self other i :
  (i < Batch.size T)%nat ->
  lane_value T (Avx2.sub avx_sub T self other) i
  = static_cast T (lane_value T self i - lane_value T other i).
Proof.
  intros Hi. unfold lane_value.
  now rewrite lane_sub, static_cast_wrap, static_cast_sub by exact Hi.
Qed.

(** X1.  For every integer type, [a + b] and [a - b] hold in each lane
    the sum and the difference of the two lanes brought back into the
    type by wraparound, whatever the parent tier does; subtracting what
    was added, or adding what was subtracted, gives back every lane of
    [a]. *)
Theorem add_sub_wraparound
        (avx_add avx_sub : int_type -> Z -> Z -> Z)
        (T : int_type) (a b : Z) (i : nat) :
  (i < Batch.size T)%nat ->
  lane_value T (Batch.operator_add avx_add T a b) i
  = static_cast T (lane_value T a i + lane_value T b i)
  /\ lane_value T (Batch.operator_sub avx_sub T a b) i
     = static_cast T (lane_value T a i - lane_value T b i)
  /\ lane_value T
       (Batch.operator_sub avx_sub T (Batch.operator_add avx_add T a b) b) i
     = lane_value T a i
  /\ lane_value T
       (Batch.operator_add avx_add T (Batch.operator_sub avx_sub T a b) b) i
     = lane_value T a i.
Proof.
  intros Hi.
  unfold Batch.operator_add, Batch.operator_add_assign,
    Batch.operator_sub, Batch.operator_sub_assign.
  rewrite !lane_value_sub, !lane_value_add, !lane_value_sub by exact Hi.
  repeat split.
  - rewrite static_cast_add_sub. apply static_cast_idem.
  - rewrite static_cast_sub_add. apply static_cast_idem.
Qed.

Lemma add_sub_wraparound_witness :
  lane_value int8_t
    (Batch.operator_add (fun _ _ _ => 0) int8_t
       (Avx.set int8_t [100; -3]) (Avx.set int8_t [100; 7])) 0
  = -56.
Proof.
  destruct (add_sub_wraparound (fun _ _ _ => 0) (fun _ _ _ => 0) int8_t
              (Avx.set int8_t [100; -3]) (Avx.set int8_t [100; 7]) 0)
    as (Hadd & _); [vm_compute; lia|].
  rewrite Hadd. vm_compute. reflexivity.
Defined.

(** ** Steps *)

Lemma static_cast_succ T x :
  representable T x ->
  static_cast T (x + 1) = if x =? max_value T then min_value T else x + 1.
Proof.
  intros Hx. destruct (Z.eqb_spec x (max_value T)) as [->|Hne].
  - destruct T; vm_compute; reflexivity.
  - apply static_cast_representable.
    destruct T; cbv [representable max_value is_signed bits sizeof] in *;
      simpl in *; lia.
Qed.

Lemma static_cast_pred T x :
  representable T x ->
  static_cast T (x - 1) = if x =? min_value T then max_value T else x - 1.
Proof.
  intros Hx. destruct (Z.eqb_spec x (min_value T)) as [->|Hne].
  - destruct T; vm_compute; reflexivity.
  - apply static_cast_representable.
    destruct T; cbv [representable min_value is_signed bits sizeof] in *;
      simpl in *; lia.
Qed.

Lemma lane_value_one T i :
  (i < Batch.size T)%nat -> lane_value T (batch_of_value T 1) i = 1.
Proof.
  intros Hi. unfold lane_value.
  rewrite lane_batch_of_value, static_cast_wrap by exact Hi.
  destruct T; vm_compute; reflexivity.
Qed.

(** X2.  [++x] adds one to every lane and [--x] takes one away; the
    largest number of the type steps to the smallest and back.  [--]
    undoes [++], and the postfix forms hand back the batch as it was
    while moving it the same step. *)
Theorem increment_steps
        (avx_add avx_sub : int_type -> Z -> Z -> Z)
        (T : int_type) (x : Z) (i : nat) :
  (i < Batch.size T)%nat ->
  lane_value T (Batch.operator_pre_inc avx_add T x) i
  = (if lane_value T x i =? max_value T then min_value T
     else lane_value T x i + 1)
  /\ lane_value T (Batch.operator_pre_dec avx_sub T x) i
     = (if lane_value T x i =? min_value T then max_value T
        else lane_value T x i - 1)
  /\ lane_value T
       (Batch.operator_pre_dec avx_sub T (Batch.operator_pre_inc avx_add T x)) i
     = lane_value T x i
  /\ Batch.operator_post_inc avx_add T x
     = (x, Batch.operator_pre_inc avx_add T x)
  /\ Batch.operator_post_dec avx_sub T x
     = (x, Batch.operator_pre_dec avx_sub T x).
Proof.
  intros Hi.
  unfold Batch.operator_pre_inc, Batch.operator_pre_dec,
    Batch.operator_post_inc, Batch.operator_post_dec,
    Batch.operator_add_assign, Batch.operator_sub_assign.
  rewrite !lane_value_sub, !lane_value_add, !lane_value_one by exact Hi.
  repeat split.
  - apply static_cast_succ, lane_value_representable.
  - apply static_cast_pred, lane_value_representable.
  - rewrite static_cast_add_sub. apply static_cast_idem.
Qed.

Lemma increment_steps_witness :
  lane_value int8_t
    (Batch.operator_pre_inc (fun _ _ _ => 0) int8_t (Avx.set int8_t [127; 5])) 0
  = -128.
Proof.
  destruct (increment_steps (fun _ _ _ => 0) (fun _ _ _ => 0) int8_t
              (Avx.set int8_t [127; 5]) 0) as (Hinc & _); [vm_compute; lia|].
  rewrite Hinc. vm_compute. reflexivity.
Defined.

(** ** Absolute value *)

Lemma sint_abs w x :
  0 < w -> - 2 ^ (w - 1) <= x < 2 ^ (w - 1) ->
  sint w (Z.abs x) = if x =? - 2 ^ (w - 1) then x else Z.abs x.
Proof.
  intros Hw Hx. pose proof (pow2_double w Hw) as Hd.
  destruct (Z.eqb_spec x (- 2 ^ (w - 1))) as [->|Hne].
  - rewrite Z.abs_opp, Z.abs_eq by lia.
    destruct (sint_cases w (2 ^ (w - 1)) Hw) as [[E R]|[E R]];
      rewrite wrap_small in * by lia; lia.
  - apply sint_small; lia.
Qed.

Lemma lane_abs_epi w a i :
  0 < w -> (i < nlanes w)%nat ->
  lane w i (abs_epi w a) = wrap w (Z.abs (sint w (lane w i a))).
Proof. intros. unfold abs_epi. now rewrite lane_build. Qed.

(** X3.  For a signed type of 1, 2 or 4 bytes, [abs] holds in each lane
    the absolute value of the lane, except that the smallest number of
    the type, which has no positive counterpart, stays as it is; for
    every unsigned type [abs] returns its argument. *)
Theorem abs_lanes (avx_abs : int_type -> Z -> Z) (T : int_type) (self : Z) (i : nat) :
  (i < Batch.size T)%nat ->
  (is_signed T = false -> Avx2.abs avx_abs T self = self)
  /\ (is_signed T = true -> sizeof T <> 8 ->
      lane_value T (Avx2.abs avx_abs T self) i
      = if lane_value T self i =? min_value T then lane_value T self i
        else Z.abs (lane_value T self i)).
Proof.
  intros Hi. apply size_lt in Hi. split.
  - intros Hs. unfold Avx2.abs. now rewrite Hs.
  - intros Hs H8. pose proof (bits_pos T) as Hw.
    assert (Hl : lane (bits T) i (Avx2.abs avx_abs T self)
                 = wrap (bits T) (Z.abs (sint (bits T) (lane (bits T) i self)))).
    { unfold Avx2.abs.
      destruct T; try discriminate Hs; try (exfalso; apply H8; reflexivity);
        cbn [is_signed sizeof]; cbv match;
        unfold _mm256_abs_epi8, _mm256_abs_epi16, _mm256_abs_epi32;
        apply lane_abs_epi; (reflexivity || exact Hi). }
    unfold lane_value. rewrite Hl, static_cast_wrap.
    unfold static_cast, min_value. rewrite Hs.
    apply sint_abs; [exact Hw | apply sint_range; exact Hw].
Qed.

Lemma abs_lanes_witness :
  lane_value int8_t
    (Avx2.abs (fun _ r => r) int8_t (Avx.set int8_t [-128; -5])) 1 = 5.
Proof.
  destruct (abs_lanes (fun _ r => r) int8_t (Avx.set int8_t [-128; -5]) 1)
    as [_ H]; [vm_compute; lia|].
  rewrite H; [vm_compute; reflexivity | reflexivity | discriminate].
Defined.

(** ** Horizontal sum *)

Lemma lane_of_part w W i j h r :
  0 < w -> w * (Z.of_nat i + 1) <= W ->
  w * Z.of_nat j = W * Z.of_nat h + w * Z.of_nat i ->
  lane w i (lane W h r) = lane w j r.
Proof.
  intros Hw Hi Hj. apply Z.bits_inj'. intros n Hn.
  rewrite !testbit_lane by lia.
  destruct (Z.ltb_spec n w) as [Hlt|Hge]; [|reflexivity].
  cbn [andb].
  replace (w * Z.of_nat i + n <? W) with true
    by (symmetry; apply Z.ltb_lt; nia).
  cbn [andb]. f_equal. lia.
Qed.

Lemma lane_build128 w f i :
  0 < w -> lane w i (build128 w f) = wrap w (nth i (map f (seq 0 (Z.to_nat (128 / w)))) 0).
Proof. intros. unfold build128. now apply lane_of_lanes. Qed.

Lemma wrap_add_l w x y : 0 <= w -> wrap w (wrap w x + y) = wrap w (x + y).
Proof.
  intros. unfold wrap. apply Z.add_mod_idemp_l. pose proof (pow2_pos w); lia.
Qed.

Lemma wrap_add_r w x y : 0 <= w -> wrap w (x + wrap w y) = wrap w (x + y).
Proof.
  intros. unfold wrap. apply Z.add_mod_idemp_r. pose proof (pow2_pos w); lia.
Qed.

Lemma wrap_add_cast_l T x y :
  wrap (bits T) (static_cast T x + y) = wrap (bits T) (x + y).
Proof.
  pose proof (bits_pos T).
  rewrite <- wrap_add_l, wrap_static_cast, wrap_add_l by lia. reflexivity.
Qed.

Lemma wrap_add_cast_r T x y :
  wrap (bits T) (x + static_cast T y) = wrap (bits T) (x + y).
Proof.
  pose proof (bits_pos T).
  rewrite <- wrap_add_r, wrap_static_cast, wrap_add_r by lia. reflexivity.
Qed.

Lemma wrap_sum_cast T (f : nat -> Z) l :
  wrap (bits T) (fold_right Z.add 0 (map (fun i => static_cast T (f i)) l))
  = wrap (bits T) (fold_right Z.add 0 (map f l)).
Proof.
  pose proof (bits_pos T). induction l as [|a l IH]; [reflexivity|].
  cbn [map fold_right]. rewrite wrap_add_cast_l.
  rewrite <- wrap_add_r, IH, wrap_add_r by lia. reflexivity.
Qed.

Lemma wrap_lanes_sum T self :
  wrap (bits T) (lanes_sum T self)
  = wrap (bits T)
      (fold_right Z.add 0
         (map (fun i => lane (bits T) i self) (seq 0 (batch_size T)))).
Proof. unfold lanes_sum, lane_value. apply wrap_sum_cast. Qed.

Lemma wrap_add4 w a b c d :
  0 <= w ->
  wrap w (wrap w (wrap w a + wrap w b) + wrap w (wrap w c + wrap w d))
  = wrap w (a + b + (c + d)).
Proof.
  intros. rewrite (wrap_add w a b), (wrap_add w c d) by lia.
  apply wrap_add. lia.
Qed.

Lemma hadd_32 (avx_hadd : int_type -> Z -> Z) T self :
  sizeof T = 4 ->
  Avx2.hadd avx_hadd T self = static_cast T (lanes_sum T self).
Proof.
  intros H4. unfold Avx2.hadd. rewrite H4. cbv zeta.
  assert (Hb : bits T = 32) by (unfold bits; lia).
  assert (Hn : batch_size T = 8%nat)
    by (unfold batch_size, sizeof_simd_register; rewrite H4; reflexivity).
  apply static_cast_congr. rewrite wrap_lanes_sum, Hb, Hn.
  unfold _mm_cvtsi128_si32. rewrite wrap_sint by lia.
  rewrite wrap_lane by lia.
  unfold _mm_add_epi32. rewrite lane_build128 by lia.
  change (nth 0 (map ?f (seq 0 (Z.to_nat (128 / 32)))) 0) with (f 0%nat).
  cbv beta.
  unfold _mm256_castsi256_si128, _mm256_extracti128_si256.
  change (Z.to_nat (1 mod 2)) with 1%nat.
  rewrite (lane_of_part 32 128 0 0 0), (lane_of_part 32 128 0 4 1) by lia.
  rewrite !lane_hadd_epi32 by lia.
  cbn [Nat.div Nat.modulo Nat.divmod Nat.mul Nat.add fst snd Nat.sub].
  cbv zeta.
  rewrite !lane_hadd_epi32 by lia.
  cbn [Nat.div Nat.modulo Nat.divmod Nat.mul Nat.add fst snd Nat.sub].
  cbv zeta.
  rewrite wrap_add4 by lia.
  cbn [seq map fold_right]. f_equal. ring.
Qed.

Lemma lane_add_epi64 a b j :
  (j < 4)%nat ->
  lane 64 j (_mm256_add_epi64 a b) = wrap 64 (lane 64 j a + lane 64 j b).
Proof. intros. unfold _mm256_add_epi64. now rewrite lane_build. Qed.

Lemma hadd_64 (avx_hadd : int_type -> Z -> Z) T self :
  sizeof T = 8 ->
  Avx2.hadd avx_hadd T self = static_cast T (lanes_sum T self).
Proof.
  intros H8. unfold Avx2.hadd. rewrite H8. cbv zeta.
  assert (Hb : bits T = 64) by (unfold bits; lia).
  assert (Hn : batch_size T = 4%nat)
    by (unfold batch_size, sizeof_simd_register; rewrite H8; reflexivity).
  apply static_cast_congr. rewrite wrap_lanes_sum, Hb, Hn.
  unfold _mm_cvtsi128_si64. rewrite wrap_sint by lia.
  rewrite wrap_lane by lia.
  unfold _mm_add_epi64. rewrite lane_build128 by lia.
  change (nth 0 (map ?f (seq 0 (Z.to_nat (128 / 64)))) 0) with (f 0%nat).
  cbv beta.
  unfold _mm256_castsi256_si128, _mm256_extracti128_si256.
  change (Z.to_nat (1 mod 2)) with 1%nat.
  rewrite (lane_of_part 64 128 0 0 0), (lane_of_part 64 128 0 2 1) by lia.
  rewrite !lane_add_epi64 by lia.
  rewrite !(lane_pair 32) by lia.
  rewrite !lane_shuffle_epi32 by lia.
  cbn [Nat.div Nat.modulo Nat.divmod Nat.mul Nat.add fst snd Nat.sub].
  change (Z.to_nat (Z.land (Z.shiftr 14 (2 * Z.of_nat 0)) 3)) with 2%nat.
  change (Z.to_nat (Z.land (Z.shiftr 14 (2 * Z.of_nat 1)) 3)) with 3%nat.
  cbn [Nat.add].
  rewrite wrap_add by lia.
  cbn [seq map fold_right]. change 64 with (2 * 32) at 2 3 4 5.
  rewrite !(lane_pair 32) by lia.
  cbn [Nat.mul Nat.add]. f_equal. ring.
Qed.

(** X4.  For a type of 4 or 8 bytes, [hadd] returns the sum of all the
    lanes of the batch, brought back into the type by wraparound. *)
Theorem hadd_sums_lanes (avx_hadd : int_type -> Z -> Z) (T : int_type) (self : Z) :
  sizeof T = 4 \/ sizeof T = 8 ->
  Avx2.hadd avx_hadd T self = static_cast T (lanes_sum T self).
Proof. intros [H|H]; [now apply hadd_32 | now apply hadd_64]. Qed.

Lemma hadd_sums_lanes_witness :
  Avx2.hadd (fun _ _ => 0) int32_t
    (Avx.set int32_t [1; 2; 3; 4; 5; 6; 7; -100]) = -72.
Proof.
  rewrite (hadd_sums_lanes (fun _ _ => 0) int32_t
             (Avx.set int32_t [1; 2; 3; 4; 5; 6; 7; -100])) by (left; reflexivity).
  vm_compute. reflexivity.
Defined.

(** ** Shifts *)

Lemma lane_slli w a k i :
  0 < w <= 64 -> 0 <= k < w -> (i < nlanes w)%nat ->
  lane w i (slli w a k) = wrap w (lane w i a * 2 ^ k).
Proof.
  intros Hw Hk Hi. unfold slli. rewrite lane_build by lia.
  rewrite Z.mod_small by lia.
  destruct (Z.gtb_spec k (w - 1)); [lia|].
  now rewrite Z.shiftl_mul_pow2 by lia.
Qed.

Lemma lane_lshift avx_lshift T self k i :
  sizeof T <> 1 -> 0 <= k < bits T -> (i < Batch.size T)%nat ->
  lane (bits T) i (Avx2.bitwise_lshift avx_lshift T self k)
  = wrap (bits T) (lane (bits T) i self * 2 ^ k).
Proof.
  intros H1 Hk Hi. apply size_lt in Hi. unfold Avx2.bitwise_lshift.
  destruct T; try (exfalso; apply H1; reflexivity);
    cbn [sizeof]; cbv match;
    unfold _mm256_slli_epi16, _mm256_slli_epi32, _mm256_slli_epi64;
    (apply lane_slli; [cbv; intuition discriminate | exact Hk | exact Hi]).
Qed.

Lemma static_cast_mul_l T x y :
  static_cast T (static_cast T x * y) = static_cast T (x * y).
Proof.
  pose proof (bits_pos T). apply static_cast_congr.
  unfold wrap. rewrite <- Z.mul_mod_idemp_l by (pose proof (pow2_pos (bits T)); lia).
  fold (wrap (bits T) (static_cast T x)). rewrite wrap_static_cast.
  unfold wrap. rewrite Z.mul_mod_idemp_l by (pose proof (pow2_pos (bits T)); lia).
  reflexivity.
Qed.

Lemma lane_value_lshift avx_lshift T self k i :
  sizeof T <> 1 -> 0 <= k < bits T -> (i < Batch.size T)%nat ->
  lane_value T (Avx2.bitwise_lshift avx_lshift T self k) i
  = static_cast T (lane_value T self i * 2 ^ k).
Proof.
  intros H1 Hk Hi. unfold lane_value.
  rewrite lane_lshift, static_cast_wrap by assumption.
  symmetry. apply static_cast_mul_l.
Qed.

Lemma lane_value_rshift T self k i :
  0 <= k < bits T -> (i < Batch.size T)%nat ->
  lane_value T (Avx2.bitwise_rshift T self k) i = lane_value T self i / 2 ^ k.
Proof.
  intros Hk Hi. unfold lane_value.
  rewrite lane_rshift, static_cast_wrap by assumption.
  rewrite static_cast_representable
    by (apply representable_shiftr; [lia | apply representable_static_cast]).
  now rewrite Z.shiftr_div_pow2 by lia.
Qed.

Lemma pow2_split w k : 0 <= k <= w -> 2 ^ w = 2 ^ (w - k) * 2 ^ k.
Proof. intros. rewrite <- Z.pow_add_r by lia. f_equal. lia. Qed.

Lemma wrap_mul_pow2 w k x :
  0 <= k <= w -> wrap w (x * 2 ^ k) = wrap (w - k) x * 2 ^ k.
Proof.
  intros Hk. unfold wrap. rewrite (pow2_split w k Hk).
  apply Z.mul_mod_distr_r;
    [pose proof (pow2_pos (w - k)) | pose proof (pow2_pos k)]; lia.
Qed.

Lemma sint_mul_pow2 w k x :
  0 <= k < w -> sint w (x * 2 ^ k) = sint (w - k) x * 2 ^ k.
Proof.
  intros Hk. unfold sint. cbv zeta. rewrite wrap_mul_pow2 by lia.
  pose proof (pow2_pos k ltac:(lia)) as Hp.
  pose proof (pow2_split (w - 1) k ltac:(lia)) as Hs.
  replace (w - 1 - k) with (w - k - 1) in Hs by lia.
  pose proof (pow2_split w k ltac:(lia)) as Hs'.
  destruct (Z.ltb_spec (wrap (w - k) x * 2 ^ k) (2 ^ (w - 1)));
    destruct (Z.ltb_spec (wrap (w - k) x) (2 ^ (w - k - 1))); nia.
Qed.

(** X5.  For a type of 2, 4 or 8 bytes and a count [0 <= k < bits T],
    [x << k] holds in each lane the lane times [2^k], brought back into
    the type by wraparound. *)
Theorem lshift_lanes
        (avx_lshift : int_type -> Z -> Z -> Z)
        (T : int_type) (x k : Z) (i : nat) :
  sizeof T <> 1 -> 0 <= k < bits T -> (i < Batch.size T)%nat ->
  lane_value T (Avx2.bitwise_lshift avx_lshift T x k) i
  = static_cast T (lane_value T x i * 2 ^ k).
Proof. apply lane_value_lshift. Qed.

Lemma lshift_lanes_witness :
  lane_value int16_t
    (Avx2.bitwise_lshift (fun _ _ _ => 0) int16_t (Avx.set int16_t [3; 16385]) 14) 1
  = static_cast int16_t (16385 * 2 ^ 14).
Proof.
  rewrite (lshift_lanes (fun _ _ _ => 0) int16_t (Avx.set int16_t [3; 16385]) 14 1);
    [reflexivity | discriminate | cbv [bits sizeof]; lia | vm_compute; lia].
Defined.

(** X6.  For the types whose two scalar shifts are both native to the
    tier (2 and 4 bytes, and 8 bytes unsigned) and [0 <= k < bits T]:
    shifting left then right by [k] keeps the low [bits T - k] bits of
    each lane, read with the signedness of [T]; shifting right then
    left clears the low [k] bits. *)
Theorem shift_round_trips
        (avx_lshift : int_type -> Z -> Z -> Z)
        (T : int_type) (x k : Z) (i : nat) :
  sizeof T <> 1 -> (is_signed T = true -> sizeof T <> 8) ->
  0 <= k < bits T -> (i < Batch.size T)%nat ->
  lane_value T
    (Avx2.bitwise_rshift T (Avx2.bitwise_lshift avx_lshift T x k) k) i
  = (if is_signed T then sint (bits T - k) (lane_value T x i)
     else wrap (bits T - k) (lane_value T x i))
  /\ lane_value T
       (Avx2.bitwise_lshift avx_lshift T (Avx2.bitwise_rshift T x k) k) i
     = lane_value T x i - lane_value T x i mod 2 ^ k.
Proof.
  intros H1 H8 Hk Hi.
  pose proof (pow2_pos k ltac:(lia)) as Hp.
  rewrite lane_value_rshift, !lane_value_lshift, lane_value_rshift by assumption.
  split.
  - unfold static_cast. destruct (is_signed T).
    + rewrite sint_mul_pow2 by lia. apply Z.div_mul; lia.
    + rewrite wrap_mul_pow2 by lia. apply Z.div_mul; lia.
  - pose proof (Z.div_mod (lane_value T x i) (2 ^ k) ltac:(lia)) as Hdm.
    pose proof (Z.mod_pos_bound (lane_value T x i) (2 ^ k) Hp) as Hr.
    pose proof (lane_value_representable T x i) as Hx.
    replace (lane_value T x i - lane_value T x i mod 2 ^ k)
      with (lane_value T x i / 2 ^ k * 2 ^ k) by lia.
    apply static_cast_representable.
    pose proof (bits_pos T) as Hw.
    unfold representable in *. destruct (is_signed T).
    + pose proof (pow2_split (bits T - 1) k ltac:(lia)) as Hs.
      pose proof (pow2_pos (bits T - 1 - k) ltac:(lia)) as Hq.
      assert (0 <= lane_value T x i / 2 ^ k + 2 ^ (bits T - 1 - k)) by nia.
      nia.
    + assert (0 <= lane_value T x i / 2 ^ k) by (apply Z.div_pos; lia).
      nia.
Qed.

Lemma shift_round_trips_witness :
  lane_value int16_t
    (Avx2.bitwise_rshift int16_t
       (Avx2.bitwise_lshift (fun _ _ _ => 0) int16_t
          (Avx.set int16_t [3; 255]) 8) 8) 1
  = -1.
Proof.
  destruct (shift_round_trips (fun _ _ _ => 0) int16_t
              (Avx.set int16_t [3; 255]) 8 1) as [H _];
    [discriminate | discriminate | cbv [bits sizeof]; lia | vm_compute; lia |].
  rewrite H. vm_compute. reflexivity.
Defined.

(** ** Shifts by a count per lane *)

Lemma width_below_half w : 0 < w -> w <= 2 ^ (w - 1).
Proof.
  intros. pose proof (Z.pow_gt_lin_r 2 (w - 1) ltac:(lia) ltac:(lia)). lia.
Qed.

(** A lane read as a shift count: the instruction reads it unsigned, so
    a count is in range exactly when its value at type [T] is. *)
Lemma count_in_range T l :
  0 <= l < 2 ^ bits T ->
  (l <? bits T) = (0 <=? static_cast T l) && (static_cast T l <? bits T)
  /\ (l < bits T -> static_cast T l = l).
Proof.
  intros Hl. pose proof (bits_pos T) as Hw.
  pose proof (width_below_half (bits T) Hw) as Hh.
  pose proof (pow2_double (bits T) Hw) as Hd.
  unfold static_cast. destruct (is_signed T).
  - destruct (sint_cases (bits T) l Hw) as [[E R]|[E R]];
      rewrite wrap_small in * by lia; rewrite E; (split; [|lia]).
    + destruct (Z.ltb_spec l (bits T)), (Z.leb_spec 0 l); cbn; lia.
    + destruct (Z.ltb_spec l (bits T)), (Z.leb_spec 0 (l - 2 ^ bits T)),
        (Z.ltb_spec (l - 2 ^ bits T) (bits T)); cbn; lia.
  - rewrite wrap_small by lia. split; [|reflexivity].
    destruct (Z.ltb_spec l (bits T)), (Z.leb_spec 0 l); cbn; lia.
Qed.

Lemma lane_sllv w a count i :
  0 < w -> (i < nlanes w)%nat ->
  lane w i (sllv w a count)
  = wrap w (if lane w i count <? w
            then Z.shiftl (lane w i a) (lane w i count) else 0).
Proof. intros. unfold sllv. now rewrite lane_build. Qed.

Lemma lane_srlv w a count i :
  0 < w -> (i < nlanes w)%nat ->
  lane w i (srlv w a count)
  = wrap w (if lane w i count <? w
            then Z.shiftr (lane w i a) (lane w i count) else 0).
Proof. intros. unfold srlv. now rewrite lane_build. Qed.

Lemma lane_srav w a count i :
  0 < w -> (i < nlanes w)%nat ->
  lane w i (srav w a count)
  = wrap w (if lane w i count <? w
            then Z.shiftr (sint w (lane w i a)) (lane w i count)
            else if sint w (lane w i a) <? 0 then all_ones w else 0).
Proof. intros. unfold srav. now rewrite lane_build. Qed.

Lemma lane_lshift_batch avx_lshift_batch T self other i :
  sizeof T = 4 \/ sizeof T = 8 -> (i < Batch.size T)%nat ->
  lane (bits T) i (Avx2.bitwise_lshift_batch avx_lshift_batch T self other)
  = wrap (bits T)
      (if lane (bits T) i other <? bits T
       then Z.shiftl (lane (bits T) i self) (lane (bits T) i other) else 0).
Proof.
  intros Hs Hi. apply size_lt in Hi. unfold Avx2.bitwise_lshift_batch.
  destruct T; try (exfalso; cbn in Hs; lia);
    cbn [sizeof]; cbv match;
    unfold _mm256_sllv_epi32, _mm256_sllv_epi64;
    (apply lane_sllv; [reflexivity | exact Hi]).
Qed.

Lemma lane_rshift_batch avx_rshift_batch T self other i :
  sizeof T = 4 \/ (sizeof T = 8 /\ is_signed T = false) ->
  (i < Batch.size T)%nat ->
  lane (bits T) i (Avx2.bitwise_rshift_batch avx_rshift_batch T self other)
  = wrap (bits T)
      (if lane (bits T) i other <? bits T
       then Z.shiftr (lane_value T self i) (lane (bits T) i other)
       else if lane_value T self i <? 0 then all_ones (bits T) else 0).
Proof.
  intros Hs Hi. apply size_lt in Hi.
  unfold Avx2.bitwise_rshift_batch, lane_value, static_cast.
  destruct T;
    try (exfalso; cbn in Hs; destruct Hs as [Hs|[Hs Hs']]; (lia || discriminate));
    cbn [sizeof is_signed]; cbv match;
    unfold _mm256_srav_epi32, _mm256_srlv_epi32, _mm256_srlv_epi64.
  - apply lane_srav; [reflexivity | exact Hi].
  - rewrite lane_srlv by (reflexivity || exact Hi).
    rewrite wrap_lane by (cbv; discriminate).
    destruct (Z.ltb_spec (lane (bits uint32_t) i self) 0) as [Hneg|_];
      [pose proof (lane_range (bits uint32_t) i self ltac:(cbv; discriminate)); lia
      | reflexivity].
  - rewrite lane_srlv by (reflexivity || exact Hi).
    rewrite wrap_lane by (cbv; discriminate).
    destruct (Z.ltb_spec (lane (bits uint64_t) i self) 0) as [Hneg|_];
      [pose proof (lane_range (bits uint64_t) i self ltac:(cbv; discriminate)); lia
      | reflexivity].
Qed.

Lemma static_cast_fill T (neg : bool) x :
  representable T x -> neg = (x <? 0) ->
  static_cast T (if neg then all_ones (bits T) else 0) = if neg then -1 else 0.
Proof.
  intros Hx ->. destruct (Z.ltb_spec x 0) as [Hneg|Hpos].
  - unfold representable in Hx. destruct T; cbn [is_signed] in Hx;
      try lia; vm_compute; reflexivity.
  - destruct T; vm_compute; reflexivity.
Qed.

Lemma lane_value_lshift_batch
        (avx_lshift_batch : int_type -> Z -> Z -> Z)
        (T : int_type) (x c : Z) (i : nat) :
  sizeof T = 4 \/ sizeof T = 8 -> (i < Batch.size T)%nat ->
  lane_value T (Avx2.bitwise_lshift_batch avx_lshift_batch T x c) i
  = if (0 <=? lane_value T c i) && (lane_value T c i <? bits T)
    then static_cast T (lane_value T x i * 2 ^ lane_value T c i)
    else 0.
Proof.
  intros Hs Hi. pose proof (bits_pos T) as Hw.
  pose proof (lane_range (bits T) i c ltac:(lia)) as Hc.
  destruct (count_in_range T (lane (bits T) i c) Hc) as [Hin Hval].
  unfold lane_value at 1. rewrite lane_lshift_batch, static_cast_wrap by assumption.
  fold (lane_value T c i) in Hin, Hval. rewrite <- Hin.
  destruct (Z.ltb_spec (lane (bits T) i c) (bits T)) as [Hlt|Hge].
  - rewrite Hval by exact Hlt. rewrite Z.shiftl_mul_pow2 by lia.
    symmetry. apply static_cast_mul_l.
  - destruct T; vm_compute; reflexivity.
Qed.

(** X7.  For a type of 4 or 8 bytes, [x << c] with a batch of counts
    shifts each lane by the count in the same lane: the lane times
    [2^c] brought back into the type when the count is in
    [0 .. bits T - 1], and zero for every other count, a negative one
    included. *)
Theorem lshift_batch_lanes
        (avx_lshift_batch : int_type -> Z -> Z -> Z)
        (T : int_type) (x c : Z) (i : nat) :
  sizeof T = 4 \/ sizeof T = 8 -> (i < Batch.size T)%nat ->
  lane_value T (Avx2.bitwise_lshift_batch avx_lshift_batch T x c) i
  = if (0 <=? lane_value T c i) && (lane_value T c i <? bits T)
    then static_cast T (lane_value T x i * 2 ^ lane_value T c i)
    else 0.
Proof. apply lane_value_lshift_batch. Qed.

Lemma lshift_batch_lanes_witness :
  lane_value int32_t
    (Avx2.bitwise_lshift_batch (fun _ _ _ => 0) int32_t
       (Avx.set int32_t [5; 5; 5]) (Avx.set int32_t [3; 32; -1])) 2
  = 0.
Proof.
  rewrite (lshift_batch_lanes (fun _ _ _ => 0) int32_t
             (Avx.set int32_t [5; 5; 5]) (Avx.set int32_t [3; 32; -1]) 2);
    [vm_compute; reflexivity | left; reflexivity | vm_compute; lia].
Defined.

Lemma lane_value_rshift_batch
        (avx_rshift_batch : int_type -> Z -> Z -> Z)
        (T : int_type) (x c : Z) (i : nat) :
  sizeof T = 4 \/ (sizeof T = 8 /\ is_signed T = false) ->
  (i < Batch.size T)%nat ->
  lane_value T (Avx2.bitwise_rshift_batch avx_rshift_batch T x c) i
  = if (0 <=? lane_value T c i) && (lane_value T c i <? bits T)
    then lane_value T x i / 2 ^ lane_value T c i
    else if lane_value T x i <? 0 then -1 else 0.
Proof.
  intros Hs Hi. pose proof (bits_pos T) as Hw.
  pose proof (lane_range (bits T) i c ltac:(lia)) as Hc.
  destruct (count_in_range T (lane (bits T) i c) Hc) as [Hin Hval].
  unfold lane_value at 1. rewrite lane_rshift_batch, static_cast_wrap by assumption.
  fold (lane_value T c i) in Hin, Hval. rewrite <- Hin.
  destruct (Z.ltb_spec (lane (bits T) i c) (bits T)) as [Hlt|Hge].
  - rewrite Hval by exact Hlt.
    rewrite static_cast_representable
      by (apply representable_shiftr; [lia | apply lane_value_representable]).
    now rewrite Z.shiftr_div_pow2 by lia.
  - apply (static_cast_fill T _ (lane_value T x i));
      [apply lane_value_representable | reflexivity].
Qed.

(** X8.  For [int32_t], [uint32_t] and [uint64_t], [x >> c] with a
    batch of counts shifts each lane by the count in the same lane: the
    floor of the lane over [2^c] when the count is in
    [0 .. bits T - 1]; for every other count, a negative one included,
    the lane is filled with its sign: [-1] for a negative lane, zero
    otherwise. *)
Theorem rshift_batch_lanes
        (avx_rshift_batch : int_type -> Z -> Z -> Z)
        (T : int_type) (x c : Z) (i : nat) :
  sizeof T = 4 \/ (sizeof T = 8 /\ is_signed T = false) ->
  (i < Batch.size T)%nat ->
  lane_value T (Avx2.bitwise_rshift_batch avx_rshift_batch T x c) i
  = if (0 <=? lane_value T c i) && (lane_value T c i <? bits T)
    then lane_value T x i / 2 ^ lane_value T c i
    else if lane_value T x i <? 0 then -1 else 0.
Proof. apply lane_value_rshift_batch. Qed.

Lemma rshift_batch_lanes_witness :
  lane_value int32_t
    (Avx2.bitwise_rshift_batch (fun _ _ _ => 0) int32_t
       (Avx.set int32_t [-40; -40; 40]) (Avx.set int32_t [3; 32; -1])) 1
  = -1.
Proof.
  rewrite (rshift_batch_lanes (fun _ _ _ => 0) int32_t
             (Avx.set int32_t [-40; -40; 40]) (Avx.set int32_t [3; 32; -1]) 1);
    [vm_compute; reflexivity | left; reflexivity | vm_compute; lia].
Defined.

Lemma lane_value_broadcast T k i :
  (i < Batch.size T)%nat -> representable T k ->
  lane_value T (batch_of_value T k) i = k.
Proof.
  intros Hi Hk. unfold lane_value.
  rewrite lane_batch_of_value, static_cast_wrap by exact Hi.
  now apply static_cast_representable.
Qed.

Lemma count_representable T k : 0 <= k < bits T -> representable T k.
Proof.
  intros Hk. pose proof (bits_pos T) as Hw.
  pose proof (width_below_half (bits T) Hw).
  pose proof (pow2_double (bits T) Hw).
  unfold representable. destruct (is_signed T); lia.
Qed.

(** X9.  Shifting by a batch that holds the same count [k] in every
    lane, [0 <= k < bits T], gives the lanes of the shift by the scalar
    [k]: to the left for the types of 4 and 8 bytes, to the right for
    [int32_t], [uint32_t] and [uint64_t]. *)
Theorem batch_shift_agrees_with_scalar
        (avx_lshift avx_lshift_batch avx_rshift_batch : int_type -> Z -> Z -> Z)
        (T : int_type) (x k : Z) (i : nat) :
  0 <= k < bits T -> (i < Batch.size T)%nat ->
  (sizeof T = 4 \/ sizeof T = 8 ->
   lane_value T
     (Avx2.bitwise_lshift_batch avx_lshift_batch T x (batch_of_value T k)) i
   = lane_value T (Avx2.bitwise_lshift avx_lshift T x k) i)
  /\ (sizeof T = 4 \/ (sizeof T = 8 /\ is_signed T = false) ->
      lane_value T
        (Avx2.bitwise_rshift_batch avx_rshift_batch T x (batch_of_value T k)) i
      = lane_value T (Avx2.bitwise_rshift T x k) i).
Proof.
  intros Hk Hi.
  pose proof (lane_value_broadcast T k i Hi (count_representable T k Hk)) as Hb.
  assert (Hin : (0 <=? k) && (k <? bits T) = true).
  { destruct (Z.leb_spec 0 k), (Z.ltb_spec k (bits T)); cbn; lia. }
  split; intros Hs.
  - rewrite lane_value_lshift_batch, Hb, Hin by assumption.
    symmetry. apply lane_value_lshift; [lia | exact Hk | exact Hi].
  - rewrite lane_value_rshift_batch, Hb, Hin by assumption.
    symmetry. apply lane_value_rshift; assumption.
Qed.

Lemma batch_shift_agrees_with_scalar_witness :
  lane_value int32_t
    (Avx2.bitwise_rshift_batch (fun _ _ _ => 0) int32_t
       (Avx.set int32_t [-40; 9]) (batch_of_value int32_t 3)) 0
  = lane_value int32_t (Avx2.bitwise_rshift int32_t (Avx.set int32_t [-40; 9]) 3) 0.
Proof.
  destruct (batch_shift_agrees_with_scalar
              (fun _ _ _ => 0) (fun _ _ _ => 0) (fun _ _ _ => 0) int32_t
              (Avx.set int32_t [-40; 9]) 3 0) as [_ H];
    [cbv [bits sizeof]; lia | vm_compute; lia |].
  apply H. left. reflexivity.
Defined.

(** ** Minimum, maximum and saturation *)

Lemma representable_max T x y :
  representable T x -> representable T y -> representable T (Z.max x y).
Proof. unfold representable. destruct (is_signed T); lia. Qed.

Lemma representable_min T x y :
  representable T x -> representable T y -> representable T (Z.min x y).
Proof. unfold representable. destruct (is_signed T); lia. Qed.

Lemma lane_value_unsigned T r i :
  is_signed T = false -> lane_value T r i = lane (bits T) i r.
Proof.
  intros Hs. unfold lane_value, static_cast. rewrite Hs.
  apply wrap_lane. pose proof (bits_pos T). lia.
Qed.

Lemma lane_value_signed T r i :
  is_signed T = true -> lane_value T r i = sint (bits T) (lane (bits T) i r).
Proof. intros Hs. unfold lane_value, static_cast. now rewrite Hs. Qed.

Lemma lane_max avx_max T self other i :
  sizeof T <> 8 -> (i < Batch.size T)%nat ->
  lane (bits T) i (Avx2.max avx_max T self other)
  = wrap (bits T) (Z.max (lane_value T self i) (lane_value T other i)).
Proof.
  intros H8 Hi. apply size_lt in Hi.
  destruct (is_signed T) eqn:Hs.
  - rewrite !lane_value_signed by exact Hs. unfold Avx2.max.
    destruct T; try discriminate Hs; try (exfalso; apply H8; reflexivity);
      cbn [is_signed sizeof]; cbv match;
      unfold _mm256_max_epi8, _mm256_max_epi16, _mm256_max_epi32, max_epi;
      (rewrite lane_build; [reflexivity | reflexivity | exact Hi]).
  - rewrite !lane_value_unsigned by exact Hs. unfold Avx2.max.
    destruct T; try discriminate Hs; try (exfalso; apply H8; reflexivity);
      cbn [is_signed sizeof]; cbv match;
      unfold _mm256_max_epu8, _mm256_max_epu16, _mm256_max_epu32, max_epu;
      (rewrite lane_build; [reflexivity | reflexivity | exact Hi]).
Qed.

Lemma lane_min avx_min T self other i :
  sizeof T <> 8 -> (i < Batch.size T)%nat ->
  lane (bits T) i (Avx2.min avx_min T self other)
  = wrap (bits T) (Z.min (lane_value T self i) (lane_value T other i)).
Proof.
  intros H8 Hi. apply size_lt in Hi.
  destruct (is_signed T) eqn:Hs.
  - rewrite !lane_value_signed by exact Hs. unfold Avx2.min.
    destruct T; try discriminate Hs; try (exfalso; apply H8; reflexivity);
      cbn [is_signed sizeof]; cbv match;
      unfold _mm256_min_epi8, _mm256_min_epi16, _mm256_min_epi32, min_epi;
      (rewrite lane_build; [reflexivity | reflexivity | exact Hi]).
  - rewrite !lane_value_unsigned by exact Hs. unfold Avx2.min.
    destruct T; try discriminate Hs; try (exfalso; apply H8; reflexivity);
      cbn [is_signed sizeof]; cbv match;
      unfold _mm256_min_epu8, _mm256_min_epu16, _mm256_min_epu32, min_epu;
      (rewrite lane_build; [reflexivity | reflexivity | exact Hi]).
Qed.

Lemma lane_value_max avx_max T self other i :
  sizeof T <> 8 -> (i < Batch.size T)%nat ->
  lane_value T (Avx2.max avx_max T self other) i
  = Z.max (lane_value T self i) (lane_value T other i).
Proof.
  intros H8 Hi. unfold lane_value at 1.
  rewrite lane_max, static_cast_wrap by assumption.
  apply static_cast_representable, representable_max;
    apply lane_value_representable.
Qed.

Lemma lane_value_min avx_min T self other i :
  sizeof T <> 8 -> (i < Batch.size T)%nat ->
  lane_value T (Avx2.min avx_min T self other) i
  = Z.min (lane_value T self i) (lane_value T other i).
Proof.
  intros H8 Hi. unfold lane_value at 1.
  rewrite lane_min, static_cast_wrap by assumption.
  apply static_cast_representable, representable_min;
    apply lane_value_representable.
Qed.

(** X10.  For a type of 1, 2 or 4 bytes, [max] and [min] hold in each
    lane the larger and the smaller of the two lanes, compared as
    numbers of the type: signed for a signed type, unsigned for an
    unsigned one. *)
Theorem min_max_lanes
        (avx_max avx_min : int_type -> Z -> Z -> Z)
        (T : int_type) (a b : Z) (i : nat) :
  sizeof T <> 8 -> (i < Batch.size T)%nat ->
  lane_value T (Avx2.max avx_max T a b) i
  = Z.max (lane_value T a i) (lane_value T b i)
  /\ lane_value T (Avx2.min avx_min T a b) i
     = Z.min (lane_value T a i) (lane_value T b i).
Proof.
  intros H8 Hi. split; [now apply lane_value_max | now apply lane_value_min].
Qed.

Lemma min_max_lanes_witness :
  lane_value uint8_t
    (Avx2.max (fun _ _ _ => 0) uint8_t
       (Avx.set uint8_t [200; 1]) (Avx.set uint8_t [100; 2])) 0 = 200
  /\ lane_value int8_t
       (Avx2.max (fun _ _ _ => 0) int8_t
          (Avx.set int8_t [200; 1]) (Avx.set int8_t [100; 2])) 0 = 100.
Proof.
  split.
  - destruct (min_max_lanes (fun _ _ _ => 0) (fun _ _ _ => 0) uint8_t
                (Avx.set uint8_t [200; 1]) (Avx.set uint8_t [100; 2]) 0)
      as [H _]; [discriminate | vm_compute; lia |].
    rewrite H. vm_compute. reflexivity.
  - destruct (min_max_lanes (fun _ _ _ => 0) (fun _ _ _ => 0) int8_t
                (Avx.set int8_t [200; 1]) (Avx.set int8_t [100; 2]) 0)
      as [H _]; [discriminate | vm_compute; lia |].
    rewrite H. vm_compute. reflexivity.
Defined.

Lemma clamp_representable T x : representable T (clamp T x).
Proof.
  pose proof (bits_pos T) as Hw.
  pose proof (pow2_pos (bits T - 1) ltac:(lia)).
  pose proof (pow2_pos (bits T) ltac:(lia)).
  unfold representable, clamp, min_value, max_value.
  destruct (is_signed T); lia.
Qed.

Lemma lane_sadd avx_sadd T self other i :
  sizeof T = 1 \/ sizeof T = 2 -> (i < Batch.size T)%nat ->
  lane (bits T) i (Avx2.sadd avx_sadd T self other)
  = wrap (bits T) (clamp T (lane_value T self i + lane_value T other i)).
Proof.
  intros Hs12 Hi. apply size_lt in Hi.
  destruct (is_signed T) eqn:Hs.
  - rewrite !lane_value_signed by exact Hs. unfold Avx2.sadd.
    destruct T; try discriminate Hs; try (exfalso; cbn in Hs12; lia);
      cbn [is_signed sizeof]; cbv match;
      unfold _mm256_adds_epi8, _mm256_adds_epi16, adds_epi;
      (rewrite lane_build; [reflexivity | reflexivity | exact Hi]).
  - rewrite !lane_value_unsigned by exact Hs. unfold Avx2.sadd.
    destruct T; try discriminate Hs; try (exfalso; cbn in Hs12; lia);
      cbn [is_signed sizeof]; cbv match;
      unfold _mm256_adds_epu8, _mm256_adds_epu16, adds_epu;
      (rewrite lane_build; [reflexivity | reflexivity | exact Hi]).
Qed.

Lemma lane_ssub avx_ssub T self other i :
  sizeof T = 1 \/ sizeof T = 2 -> (i < Batch.size T)%nat ->
  lane (bits T) i (Avx2.ssub avx_ssub T self other)
  = wrap (bits T) (clamp T (lane_value T self i - lane_value T other i)).
Proof.
  intros Hs12 Hi. apply size_lt in Hi.
  destruct (is_signed T) eqn:Hs.
  - rewrite !lane_value_signed by exact Hs. unfold Avx2.ssub.
    destruct T; try discriminate Hs; try (exfalso; cbn in Hs12; lia);
      cbn [is_signed sizeof]; cbv match;
      unfold _mm256_subs_epi8, _mm256_subs_epi16, subs_epi;
      (rewrite lane_build; [reflexivity | reflexivity | exact Hi]).
  - rewrite !lane_value_unsigned by exact Hs. unfold Avx2.ssub.
    destruct T; try discriminate Hs; try (exfalso; cbn in Hs12; lia);
      cbn [is_signed sizeof]; cbv match;
      unfold _mm256_subs_epu8, _mm256_subs_epu16, subs_epu;
      (rewrite lane_build; [reflexivity | reflexivity | exact Hi]).
Qed.

(** X11.  For a type of 1 or 2 bytes, the saturated sum and difference
    hold in each lane the exact sum and difference of the two lanes,
    replaced by the nearest number of the type when they fall outside
    it; they never wrap around. *)
Theorem saturated_lanes
        (avx_sadd avx_ssub : int_type -> Z -> Z -> Z)
        (T : int_type) (a b : Z) (i : nat) :
  sizeof T = 1 \/ sizeof T = 2 -> (i < Batch.size T)%nat ->
  lane_value T (Avx2.sadd avx_sadd T a b) i
  = clamp T (lane_value T a i + lane_value T b i)
  /\ lane_value T (Avx2.ssub avx_ssub T a b) i
     = clamp T (lane_value T a i - lane_value T b i).
Proof.
  intros Hs Hi. split; unfold lane_value at 1.
  - rewrite lane_sadd, static_cast_wrap by assumption.
    apply static_cast_representable, clamp_representable.
  - rewrite lane_ssub, static_cast_wrap by assumption.
    apply static_cast_representable, clamp_representable.
Qed.

Lemma saturated_lanes_witness :
  lane_value int8_t
    (Avx2.sadd (fun _ _ _ => 0) int8_t
       (Avx.set int8_t [100; 1]) (Avx.set int8_t [100; 2])) 0 = 127
  /\ lane_value uint8_t
       (Avx2.ssub (fun _ _ _ => 0) uint8_t
          (Avx.set uint8_t [3; 1]) (Avx.set uint8_t [5; 2])) 0 = 0.
Proof.
  split.
  - destruct (saturated_lanes (fun _ _ _ => 0) (fun _ _ _ => 0) int8_t
                (Avx.set int8_t [100; 1]) (Avx.set int8_t [100; 2]) 0)
      as [H _]; [left; reflexivity | vm_compute; lia |].
    rewrite H. vm_compute. reflexivity.
  - destruct (saturated_lanes (fun _ _ _ => 0) (fun _ _ _ => 0) uint8_t
                (Avx.set uint8_t [3; 1]) (Avx.set uint8_t [5; 2]) 0)
      as [_ H]; [left; reflexivity | vm_compute; lia |].
    rewrite H. vm_compute. reflexivity.
Defined.

(** ** Comparisons and selection *)

Lemma lane_value_inj T r r' i :
  lane_value T r i = lane_value T r' i -> lane (bits T) i r = lane (bits T) i r'.
Proof.
  intros H. pose proof (bits_pos T) as Hw. unfold lane_value in H.
  apply (f_equal (wrap (bits T))) in H.
  now rewrite !wrap_static_cast, !wrap_lane in H by lia.
Qed.

Lemma lane_eqb_value T r r' i :
  (lane (bits T) i r =? lane (bits T) i r') = (lane_value T r i =? lane_value T r' i).
Proof.
  destruct (Z.eqb_spec (lane (bits T) i r) (lane (bits T) i r')) as [E|N];
    destruct (Z.eqb_spec (lane_value T r i) (lane_value T r' i)) as [E'|N'];
    try reflexivity.
  - exfalso. apply N'. unfold lane_value. now rewrite E.
  - exfalso. apply N. now apply lane_value_inj.
Qed.

Lemma bool_lane_eq T a b i :
  (i < Batch.size T)%nat ->
  bool_lane T (Avx2.eq T a b) i (lane_value T a i =? lane_value T b i).
Proof.
  intros Hi. unfold bool_lane. rewrite lane_eq by exact Hi.
  now rewrite lane_eqb_value.
Qed.

Lemma bool_lane_gt T a b i :
  (i < Batch.size T)%nat ->
  bool_lane T (Avx2.gt T a b) i (lane_value T a i >? lane_value T b i).
Proof. intros Hi. unfold bool_lane. now rewrite lane_gt by exact Hi. Qed.

Lemma bool_lane_select T cond t f i c :
  (i < Batch.size T)%nat -> bool_lane T cond i c ->
  lane_value T (Avx2.select T cond t f) i
  = if c then lane_value T t i else lane_value T f i.
Proof.
  intros Hi Hc. unfold bool_lane in Hc. unfold lane_value.
  pose proof (all_ones_range (bits T) (bits_pos T)) as Ha.
  rewrite lane_select; [|exact Hi | destruct c; [right|left]; exact Hc].
  rewrite Hc. destruct c.
  - destruct (Z.eqb_spec (all_ones (bits T)) 0); [lia | reflexivity].
  - reflexivity.
Qed.

(** X12.  The comparison kernels give in each lane all ones when the
    comparison of the two lanes holds and all zeros when it does not:
    [eq] for every integer type, [gt] for the signed ones, compared as
    signed numbers.  For a signed type exactly one of [a > b],
    [a == b], [b > a] has its lane set. *)
Theorem comparison_lanes (T : int_type) (a b : Z) (i : nat) :
  (i < Batch.size T)%nat ->
  bool_lane T (Avx2.eq T a b) i (lane_value T a i =? lane_value T b i)
  /\ (is_signed T = true ->
      bool_lane T (Avx2.gt T a b) i (lane_value T a i >? lane_value T b i)
      /\ exists gt_ab eq_ab gt_ba,
           bool_lane T (Avx2.gt T a b) i gt_ab
           /\ bool_lane T (Avx2.eq T a b) i eq_ab
           /\ bool_lane T (Avx2.gt T b a) i gt_ba
           /\ (xorb gt_ab (xorb eq_ab gt_ba) = true)
           /\ (gt_ab && eq_ab = false) /\ (gt_ab && gt_ba = false)
           /\ (eq_ab && gt_ba = false)).
Proof.
  intros Hi. split; [now apply bool_lane_eq|]. intros _.
  split; [now apply bool_lane_gt|].
  exists (lane_value T a i >? lane_value T b i),
    (lane_value T a i =? lane_value T b i),
    (lane_value T b i >? lane_value T a i).
  split; [now apply bool_lane_gt|]. split; [now apply bool_lane_eq|].
  split; [now apply bool_lane_gt|].
  destruct (Z.gtb_spec (lane_value T a i) (lane_value T b i)),
    (Z.eqb_spec (lane_value T a i) (lane_value T b i)),
    (Z.gtb_spec (lane_value T b i) (lane_value T a i)); cbn; repeat split; lia.
Qed.

Lemma comparison_lanes_witness :
  bool_lane int8_t
    (Avx2.gt int8_t (Avx.set int8_t [1; 2]) (Avx.set int8_t [-1; 2])) 0 true.
Proof.
  destruct (comparison_lanes int8_t (Avx.set int8_t [1; 2])
              (Avx.set int8_t [-1; 2]) 0) as [_ H]; [vm_compute; lia|].
  destruct (H eq_refl) as [Hgt _]. exact Hgt.
Defined.

(** X13.  Selecting under the result of a comparison is the lane-wise
    conditional: [select(a == b, t, f)] takes the lane of [t] where the
    lanes of [a] and [b] are equal and the lane of [f] elsewhere, and
    for a signed type [select(a > b, t, f)] takes the lane of [t] where
    the lane of [a] is the greater. *)
Theorem select_by_comparison (T : int_type) (a b t f : Z) (i : nat) :
  (i < Batch.size T)%nat ->
  lane_value T (Avx2.select T (Avx2.eq T a b) t f) i
  = (if lane_value T a i =? lane_value T b i
     then lane_value T t i else lane_value T f i)
  /\ (is_signed T = true ->
      lane_value T (Avx2.select T (Avx2.gt T a b) t f) i
      = if lane_value T a i >? lane_value T b i
        then lane_value T t i else lane_value T f i).
Proof.
  intros Hi. split; [|intros _];
    apply bool_lane_select; (exact Hi || now apply bool_lane_eq || now apply bool_lane_gt).
Qed.

Lemma select_by_comparison_witness :
  lane_value int16_t
    (Avx2.select int16_t
       (Avx2.eq int16_t (Avx.set int16_t [4; 5]) (Avx.set int16_t [4; 6]))
       (Avx.set int16_t [10; 11]) (Avx.set int16_t [20; 21])) 1
  = 21.
Proof.
  destruct (select_by_comparison int16_t (Avx.set int16_t [4; 5])
              (Avx.set int16_t [4; 6]) (Avx.set int16_t [10; 11])
              (Avx.set int16_t [20; 21]) 1) as [H _]; [vm_compute; lia|].
  rewrite H. vm_compute. reflexivity.
Defined.

(** X14.  For a signed type of 1, 2 or 4 bytes, choosing between two
    batches by [a > b] is the same as [max] and [min]:
    [select(a > b, a, b)] has the lanes of [max(a, b)] and
    [select(a > b, b, a)] those of [min(a, b)]. *)
Theorem select_gt_is_max
        (avx_max avx_min : int_type -> Z -> Z -> Z)
        (T : int_type) (a b : Z) (i : nat) :
  is_signed T = true -> sizeof T <> 8 -> (i < Batch.size T)%nat ->
  lane_value T (Avx2.select T (Avx2.gt T a b) a b) i
  = lane_value T (Avx2.max avx_max T a b) i
  /\ lane_value T (Avx2.select T (Avx2.gt T a b) b a) i
     = lane_value T (Avx2.min avx_min T a b) i.
Proof.
  intros Hs H8 Hi.
  rewrite lane_value_max, lane_value_min by assumption.
  rewrite !(bool_lane_select T _ _ _ i (lane_value T a i >? lane_value T b i))
    by (exact Hi || now apply bool_lane_gt).
  destruct (Z.gtb_spec (lane_value T a i) (lane_value T b i)); lia.
Qed.

Lemma select_gt_is_max_witness :
  lane_value int8_t
    (Avx2.select int8_t
       (Avx2.gt int8_t (Avx.set int8_t [-3; 5]) (Avx.set int8_t [2; 4]))
       (Avx.set int8_t [-3; 5]) (Avx.set int8_t [2; 4])) 0
  = lane_value int8_t
      (Avx2.max (fun _ _ _ => 0) int8_t
         (Avx.set int8_t [-3; 5]) (Avx.set int8_t [2; 4])) 0.
Proof.
  destruct (select_gt_is_max (fun _ _ _ => 0) (fun _ _ _ => 0) int8_t
              (Avx.set int8_t [-3; 5]) (Avx.set int8_t [2; 4]) 0) as [H _];
    [reflexivity | discriminate | vm_compute; lia |].
  exact H.
Defined.

(** ** Boolean batches *)

Lemma all_ones_nonzero w : 0 < w -> all_ones w <> 0.
Proof. intros Hw. pose proof (all_ones_range w Hw). lia. Qed.

Lemma bool_lane_not T a i x :
  (i < Batch.size T)%nat -> bool_lane T a i x ->
  bool_lane T (Avx2.bitwise_not a) i (negb x).
Proof.
  unfold bool_lane. intros Hi Ha. rewrite lane_bitwise_not, Ha by exact Hi.
  destruct x; [apply Z.lxor_nilpotent | apply Z.lxor_0_l].
Qed.

Lemma bool_lane_and T a b i x y :
  bool_lane T a i x -> bool_lane T b i y ->
  bool_lane T (Avx2.bitwise_and a b) i (x && y).
Proof.
  unfold bool_lane, Avx2.bitwise_and, _mm256_and_si256. intros Ha Hb.
  rewrite lane_land, Ha, Hb by apply bits_pos.
  destruct x, y; cbn [andb];
    [apply Z.land_diag | apply Z.land_0_r | apply Z.land_0_l | reflexivity].
Qed.

Lemma bool_lane_or T a b i x y :
  bool_lane T a i x -> bool_lane T b i y ->
  bool_lane T (Avx2.bitwise_or a b) i (x || y).
Proof.
  unfold bool_lane, Avx2.bitwise_or, _mm256_or_si256. intros Ha Hb.
  rewrite lane_lor, Ha, Hb by apply bits_pos.
  destruct x, y; cbn [orb];
    [apply Z.lor_diag | apply Z.lor_0_r | apply Z.lor_0_l | reflexivity].
Qed.

Lemma bool_lane_xor T a b i x y :
  bool_lane T a i x -> bool_lane T b i y ->
  bool_lane T (Avx2.bitwise_xor a b) i (xorb x y).
Proof.
  unfold bool_lane, Avx2.bitwise_xor, _mm256_xor_si256. intros Ha Hb.
  rewrite lane_lxor, Ha, Hb by apply bits_pos.
  destruct x, y; cbn [xorb];
    [apply Z.lxor_nilpotent | apply Z.lxor_0_r | apply Z.lxor_0_l | reflexivity].
Qed.

Lemma bool_lane_andnot T a b i x y :
  bool_lane T a i x -> bool_lane T b i y ->
  bool_lane T (Avx2.bitwise_andnot a b) i (negb x && y).
Proof.
  unfold bool_lane, Avx2.bitwise_andnot. intros Ha Hb.
  rewrite lane_andnot, Ha, Hb by apply bits_pos.
  destruct x, y; cbn [negb andb];
    [apply Z.ldiff_diag | apply Z.ldiff_0_l | apply Z.ldiff_0_r | reflexivity].
Qed.

Lemma bool_lane_valid T a :
  BatchBool.valid T a <->
  (forall i, (i < BatchBool.size T)%nat -> exists x, bool_lane T a i x).
Proof.
  unfold BatchBool.valid, bool_lane. split; intros H i Hi.
  - destruct (H i Hi) as [E|E]; [exists false | exists true]; exact E.
  - destruct (H i Hi) as [[|] E]; [right | left]; exact E.
Qed.

(** X15.  On boolean batches whose lane [i] holds [x] and [y], the
    operators [~], [&], [|], [&&] and [||] hold in lane [i] the
    negation, the conjunction and the disjunction of [x] and [y]: the
    lane stays all ones or all zeros. *)
Theorem batch_bool_logic (T : int_type) (a b : Z) (i : nat) (x y : bool) :
  (i < BatchBool.size T)%nat ->
  bool_lane T a i x -> bool_lane T b i y ->
  bool_lane T (BatchBool.operator_not T a) i (negb x)
  /\ bool_lane T (BatchBool.operator_and T a b) i (x && y)
  /\ bool_lane T (BatchBool.operator_or T a b) i (x || y)
  /\ bool_lane T (BatchBool.operator_land T a b) i (x && y)
  /\ bool_lane T (BatchBool.operator_lor T a b) i (x || y).
Proof.
  intros Hi Ha Hb.
  unfold BatchBool.operator_land, BatchBool.operator_lor,
    BatchBool.operator_not, BatchBool.operator_and, BatchBool.operator_or.
  split; [now apply bool_lane_not|].
  split; [now apply bool_lane_and|].
  split; [now apply bool_lane_or|].
  split; [now apply bool_lane_and | now apply bool_lane_or].
Qed.

Lemma batch_bool_logic_witness :
  bool_lane int32_t
    (BatchBool.operator_and int32_t
       (Avx.set_bool int32_t [true; true]) (Avx.set_bool int32_t [true; false]))
    1 false.
Proof.
  destruct (batch_bool_logic int32_t
              (Avx.set_bool int32_t [true; true])
              (Avx.set_bool int32_t [true; false]) 1 true false)
    as (_ & H & _); [vm_compute; lia | reflexivity | reflexivity |].
  exact H.
Defined.

(** X16.  The boolean kernels [bitwise_xor] and [bitwise_andnot] on
    lanes that hold [x] and [y] give the exclusive or of [x] and [y],
    and [y] without [x]: [bitwise_andnot(self, other)] negates its
    first argument, not its second. *)
Theorem bool_xor_andnot (T : int_type) (a b : Z) (i : nat) (x y : bool) :
  bool_lane T a i x -> bool_lane T b i y ->
  bool_lane T (Avx2.bitwise_xor a b) i (xorb x y)
  /\ bool_lane T (Avx2.bitwise_andnot a b) i (negb x && y).
Proof.
  intros Ha Hb. split; [now apply bool_lane_xor | now apply bool_lane_andnot].
Qed.

Lemma bool_xor_andnot_witness :
  bool_lane int32_t
    (Avx2.bitwise_andnot
       (Avx.set_bool int32_t [true; false]) (Avx.set_bool int32_t [false; true]))
    1 true.
Proof.
  destruct (bool_xor_andnot int32_t
              (Avx.set_bool int32_t [true; false])
              (Avx.set_bool int32_t [false; true]) 1 false true)
    as [_ H]; [reflexivity | reflexivity |].
  exact H.
Defined.

Lemma make_register_repeat T Is u v :
  BatchBool.make_register T Is u v = Avx.set_bool T (repeat u (S Is) ++ v).
Proof.
  revert v. induction Is as [|n IH]; intros v; [reflexivity|].
  cbn [BatchBool.make_register]. rewrite IH.
  f_equal. change (u :: v) with ([u] ++ v).
  rewrite app_assoc, <- repeat_cons. reflexivity.
Qed.

Lemma size_pos T : (0 < batch_size T)%nat.
Proof. destruct T; vm_compute; lia. Qed.

(** X17.  [batch_bool(bool val)] hands [kernel::set] exactly [size]
    arguments, all equal to [val], so every lane of the batch holds
    [val]. *)
Theorem of_bool_fills (T : int_type) (val : bool) (i : nat) :
  (i < BatchBool.size T)%nat ->
  BatchBool.of_bool T val = Avx.set_bool T (repeat val (BatchBool.size T))
  /\ bool_lane T (BatchBool.of_bool T val) i val.
Proof.
  intros Hi. pose proof (size_pos T) as Hp.
  assert (E : BatchBool.of_bool T val
              = Avx.set_bool T (repeat val (BatchBool.size T))).
  { unfold BatchBool.of_bool. rewrite make_register_repeat, app_nil_r.
    do 2 f_equal. unfold BatchBool.size. lia. }
  split; [exact E|].
  unfold bool_lane. rewrite E, lane_set_bool by exact Hi.
  rewrite nth_repeat_lt by exact Hi. reflexivity.
Qed.

Lemma of_bool_fills_witness :
  bool_lane int16_t (BatchBool.of_bool int16_t true) 15 true.
Proof.
  destruct (of_bool_fills int16_t true 15) as [_ H]; [vm_compute; lia|].
  exact H.
Defined.

(** ** Bitwise operators *)

Lemma testbit_lane_high w i r n : 0 < w -> w <= n -> Z.testbit (lane w i r) n = false.
Proof.
  intros Hw Hn. rewrite testbit_lane by lia.
  destruct (Z.ltb_spec n w); [lia | reflexivity].
Qed.

Lemma testbit_all_ones_at w n : 0 <= w -> 0 <= n -> Z.testbit (all_ones w) n = (n <? w).
Proof.
  intros Hw Hn. destruct (Z.ltb_spec n w).
  - apply testbit_all_ones; lia.
  - unfold all_ones. replace (2 ^ w - 1) with (Z.ones w) by (rewrite Z.ones_equiv; lia).
    apply Z.ones_spec_high. lia.
Qed.

Lemma testbit_lane_not T a i n :
  (i < Batch.size T)%nat -> 0 <= n ->
  Z.testbit (lane (bits T) i (Avx2.bitwise_not a)) n
  = (n <? bits T) && negb (Z.testbit (lane (bits T) i a) n).
Proof.
  intros Hi Hn. pose proof (bits_pos T) as Hw.
  rewrite lane_bitwise_not by exact Hi.
  rewrite Z.lxor_spec, testbit_all_ones_at by lia.
  destruct (Z.ltb_spec n (bits T)).
  - cbn [andb]. apply xorb_true_r.
  - rewrite testbit_lane_high by lia. reflexivity.
Qed.

Lemma lxor_all_ones w l : 0 < w -> 0 <= l < 2 ^ w -> Z.lxor l (all_ones w) = all_ones w - l.
Proof.
  intros Hw Hl.
  assert (Hhigh : forall n, w <= n -> Z.testbit l n = false).
  { intros n Hn. rewrite <- (wrap_small w l Hl). apply testbit_unsigned_high; lia. }
  rewrite Z.sub_nocarry_ldiff.
  - apply Z.bits_inj'. intros n Hn.
    rewrite Z.lxor_spec, Z.ldiff_spec, testbit_all_ones_at by lia.
    destruct (Z.ltb_spec n w).
    + now rewrite xorb_true_r.
    + now rewrite Hhigh by lia.
  - apply Z.bits_inj'. intros n Hn.
    rewrite Z.ldiff_spec, testbit_all_ones_at, Z.bits_0 by lia.
    destruct (Z.ltb_spec n w).
    + apply andb_false_r.
    + now rewrite Hhigh by lia.
Qed.

Lemma static_cast_modulo T x : exists k, static_cast T x = x + k * 2 ^ bits T.
Proof.
  pose proof (bits_pos T) as Hw. pose proof (pow2_pos (bits T) ltac:(lia)) as Hp.
  pose proof (Z.div_mod x (2 ^ bits T) ltac:(lia)) as Hdm.
  unfold static_cast, sint, wrap. cbv zeta.
  destruct (is_signed T); [destruct (_ <? _)|].
  - exists (- (x / 2 ^ bits T)). lia.
  - exists (- (x / 2 ^ bits T) - 1). lia.
  - exists (- (x / 2 ^ bits T)). lia.
Qed.

(** X18.  On integer batches, for every lane: [~] is an involution,
    [~], [&] and [|] obey De Morgan's laws, [^] is [(a | b) & ~(a & b)],
    the kernel [bitwise_andnot(a, b)] is [~a & b], and [~a] holds the
    number [-a - 1] brought back into the type. *)
Theorem bitwise_laws (T : int_type) (a b : Z) (i : nat) :
  (i < Batch.size T)%nat ->
  lane (bits T) i (Batch.operator_not T (Batch.operator_not T a))
  = lane (bits T) i a
  /\ lane (bits T) i (Batch.operator_not T (Batch.operator_and T a b))
     = lane (bits T) i
         (Batch.operator_or T (Batch.operator_not T a) (Batch.operator_not T b))
  /\ lane (bits T) i (Batch.operator_not T (Batch.operator_or T a b))
     = lane (bits T) i
         (Batch.operator_and T (Batch.operator_not T a) (Batch.operator_not T b))
  /\ lane (bits T) i (Batch.operator_xor T a b)
     = lane (bits T) i
         (Batch.operator_and T (Batch.operator_or T a b)
            (Batch.operator_not T (Batch.operator_and T a b)))
  /\ lane (bits T) i (Avx2.bitwise_andnot a b)
     = lane (bits T) i (Batch.operator_and T (Batch.operator_not T a) b)
  /\ lane_value T (Batch.operator_not T a) i
     = static_cast T (- lane_value T a i - 1).
Proof.
  intros Hi. pose proof (bits_pos T) as Hw.
  unfold Batch.operator_not, Batch.operator_and, Batch.operator_or,
    Batch.operator_xor, Avx2.bitwise_and, Avx2.bitwise_or, Avx2.bitwise_xor,
    Avx2.bitwise_andnot, _mm256_and_si256, _mm256_or_si256, _mm256_xor_si256.
  repeat split.
  - apply Z.bits_inj'. intros n Hn.
    rewrite !testbit_lane_not by assumption.
    rewrite negb_andb, negb_involutive.
    destruct (Z.ltb_spec n (bits T)); cbn [andb negb orb];
      [reflexivity | now rewrite testbit_lane_high by lia].
  - apply Z.bits_inj'. intros n Hn.
    rewrite lane_lor, Z.lor_spec, !testbit_lane_not by (assumption || lia).
    rewrite lane_land, Z.land_spec by lia.
    destruct (n <? bits T), (Z.testbit (lane (bits T) i a) n),
      (Z.testbit (lane (bits T) i b) n); reflexivity.
  - apply Z.bits_inj'. intros n Hn.
    rewrite lane_land, Z.land_spec, !testbit_lane_not by (assumption || lia).
    rewrite lane_lor, Z.lor_spec by lia.
    destruct (n <? bits T), (Z.testbit (lane (bits T) i a) n),
      (Z.testbit (lane (bits T) i b) n); reflexivity.
  - apply Z.bits_inj'. intros n Hn.
    rewrite lane_lxor, Z.lxor_spec by lia.
    rewrite lane_land, Z.land_spec, testbit_lane_not by (assumption || lia).
    rewrite lane_lor, Z.lor_spec, lane_land, Z.land_spec by lia.
    destruct (Z.ltb_spec n (bits T)).
    + destruct (Z.testbit (lane (bits T) i a) n),
        (Z.testbit (lane (bits T) i b) n); reflexivity.
    + now rewrite !testbit_lane_high by lia.
  - apply Z.bits_inj'. intros n Hn.
    rewrite lane_andnot, Z.ldiff_spec by lia.
    rewrite lane_land, Z.land_spec, testbit_lane_not by (assumption || lia).
    destruct (Z.ltb_spec n (bits T)).
    + cbn [andb]. apply andb_comm.
    + now rewrite !testbit_lane_high by lia.
  - unfold lane_value. rewrite lane_bitwise_not by exact Hi.
    rewrite lxor_all_ones by (lia || apply lane_range; lia).
    apply static_cast_congr.
    destruct (static_cast_modulo T (lane (bits T) i a)) as [k ->].
    unfold all_ones. apply (wrap_congr _ _ _ (1 + k)); [lia | ring].
Qed.

Lemma bitwise_laws_witness :
  lane_value int8_t (Batch.operator_not int8_t (Avx.set int8_t [5; -128])) 1 = 127.
Proof.
  destruct (bitwise_laws int8_t (Avx.set int8_t [5; -128]) 0 1)
    as (_ & _ & _ & _ & _ & H); [vm_compute; lia|].
  rewrite H. vm_compute. reflexivity.
Defined.

(** ** Complex loads *)

Ltac eval_indices :=
  cbv beta zeta;
  repeat match goal with
    | |- context [Z.to_nat ?e] =>
        let v := eval vm_compute in (Z.to_nat e) in
        progress change (Z.to_nat e) with v
    | |- context [Z.testbit ?a (Z.of_nat ?k)] =>
        let v := eval vm_compute in (Z.testbit a (Z.of_nat k)) in
        progress change (Z.testbit a (Z.of_nat k)) with v
    end;
  cbn [Nat.even Nat.div Nat.divmod Nat.modulo Nat.mul Nat.add Nat.sub
       Nat.ltb Nat.leb fst snd];
  cbv iota.

Ltac lanes_by_cases :=
  repeat (rewrite lane_build by (reflexivity || (vm_compute; lia));
          eval_indices; rewrite ?wrap_lane by lia);
  try reflexivity.

Lemma lane_split32 r j :
  lane 32 j r = lane 32 (j mod 2) (lane 64 (j / 2) r).
Proof.
  symmetry. pose proof (Nat.div_mod_eq j 2) as E.
  pose proof (Nat.mod_upper_bound j 2 ltac:(lia)) as B.
  apply lane_of_part; lia.
Qed.

Lemma lane_in_qword b q r :
  (b < 2)%nat -> lane 32 b (lane 64 q r) = lane 32 (2 * q + b) r.
Proof. intros. apply lane_of_part; lia. Qed.

Lemma lane_load_complex_double hi lo k :
  (k < 4)%nat ->
  lane 64 k (fst (Avx2.load_complex_double hi lo)) = interleaved 64 4 hi lo (2 * k)
  /\ lane 64 k (snd (Avx2.load_complex_double hi lo))
     = interleaved 64 4 hi lo (2 * k + 1).
Proof.
  intros Hk.
  unfold Avx2.load_complex_double, interleaved, fst, snd,
    _mm256_permute4x64_pd, _mm256_unpacklo_pd, _mm256_unpackhi_pd.
  split;
    do 4 (destruct k as [|k]; [lanes_by_cases|]); exfalso; lia.
Qed.

Lemma lane_complex_low_high real imag k :
  (k < 4)%nat ->
  lane 64 k (Avx2.complex_low real imag)
  = (if Nat.even k then lane 64 (k / 2) real else lane 64 (k / 2) imag)
  /\ lane 64 k (Avx2.complex_high real imag)
     = (if Nat.even k then lane 64 (2 + k / 2) real
        else lane 64 (2 + k / 2) imag).
Proof.
  intros Hk.
  unfold Avx2.complex_low, Avx2.complex_high,
    _mm256_permute4x64_pd, _mm256_blend_pd.
  split;
    do 4 (destruct k as [|k]; [lanes_by_cases|]); exfalso; lia.
Qed.

Ltac float_lane :=
  match goal with
  | |- lane 32 ?j (_mm256_permute4x64_pd ?r ?imm) = _ =>
      rewrite (lane_split32 (_mm256_permute4x64_pd r imm) j)
  end;
  unfold _mm256_permute4x64_pd; eval_indices;
  rewrite lane_build by (reflexivity || (vm_compute; lia));
  eval_indices; rewrite wrap_lane by lia;
  rewrite lane_in_qword by lia; eval_indices;
  unfold _mm256_shuffle_ps;
  rewrite lane_build by (reflexivity || (vm_compute; lia));
  eval_indices; rewrite wrap_lane by lia; reflexivity.

Lemma lane_load_complex_float hi lo k :
  (k < 8)%nat ->
  lane 32 k (fst (Avx2.load_complex_float hi lo)) = interleaved 32 8 hi lo (2 * k)
  /\ lane 32 k (snd (Avx2.load_complex_float hi lo))
     = interleaved 32 8 hi lo (2 * k + 1).
Proof.
  intros Hk.
  unfold Avx2.load_complex_float, interleaved, fst, snd,
    _mm256_castpd_ps, _mm256_castps_pd.
  split;
    do 8 (destruct k as [|k]; [cbn [Nat.mul Nat.add Nat.ltb Nat.leb Nat.sub]; cbv iota; float_lane|]); exfalso; lia.
Qed.

(** X19.  [load_complex] splits two registers of interleaved complex
    numbers, [hi] holding the first half and [lo] the second: lane [k]
    of the real part is element [2k] of the interleaved sequence and
    lane [k] of the imaginary part is element [2k + 1], for [double]
    (4 lanes) and for [float] (8 lanes). *)
Theorem load_complex_deinterleaves (hi lo : Z) (k : nat) :
  ((k < 4)%nat ->
   lane 64 k (fst (Avx2.load_complex_double hi lo)) = interleaved 64 4 hi lo (2 * k)
   /\ lane 64 k (snd (Avx2.load_complex_double hi lo))
      = interleaved 64 4 hi lo (2 * k + 1))
  /\ ((k < 8)%nat ->
      lane 32 k (fst (Avx2.load_complex_float hi lo)) = interleaved 32 8 hi lo (2 * k)
      /\ lane 32 k (snd (Avx2.load_complex_float hi lo))
         = interleaved 32 8 hi lo (2 * k + 1)).
Proof.
  split; [apply lane_load_complex_double | apply lane_load_complex_float].
Qed.

Lemma load_complex_deinterleaves_witness :
  lane 64 3 (snd (Avx2.load_complex_double
                    (build 64 (fun k => 10 + Z.of_nat k))
                    (build 64 (fun k => 20 + Z.of_nat k))))
  = 23.
Proof.
  destruct (load_complex_deinterleaves
              (build 64 (fun k => 10 + Z.of_nat k))
              (build 64 (fun k => 20 + Z.of_nat k)) 3) as [H _].
  destruct (H ltac:(lia)) as [_ Him]. rewrite Him. vm_compute. reflexivity.
Defined.

(** X20.  [complex_low] and [complex_high] interleave the real and the
    imaginary part of a batch of complex doubles again: the low result
    alternates the lanes 0 and 1 of the two parts, the high result the
    lanes 2 and 3.  Applied to what [load_complex] made of [hi] and
    [lo] they give back every lane of [hi] and of [lo]. *)
Theorem complex_low_high_round_trip (real imag hi lo : Z) (k : nat) :
  (k < 4)%nat ->
  lane 64 k (Avx2.complex_low real imag)
  = (if Nat.even k then lane 64 (k / 2) real else lane 64 (k / 2) imag)
  /\ lane 64 k (Avx2.complex_high real imag)
     = (if Nat.even k then lane 64 (2 + k / 2) real
        else lane 64 (2 + k / 2) imag)
  /\ lane 64 k
       (Avx2.complex_low (fst (Avx2.load_complex_double hi lo))
          (snd (Avx2.load_complex_double hi lo)))
     = lane 64 k hi
  /\ lane 64 k
       (Avx2.complex_high (fst (Avx2.load_complex_double hi lo))
          (snd (Avx2.load_complex_double hi lo)))
     = lane 64 k lo.
Proof.
  intros Hk.
  destruct (lane_complex_low_high real imag k Hk) as [Hlow Hhigh].
  split; [exact Hlow|]. split; [exact Hhigh|].
  destruct (lane_complex_low_high (fst (Avx2.load_complex_double hi lo))
              (snd (Avx2.load_complex_double hi lo)) k Hk) as [-> ->].
  split.
  - destruct (Nat.even k) eqn:Ek.
    + destruct (lane_load_complex_double hi lo (k / 2)) as [-> _];
        [apply Nat.Div0.div_lt_upper_bound; lia|].
      unfold interleaved.
      do 4 (destruct k as [|k]; [try discriminate Ek; reflexivity|]).
      exfalso; lia.
    + destruct (lane_load_complex_double hi lo (k / 2)) as [_ ->];
        [apply Nat.Div0.div_lt_upper_bound; lia|].
      unfold interleaved.
      do 4 (destruct k as [|k]; [try discriminate Ek; reflexivity|]).
      exfalso; lia.
  - destruct (Nat.even k) eqn:Ek.
    + destruct (lane_load_complex_double hi lo (2 + k / 2)) as [-> _].
      { do 4 (destruct k as [|k]; [try discriminate Ek; cbn; lia|]). lia. }
      unfold interleaved.
      do 4 (destruct k as [|k]; [try discriminate Ek; reflexivity|]).
      exfalso; lia.
    + destruct (lane_load_complex_double hi lo (2 + k / 2)) as [_ ->].
      { do 4 (destruct k as [|k]; [try discriminate Ek; cbn; lia|]). lia. }
      unfold interleaved.
      do 4 (destruct k as [|k]; [try discriminate Ek; reflexivity|]).
      exfalso; lia.
Qed.

Lemma complex_low_high_round_trip_witness :
  lane 64 2
    (Avx2.complex_high
       (fst (Avx2.load_complex_double 7 (build 64 (fun k => 20 + Z.of_nat k))))
       (snd (Avx2.load_complex_double 7 (build 64 (fun k => 20 + Z.of_nat k)))))
  = 22.
Proof.
  destruct (complex_low_high_round_trip 0 0 7
              (build 64 (fun k => 20 + Z.of_nat k)) 2) as (_ & _ & _ & H); [lia|].
  rewrite H. vm_compute. reflexivity.
Defined.

(** ** Compile-time constants *)

Lemma get_at_index_clamped {A : Type} (i : nat) (head : A) (tail : list A) :
  get_at_index i head tail
  = nth (Nat.min i (List.length tail)) (head :: tail) head.
Proof.
  revert i head. induction tail as [|t ts IH]; intros i head.
  - cbn [List.length]. rewrite Nat.min_0_r. destruct i; reflexivity.
  - destruct i as [|i]; [reflexivity|].
    cbn [get_at_index List.length Nat.min]. rewrite IH.
    cbn [nth]. pose proof (Nat.le_min_r i (List.length ts)) as Hle.
    destruct (Nat.min i (List.length ts)); [reflexivity|].
    apply nth_indep. lia.
Qed.

Lemma get_clamps_to_last (i : nat) :
  (forall (Values : list Z) (d : Z),
      Values <> [] ->
      batch_constant.get Values i
      = Some (nth (Nat.min i (List.length Values - 1)) Values d))
  /\ (forall (Values : list bool) (d : bool),
        Values <> [] ->
        batch_bool_constant.get Values i
        = Some (nth (Nat.min i (List.length Values - 1)) Values d)).
Proof.
  split; intros [|head tail] d Hne; try congruence;
    unfold batch_constant.get, batch_bool_constant.get;
    rewrite get_at_index_clamped; cbn [List.length];
    rewrite Nat.sub_succ, Nat.sub_0_r; f_equal;
    apply nth_indep; cbn [List.length]; lia.
Qed.

(** X21.  [get(i)] of a [batch_constant] and of a [batch_bool_constant]
    over a non-empty pack returns value [i] of the pack for an index
    inside it and the last value of the pack for every index past the
    end; it never fails and reads nothing outside the pack. *)
Theorem constant_get_clamps (i : nat) :
  (forall (Values : list Z) (d : Z),
      Values <> [] ->
      batch_constant.get Values i
      = Some (nth (Nat.min i (List.length Values - 1)) Values d))
  /\ (forall (Values : list bool) (d : bool),
        Values <> [] ->
        batch_bool_constant.get Values i
        = Some (nth (Nat.min i (List.length Values - 1)) Values d)).
Proof. apply get_clamps_to_last. Qed.

Lemma constant_get_clamps_witness :
  batch_constant.get [10; 20; 30] 7 = Some 30.
Proof.
  destruct (constant_get_clamps 7) as [H _].
  rewrite (H [10; 20; 30] 0); [reflexivity | discriminate].
Defined.

Lemma lane_value_set T values i :
  (i < Batch.size T)%nat ->
  lane_value T (Avx.set T values) i = static_cast T (nth i values 0).
Proof.
  intros Hi. unfold lane_value. now rewrite lane_set, static_cast_wrap by exact Hi.
Qed.

Lemma fits_representable T x : fits T x = true <-> representable T x.
Proof.
  unfold fits, representable. destruct (is_signed T);
    rewrite andb_true_iff, Z.leb_le, Z.ltb_lt; reflexivity.
Qed.

Lemma make_batch_constant_some T G :
  (forall j, (j < batch_size T)%nat -> representable T (G j (batch_size T))) ->
  make_batch_constant T G
  = Some (map (fun j => G j (batch_size T)) (seq 0 (batch_size T))).
Proof.
  intros Hfit. unfold make_batch_constant. cbv zeta.
  replace (forallb _ _) with true; [reflexivity|].
  symmetry. apply forallb_forall. intros x Hx.
  apply in_map_iff in Hx. destruct Hx as (j & <- & Hj).
  apply in_seq in Hj. apply fits_representable, Hfit. lia.
Qed.

Lemma make_batch_constant_none T G i :
  (i < batch_size T)%nat -> ~ representable T (G i (batch_size T)) ->
  make_batch_constant T G = None.
Proof.
  intros Hi Hno. unfold make_batch_constant. cbv zeta.
  destruct (forallb _ _) eqn:E; [|reflexivity].
  exfalso. apply Hno. apply fits_representable.
  rewrite forallb_forall in E. apply E.
  apply in_map_iff. exists i. split; [reflexivity|]. apply in_seq. lia.
Qed.

(** X22.  [make_batch_constant] over a generator [G] gives a constant
    exactly when every [G::get(j, size)] fits the value type: a value
    that does not fit is a narrowing error and there is no constant.
    When it exists the constant converts to a batch, and [get(i)] agrees
    with lane [i] of that batch: both are [G::get(i, size)].  A constant
    made by [make_batch_bool_constant] converts likewise and its lane
    [i] holds [G::get(i, size)]. *)
Theorem generated_constant_lanes (T : int_type) (i : nat) :
  (i < Batch.size T)%nat ->
  (forall G : nat -> nat -> Z,
      (forall j, (j < Batch.size T)%nat -> representable T (G j (Batch.size T))) ->
      exists Values b,
        make_batch_constant T G = Some Values
        /\ batch_of_constant T Values = Done b
        /\ lane_value T b i = G i (Batch.size T)
        /\ batch_constant.get Values i = Some (G i (Batch.size T)))
  /\ (forall G : nat -> nat -> Z,
        ~ representable T (G i (Batch.size T)) ->
        make_batch_constant T G = None)
  /\ (forall G : nat -> nat -> bool,
        exists b,
          batch_bool_of_constant T (make_batch_bool_constant T G) = Done b
          /\ bool_lane T b i (G i (Batch.size T))
          /\ batch_bool_constant.get (make_batch_bool_constant T G) i
             = Some (G i (Batch.size T))).
Proof.
  intros Hi. split; [|split].
  - intros G Hfit.
    set (Values := map (fun j => G j (batch_size T)) (seq 0 (batch_size T))).
    assert (Hlen : List.length Values = batch_size T)
      by (unfold Values; now rewrite length_map, length_seq).
    assert (Hnth : nth i Values 0 = G i (Batch.size T)).
    { unfold Values.
      rewrite (nth_indep _ 0 (G 0%nat (batch_size T)))
        by (rewrite length_map, length_seq; exact Hi).
      rewrite (map_nth (fun j => G j (batch_size T))).
      rewrite seq_nth by exact Hi. reflexivity. }
    exists Values, (Avx.set T Values).
    split; [now apply make_batch_constant_some|].
    split; [now apply batch_of_constant_done|].
    split.
    + rewrite lane_value_set, Hnth by exact Hi.
      apply static_cast_representable, Hfit, Hi.
    + destruct (get_clamps_to_last i) as [Hget _].
      rewrite (Hget _ 0) by (intros E; rewrite E in Hlen; cbn in Hlen;
                             unfold Batch.size in Hi; lia).
      rewrite Hlen, Nat.min_l by (unfold Batch.size in Hi; lia).
      now rewrite Hnth.
  - intros G Hno. now apply (make_batch_constant_none T G i).
  - intros G.
    exists (Avx.set_bool T (make_batch_bool_constant T G)).
    assert (Hlen : List.length (make_batch_bool_constant T G) = batch_size T)
      by (unfold make_batch_bool_constant; now rewrite length_map, length_seq).
    assert (Hnth : nth i (make_batch_bool_constant T G) false = G i (Batch.size T)).
    { unfold make_batch_bool_constant.
      rewrite (nth_indep _ false (G 0%nat (batch_size T)))
        by (rewrite length_map, length_seq; exact Hi).
      rewrite (map_nth (fun i => G i (batch_size T))).
      rewrite seq_nth by exact Hi. reflexivity. }
    split; [now apply batch_bool_of_constant_done|].
    split.
    + unfold bool_lane. now rewrite lane_set_bool, Hnth by exact Hi.
    + rewrite constant_get_nth by (rewrite Hlen; exact Hi). now rewrite Hnth.
Qed.

Lemma generated_constant_lanes_witness :
  (exists Values b,
     make_batch_constant int16_t ramp_generator = Some Values
     /\ batch_of_constant int16_t Values = Done b
     /\ lane_value int16_t b 5 = 5)
  /\ make_batch_constant int8_t (fun j _ => 200 + Z.of_nat j) = None.
Proof.
  split.
  - destruct (generated_constant_lanes int16_t 5) as [H _]; [vm_compute; lia|].
    destruct (H ramp_generator) as (Values & b & HV & Hb & Hl & _).
    { intros j Hj. unfold ramp_generator, representable.
      cbv [is_signed bits sizeof]. change (Batch.size int16_t) with 16%nat in Hj.
      simpl. lia. }
    exists Values, b. repeat split; assumption.
  - destruct (generated_constant_lanes int8_t 0) as (_ & H & _); [vm_compute; lia|].
    apply H. vm_compute. intros [_ Hlt]. discriminate Hlt.
Defined.

(** ** Gather *)

Lemma lane_value_run p T offset i :
  (i < Batch.size T)%nat ->
  lane_value T (run p T offset) i
  = static_cast T (prescale p * lane_value T offset i).
Proof.
  intros Hi. unfold lane_value. rewrite lane_run, static_cast_wrap by exact Hi.
  rewrite (Z.mul_comm _ (static_cast T _)), static_cast_mul_l.
  f_equal. ring.
Qed.

Lemma lane_gather_impl scale O mem offset i :
  O = int32_t \/ O = int64_t -> (i < Batch.size O)%nat ->
  exists r,
    gather_impl scale O mem offset = Some r
    /\ lane (bits O) i r
       = wrap (bits O) (mem (sint 64 (lane_value O offset i * scale))).
Proof.
  intros [-> | ->] Hi; apply size_lt in Hi; eexists; (split; [reflexivity|]);
    unfold _mm256_i32gather_epi32, _mm256_i64gather_epi64;
    (rewrite lane_build; [reflexivity | reflexivity | exact Hi]).
Qed.

(** X23.  [gather<s>] with [int32_t] or [int64_t] offsets returns a
    batch, and when the pre-scaled offset [prescale * x] of a lane fits
    the offset type and the byte displacement [s * x] fits 64 bits, the
    lane holds the element found [s * x] bytes from the base pointer. *)
Theorem gather_lanes (s : Z) (O : int_type) (mem : Z -> Z) (offset : Z) (i : nat) :
  O = int32_t \/ O = int64_t -> (i < Batch.size O)%nat ->
  exists p r,
    make_prescaler s [8; 4; 2; 1] = Some p
    /\ Avx2.gather s O mem offset = Some r
    /\ (representable O (prescale p * lane_value O offset i) ->
        representable int64_t (s * lane_value O offset i) ->
        lane (bits O) i r = wrap (bits O) (mem (s * lane_value O offset i))).
Proof.
  intros HO Hi.
  destruct (make_prescaler_spec s) as (p & Hp & _ & _ & _ & _ & Hs).
  destruct (lane_gather_impl (scale p) O mem (run p O offset) i HO Hi)
    as (r & Hr & Hlane).
  exists p, r. split; [exact Hp|].
  split; [unfold Avx2.gather; rewrite Hp; exact Hr|].
  intros Hfit H64. rewrite Hlane, lane_value_run by exact Hi.
  rewrite static_cast_representable by exact Hfit.
  replace (prescale p * lane_value O offset i * scale p)
    with (s * lane_value O offset i) by (rewrite Hs at 1; ring).
  rewrite sint_small; [reflexivity | lia | exact H64].
Qed.

Lemma gather_lanes_witness :
  exists r,
    Avx2.gather 12 int32_t (fun d => d + 1000) (Avx.set int32_t [0; 5; -2]) = Some r
    /\ lane 32 1 r = 1060.
Proof.
  destruct (gather_lanes 12 int32_t (fun d => d + 1000)
              (Avx.set int32_t [0; 5; -2]) 1) as (p & r & Hp & Hr & Hl);
    [left; reflexivity | vm_compute; lia |].
  exists r. split; [exact Hr|].
  assert (Hp' : p = {| scale := 4; prescale := 3 |})
    by (vm_compute in Hp; congruence).
  subst p.
  refine (eq_trans (Hl _ _) _);
    [vm_compute; split; congruence | vm_compute; split; congruence | reflexivity].
Defined.

(** ** Scales *)

Lemma select_scale_checked s head tail :
  (if s mod select_scale s head tail =? 0
   then Some (select_scale s head tail) else None)
  = first_divisor s (head :: tail).
Proof.
  revert head. induction tail as [|t ts IH]; intros head.
  - reflexivity.
  - cbn [select_scale first_divisor].
    destruct (s mod head =? 0) eqn:E; [now rewrite E|].
    rewrite IH. reflexivity.
Qed.

Lemma make_prescaler_first s scales :
  make_prescaler s scales
  = option_map (fun d => {| scale := d; prescale := s / d |})
      (first_divisor s scales).
Proof.
  destruct scales as [|head tail]; [reflexivity|].
  rewrite <- select_scale_checked. unfold make_prescaler.
  destruct (s mod select_scale s head tail =? 0); reflexivity.
Qed.

Lemma first_divisor_some s scales d :
  first_divisor s scales = Some d -> In d scales /\ s mod d = 0.
Proof.
  induction scales as [|h t IH]; [discriminate|].
  cbn [first_divisor]. destruct (Z.eqb_spec (s mod h) 0) as [E|N].
  - intros [= <-]. split; [now left | exact E].
  - intros H. destruct (IH H). split; [now right | assumption].
Qed.

Lemma first_divisor_none s scales :
  first_divisor s scales = None <-> forall d, In d scales -> s mod d <> 0.
Proof.
  induction scales as [|h t IH]; [split; [intros _ d [] | reflexivity]|].
  cbn [first_divisor]. destruct (Z.eqb_spec (s mod h) 0) as [E|N].
  - split; [discriminate|]. intros H. exfalso. apply (H h); [now left | exact E].
  - rewrite IH. split.
    + intros H d [<-|Hd]; [exact N | now apply H].
    + intros H d Hd. apply H. now right.
Qed.

(** X24.  Over any list of positive scales, [prescaler] picks the
    first scale of the list that divides the required scale [s], and
    its [prescale] is the exact quotient, so [scale * prescale = s];
    the [static_assert] fails exactly when no scale of the list divides
    [s]. *)
Theorem prescaler_first_divisor (s : Z) (scales : list Z) :
  Forall (fun d => 0 < d) scales ->
  (make_prescaler s scales = None <-> forall d, In d scales -> ~ (d | s))
  /\ (forall p,
        make_prescaler s scales = Some p ->
        first_divisor s scales = Some (scale p)
        /\ In (scale p) scales /\ (scale p | s)
        /\ prescale p = s / scale p
        /\ scale p * prescale p = s).
Proof.
  intros Hpos. rewrite Forall_forall in Hpos. rewrite make_prescaler_first. split.
  - destruct (first_divisor s scales) as [d|] eqn:E; cbn [option_map].
    + split; [discriminate|]. intros H. exfalso.
      destruct (first_divisor_some s scales d E) as [Hin Hmod].
      apply (H d Hin). apply Z.mod_divide; [specialize (Hpos d Hin); lia | exact Hmod].
    + split; [|reflexivity]. intros _ d Hin Hdiv.
      apply (proj1 (first_divisor_none s scales) E d Hin).
      apply Z.mod_divide; [specialize (Hpos d Hin); lia | exact Hdiv].
  - intros p Hp. destruct (first_divisor s scales) as [d|] eqn:E;
      cbn [option_map] in Hp; [|discriminate].
    injection Hp as <-. cbn [scale prescale].
    destruct (first_divisor_some s scales d E) as [Hin Hmod].
    pose proof (Hpos d Hin) as Hd.
    split; [reflexivity|]. split; [exact Hin|].
    split; [apply Z.mod_divide; [lia | exact Hmod]|].
    split; [reflexivity|].
    pose proof (Z.div_mod s d ltac:(lia)). lia.
Qed.

Lemma prescaler_first_divisor_witness :
  make_prescaler 12 [16; 6; 4; 3] = Some {| scale := 6; prescale := 2 |}
  /\ first_divisor 12 [16; 6; 4; 3] = Some 6.
Proof.
  destruct (prescaler_first_divisor 12 [16; 6; 4; 3]) as [_ H].
  - repeat constructor.
  - split; [reflexivity|].
    apply (H {| scale := 6; prescale := 2 |}). reflexivity.
Defined.

(** ** Logical negation *)

(** X25.  [!x] on an integer batch has lane [i] set exactly when lane
    [i] of [x] is zero. *)
Theorem logical_not_lanes (T : int_type) (x : Z) (i : nat) :
  (i < Batch.size T)%nat ->
  bool_lane T (Batch.operator_lnot T x) i (lane_value T x i =? 0).
Proof.
  intros Hi. unfold Batch.operator_lnot.
  pose proof (bool_lane_eq T x (batch_of_value T 0) i Hi) as H.
  rewrite lane_value_broadcast in H; [exact H | exact Hi|].
  apply count_representable. pose proof (bits_pos T). lia.
Qed.

Lemma logical_not_lanes_witness :
  bool_lane int16_t (Batch.operator_lnot int16_t (Avx.set int16_t [3; 0])) 1 true.
Proof.
  apply (logical_not_lanes int16_t (Avx.set int16_t [3; 0]) 1). vm_compute. lia.
Defined.

(** ** Complex stores followed by loads *)

(** X26.  Splitting a batch of complex doubles into the two interleaved
    registers [complex_low] and [complex_high] and loading those back
    with [load_complex] gives every lane of the real and of the
    imaginary part again. *)
Theorem complex_split_then_load (real imag : Z) (k : nat) :
  (k < 4)%nat ->
  lane 64 k
    (fst (Avx2.load_complex_double (Avx2.complex_low real imag)
            (Avx2.complex_high real imag)))
  = lane 64 k real
  /\ lane 64 k
       (snd (Avx2.load_complex_double (Avx2.complex_low real imag)
               (Avx2.complex_high real imag)))
     = lane 64 k imag.
Proof.
  intros Hk.
  destruct (lane_load_complex_double (Avx2.complex_low real imag)
              (Avx2.complex_high real imag) k Hk) as [-> ->].
  unfold interleaved.
  split;
    do 4 (destruct k as [|k];
          [cbn [Nat.mul Nat.add Nat.ltb Nat.leb Nat.sub]; cbv iota;
           match goal with
           | |- lane 64 ?j (Avx2.complex_low _ _) = _ =>
               destruct (lane_complex_low_high real imag j ltac:(lia)) as [-> _]
           | |- lane 64 ?j (Avx2.complex_high _ _) = _ =>
               destruct (lane_complex_low_high real imag j ltac:(lia)) as [_ ->]
           end; reflexivity|]);
    exfalso; lia.
Qed.

Lemma complex_split_then_load_witness :
  lane 64 3
    (snd (Avx2.load_complex_double
            (Avx2.complex_low 5 (build 64 (fun k => 30 + Z.of_nat k)))
            (Avx2.complex_high 5 (build 64 (fun k => 30 + Z.of_nat k)))))
  = 33.
Proof.
  destruct (complex_split_then_load 5 (build 64 (fun k => 30 + Z.of_nat k)) 3)
    as [_ H]; [lia|].
  rewrite H. vm_compute. reflexivity.
Defined.

(** ** Products *)

Lemma lane_value_mul T self other i :
  (i < Batch.size T)%nat ->
  lane_value T (Avx2.mul T self other) i
  = static_cast T (lane_value T self i * lane_value T other i).
Proof.
  intros Hi. unfold lane_value.
  now rewrite lane_mul, static_cast_wrap, static_cast_mul by exact Hi.
Qed.

(** X27.  For a type of 2, 4 or 8 bytes, [a * b] holds in each lane
    the product of the two lanes brought back into the type by
    wraparound, and multiplication distributes over the sum:
    [(a + b) * c] and [a * c + b * c] have the same lanes. *)
Theorem mul_lanes_distribute
        (avx_add : int_type -> Z -> Z -> Z)
        (T : int_type) (a b c : Z) (i : nat) :
  sizeof T <> 1 -> (i < Batch.size T)%nat ->
  lane_value T (Batch.operator_mul T a b) i
  = static_cast T (lane_value T a i * lane_value T b i)
  /\ lane_value T
       (Batch.operator_mul T (Batch.operator_add avx_add T a b) c) i
     = lane_value T
         (Batch.operator_add avx_add T
            (Batch.operator_mul T a c) (Batch.operator_mul T b c)) i.
Proof.
  intros _ Hi.
  unfold Batch.operator_mul, Batch.operator_mul_assign,
    Batch.operator_add, Batch.operator_add_assign.
  split; [now apply lane_value_mul|].
  rewrite lane_value_mul, !lane_value_add, !lane_value_mul by exact Hi.
  rewrite static_cast_mul_l, static_cast_add. f_equal. ring.
Qed.

Lemma mul_lanes_distribute_witness :
  lane_value int16_t
    (Batch.operator_mul int16_t
       (Avx.set int16_t [300; 2]) (Avx.set int16_t [300; 3])) 0
  = static_cast int16_t 90000.
Proof.
  destruct (mul_lanes_distribute (fun _ _ _ => 0) int16_t
              (Avx.set int16_t [300; 2]) (Avx.set int16_t [300; 3]) 0 0)
    as [H _]; [discriminate | vm_compute; lia |].
  rewrite H. vm_compute. reflexivity.
Defined.

(** ** The first lanes of a boolean batch *)

(** X28.  [first_n_true(n)] converts to a boolean batch by comparing
    the lane indices with [n] converted to the signed integer type of
    the lane width: lane [i] is set exactly when [i] is below the
    converted [n].  With 8-bit lanes [n = 296] converts to 40 and sets
    all 32 lanes; with 16-bit lanes [n = 32768] converts to -32768 and
    sets none. *)
Theorem first_n_true_narrows (T : int_type) (n : Z) (i : nat) :
  (i < BatchBool.size T)%nat ->
  exists b,
    first_n_true.to_batch_bool T n = Some (Done b)
    /\ bool_lane T b i (Z.of_nat i <? static_cast (make_signed T) n)
    /\ BatchBool.get T b i
       = Some (Z.of_nat i <? static_cast (make_signed T) n).
Proof.
  intros Hi. destruct (first_n_true_lanes T n i Hi) as (b & Hb & Hlane).
  exists b. split; [exact Hb|]. split; [exact Hlane|].
  rewrite bool_get_lane, Hlane by exact Hi.
  pose proof (all_ones_range (bits T) (bits_pos T)).
  destruct (Z.of_nat i <? static_cast (make_signed T) n); [|reflexivity].
  destruct (Z.eqb_spec (all_ones (bits T)) 0); [lia | reflexivity].
Qed.

Lemma first_n_true_narrows_witness :
  (exists b,
     first_n_true.to_batch_bool int8_t 296 = Some (Done b)
     /\ BatchBool.get int8_t b 31 = Some true)
  /\ (exists b,
        first_n_true.to_batch_bool int16_t 32768 = Some (Done b)
        /\ BatchBool.get int16_t b 0 = Some false).
Proof.
  split.
  - destruct (first_n_true_narrows int8_t 296 31) as (b & Hb & _ & Hget);
      [vm_compute; lia|].
    exists b. split; [exact Hb | exact Hget].
  - destruct (first_n_true_narrows int16_t 32768 0) as (b & Hb & _ & Hget);
      [vm_compute; lia|].
    exists b. split; [exact Hb | exact Hget].
Defined.
